(** * YouTube Video Summarizer: [main.py]

    A shallow embedding of [extract_video_id], [get_transcript],
    [summarize_text] and [save_pdf], together with the parts of the Python
    standard library they lean on ([str] methods and [textwrap.wrap]), and
    of the rest of the script: the configuration,
    [download_audio_and_metadata], [transcribe_audio], [display_thumbnail]
    and the streamlit page.

    Conventions.
    - A Python [str] is a [list ascii]; a character is a code point in the
      Latin-1 range U+0000..U+00FF, and [len] counts code points. The
      pictographs in the literals of the script lie outside that range and
      are written as the bytes of their UTF-8 form, so such a literal is
      longer here than in Python.
    - A Python [int] is a [Z].
    - A Python call either returns a value, raises an exception, or (for a
      [while] loop run with a bounded number of iterations) fails to finish:
      see [result].
    - The language model, the streamlit page, the transcript provider and
      the PDF canvas are the outside world; calls to them are recorded in an
      explicit [world] that is threaded through the program.
    - [save_pdf] gives the calls made on the canvas, [c.save()] among
      them; whether that call can write the file is a service of its own,
      [Canvas_save], which the page asks through [save_pdf_to_disk].
    - The standard library ([str], [textwrap], [urllib.parse],
      [posixpath]) is the one of CPython 3.11. *)

From Stdlib Require Import ZArith List Ascii String Bool Lia DecimalString.
From stdpp Require Import base tactics option list gmap strings.

Local Open Scope Z_scope.
Local Open Scope list_scope.

(** ** Python values *)

Definition str := list ascii.

(** A string literal. *)
Definition lit (s : string) : str := list_ascii_of_string s.

Definition len {A} (l : list A) : Z := Z.of_nat (length l).

Inductive exn_class :=
  | TranscriptsDisabled
  | NoTranscriptFound
  | ValueError
  | KeyError
  | FileNotFoundError
  | OtherException.

(** An exception object: its class and [str(e)]. Every class above derives
    from [Exception]. *)
Record exn := Exn { exn_cls : exn_class; exn_str : str }.

Inductive result (A : Type) :=
  | Ret (a : A)
  | Raise (e : exn)
  | Diverge.
Arguments Ret {A} a.
Arguments Raise {A} e.
Arguments Diverge {A}.

(** ** [str] methods *)

Module PyStr.

Definition code (c : ascii) : N := N_of_ascii c.

(** [c.isspace()] on U+0000..U+00FF: TAB..CR, FS..US, SPACE, NEL, NBSP. *)
Definition isspace (c : ascii) : bool :=
  let n := code c in
  ((9 <=? n) && (n <=? 13) || (28 <=? n) && (n <=? 32)
   || (n =? 133) || (n =? 160))%N.

(** [s.lstrip()], [s.rstrip()], [s.strip()] *)
Fixpoint lstrip (s : str) : str :=
  match s with
  | c :: s' => if isspace c then lstrip s' else s
  | [] => []
  end.

Definition rstrip (s : str) : str := rev (lstrip (rev s)).

Definition strip (s : str) : str := rstrip (lstrip s).

(** [sep.join(parts)] *)
Fixpoint join (sep : str) (parts : list str) : str :=
  match parts with
  | [] => []
  | [p] => p
  | p :: ps => p ++ sep ++ join sep ps
  end.

(** [s.split(sep)] for a one-character separator; the second argument
    accumulates the field being read. The result is never empty. *)
Fixpoint split_acc (sep : ascii) (field : str) (s : str) : list str :=
  match s with
  | [] => [rev field]
  | c :: s' =>
      if Ascii.eqb c sep then rev field :: split_acc sep [] s'
      else split_acc sep (c :: field) s'
  end.

Definition split (sep : ascii) (s : str) : list str := split_acc sep [] s.

(** [s.split(sep, 1)] *)
Fixpoint split1_acc (sep : ascii) (field : str) (s : str) : list str :=
  match s with
  | [] => [rev field]
  | c :: s' =>
      if Ascii.eqb c sep then [rev field; s']
      else split1_acc sep (c :: field) s'
  end.

Definition split1 (sep : ascii) (s : str) : list str := split1_acc sep [] s.

(** [l[-1]] of a list; [None] stands for IndexError. *)
Definition last_item {A} (l : list A) : option A := last l.

Fixpoint startswith (p s : str) : bool :=
  match p, s with
  | [], _ => true
  | a :: p', b :: s' => Ascii.eqb a b && startswith p' s'
  | _ :: _, [] => false
  end.

(** [sub in s] *)
Fixpoint contains (sub s : str) : bool :=
  startswith sub s ||
  match s with
  | [] => false
  | _ :: s' => contains sub s'
  end.

(** [s.replace(a, b)] for one-character [a] and [b] *)
Definition replace (a b : ascii) (s : str) : str :=
  map (fun c => if Ascii.eqb c a then b else c) s.

(** [s.expandtabs(tabsize)]; [col] is the column reached on the current
    line. *)
Fixpoint expandtabs_from (tabsize col : nat) (s : str) : str :=
  match s with
  | [] => []
  | c :: s' =>
      if Ascii.eqb c "009" then
        if (0 <? tabsize)%nat then
          let incr := (tabsize - col mod tabsize)%nat in
          repeat " "%char incr ++ expandtabs_from tabsize (col + incr) s'
        else expandtabs_from tabsize col s'
      else
        c :: expandtabs_from tabsize
               (if Ascii.eqb c "010" || Ascii.eqb c "013" then 0%nat
                else S col) s'
  end.

Definition expandtabs (tabsize : nat) (s : str) : str :=
  expandtabs_from tabsize 0 s.

(** [s[:e]] and [s[e:]] with Python's treatment of a negative bound. *)
Definition clamp_index (s : str) (e : Z) : nat :=
  Z.to_nat (if e <? 0 then Z.max 0 (len s + e) else e).

Definition slice_to (s : str) (e : Z) : str := take (clamp_index s e) s.
Definition slice_from (s : str) (e : Z) : str := drop (clamp_index s e) s.

(** [s.rfind(c, 0, e)] for a one-character [c] and [0 <= e]: the highest
    index below [e] that holds [c], or -1. *)
Fixpoint rfind_from (c : ascii) (i : Z) (found : Z) (s : str) (e : Z) : Z :=
  match s with
  | [] => found
  | a :: s' =>
      if e <=? i then found
      else rfind_from c (i + 1) (if Ascii.eqb a c then i else found) s' e
  end.

Definition rfind (c : ascii) (s : str) (e : Z) : Z := rfind_from c 0 (-1) s e.

(** [s.strip() == ''] *)
Definition blank (s : str) : bool := forallb isspace s.

(** [s.split()]: the maximal runs of characters that are not whitespace;
    [word] is the run being read, last character first. *)
Definition flush (word : str) (l : list str) : list str :=
  match word with
  | [] => l
  | _ => rev word :: l
  end.

Fixpoint words_acc (word : str) (s : str) : list str :=
  match s with
  | [] => flush word []
  | c :: s' =>
      if isspace c then flush word (words_acc [] s')
      else words_acc (c :: word) s'
  end.

Definition words (s : str) : list str := words_acc [] s.

End PyStr.

(** ** [textwrap.wrap]

    [textwrap.wrap(text, width, break_long_words=...)] builds a
    [TextWrapper] whose other options keep their defaults:
    [expand_tabs], [replace_whitespace], [drop_whitespace] and
    [break_on_hyphens] are on, [fix_sentence_endings] is off, [tabsize] is
    8, both indents are empty and [max_lines] is [None]. *)

Module Textwrap.
Import PyStr.

(** [_whitespace = '\t\n\x0b\x0c\r '] *)
Definition is_whitespace (c : ascii) : bool :=
  let n := code c in ((9 <=? n) && (n <=? 13) || (n =? 32))%N.

(** [_munge_whitespace] *)
Definition translate_whitespace (s : str) : str :=
  map (fun c => if is_whitespace c then " "%char else c) s.

Definition munge_whitespace (text : str) : str :=
  translate_whitespace (expandtabs 8 text).

(** The character classes of [wordsep_re], for a [str] pattern. *)

(** [\d] *)
Definition is_digit (c : ascii) : bool :=
  let n := code c in ((48 <=? n) && (n <=? 57))%N.

(** [\w]: alphanumeric or underscore *)
Definition is_word (c : ascii) : bool :=
  let n := code c in
  ((48 <=? n) && (n <=? 57) || (65 <=? n) && (n <=? 90) || (n =? 95)
   || (97 <=? n) && (n <=? 122)
   || (n =? 170) || (n =? 178) || (n =? 179) || (n =? 181)
   || (n =? 185) || (n =? 186) || (188 <=? n) && (n <=? 190)
   || (192 <=? n) && (n <=? 214) || (216 <=? n) && (n <=? 246)
   || (248 <=? n))%N.

(** [letter = [^\d\W]] *)
Definition is_letter (c : ascii) : bool := is_word c && negb (is_digit c).

(** [word_punct]: a [\w] character or one of ! & . , ? and the two
    quotation marks *)
Definition is_word_punct (c : ascii) : bool :=
  is_word c ||
  existsb (Ascii.eqb c) ["!"; "034"; "'"; "&"; "."; ","; "?"]%char.

Definition is_hyphen (c : ascii) : bool := Ascii.eqb c "-".

(** [-{2,}\w] matches at the start of [s]. *)
Fixpoint hyphens_then_word (n : nat) (s : str) : bool :=
  match s with
  | [] => false
  | c :: s' =>
      if is_hyphen c then hyphens_then_word (S n) s'
      else (2 <=? n)%nat && is_word c
  end.

(** [(?<=wp)] looking back over [before] (the text already read, last
    character first) and [(?=-{2,}\w)] looking ahead over [rest]. *)
Definition emdash_at (before rest : str) : bool :=
  match before with
  | p :: _ => is_word_punct p && hyphens_then_word 0 rest
  | [] => false
  end.

(** The two lookbehinds of the hyphenated-word branch, evaluated just
    after the hyphen: [before] is the text in front of that hyphen. *)
Definition hyphen_lookbehind (before : str) : bool :=
  match before with
  | l1 :: l2 :: tl =>
      is_letter l1 && is_letter l2
      || (match tl with
          | l3 :: _ => is_letter l1 && is_hyphen l2 && is_letter l3
          | [] => false
          end)
  | _ => false
  end.

(** [(?= letter -? letter)] over the text behind the hyphen. *)
Definition hyphen_lookahead (after : str) : bool :=
  match after with
  | c1 :: c2 :: tl =>
      is_letter c1 &&
      ((is_hyphen c2 && match tl with c3 :: _ => is_letter c3 | [] => false end)
       || is_letter c2)
  | _ => false
  end.

(** What the chunk being read is. *)
Inductive kind :=
| Idle      (* nothing read yet *)
| InSpace   (* a run of whitespace *)
| InDash    (* an em-dash between words *)
| InWord    (* a word, still open *)
| Closed.   (* a word closed by a hyphen *)

(** The kind of the chunk that starts at the head of [rest]. *)
Definition start_kind (before rest : str) : kind :=
  match rest with
  | c :: _ =>
      if is_whitespace c then InSpace
      else if emdash_at before rest then InDash
      else InWord
  | [] => Idle
  end.

(** Does the head [c] of [rest] extend the chunk of kind [k]?  If so,
    the kind afterwards. *)
Definition extend (k : kind) (before : str) (c : ascii) (r : str)
  : option kind :=
  match k with
  | Idle | Closed => None
  | InSpace => if is_whitespace c then Some InSpace else None
  | InDash => if is_hyphen c then Some InDash else None
  | InWord =>
      if is_hyphen c && hyphen_lookbehind before && hyphen_lookahead r
      then Some Closed
      else if is_whitespace c then None
      else if emdash_at before (c :: r) then None
      else Some InWord
  end.

Definition emit (cur : str) (l : list str) : list str :=
  match cur with
  | [] => l
  | _ => rev cur :: l
  end.

(** [wordsep_re.split(text)] without its empty strings. The pattern
    matches wherever text is left (whitespace matches its first branch, and
    anything else the third at the latest), so the chunks are the successive
    matches. [cur] is the chunk being read, last character first. *)
Fixpoint wordsep_scan (before cur : str) (k : kind) (rest : str)
  : list str :=
  match rest with
  | [] => emit cur []
  | c :: r =>
      match extend k before c r with
      | Some k' => wordsep_scan (c :: before) (c :: cur) k' r
      | None =>
          emit cur
            (wordsep_scan (c :: before) [c] (start_kind before rest) r)
      end
  end.

(** [_split] with [break_on_hyphens] on *)
Definition split (text : str) : list str := wordsep_scan [] [] Idle text.

(** [_split_chunks] *)
Definition split_chunks (text : str) : list str :=
  split (munge_whitespace text).

(** [_handle_long_word]; returns the chunks left and the current line. *)
Definition handle_long_word (break_long_words : bool)
    (chunks cur_line : list str) (cur_len width : Z)
  : list str * list str :=
  let space_left := if width <? 1 then 1 else width - cur_len in
  match chunks with
  | [] => (chunks, cur_line)
  | chunk :: rest =>
      if break_long_words then
        let end_ :=
          if space_left <? len chunk then
            let hyphen := rfind "-" chunk space_left in
            if (0 <? hyphen)
               && existsb (fun c => negb (is_hyphen c)) (slice_to chunk hyphen)
            then hyphen + 1
            else space_left
          else space_left in
        (slice_from chunk end_ :: rest, cur_line ++ [slice_to chunk end_])
      else
        match cur_line with
        | [] => (rest, [chunk])
        | _ => (chunks, cur_line)
        end
  end.

(** The inner [while chunks] loop: move chunks to the line while they
    fit. *)
Fixpoint fill_line (width : Z) (chunks cur_line : list str) (cur_len : Z)
  : list str * list str * Z :=
  match chunks with
  | [] => (chunks, cur_line, cur_len)
  | c :: rest =>
      let l := len c in
      if cur_len + l <=? width
      then fill_line width rest (cur_line ++ [c]) (cur_len + l)
      else (chunks, cur_line, cur_len)
  end.

(** Drop the last chunk of the line when it is all whitespace. *)
Definition drop_trailing (cur_line : list str) : list str :=
  match last cur_line with
  | Some c => if blank c then removelast cur_line else cur_line
  | None => cur_line
  end.

(** One pass of the outer [while chunks] loop, entered with [chunks]
    non-empty. *)
Definition wrap_pass (width : Z) (break_long_words : bool)
    (chunks lines : list str) : list str * list str :=
  let chunks1 :=
    match chunks, lines with
    | c :: rest, _ :: _ => if blank c then rest else chunks
    | _, _ => chunks
    end in
  let '(chunks2, cur_line, cur_len) := fill_line width chunks1 [] 0 in
  let '(chunks3, cur_line2) :=
    match chunks2 with
    | c :: _ =>
        if width <? len c
        then handle_long_word break_long_words chunks2 cur_line cur_len width
        else (chunks2, cur_line)
    | [] => (chunks2, cur_line)
    end in
  let cur_line3 := drop_trailing cur_line2 in
  let lines' :=
    match cur_line3 with
    | [] => lines
    | _ => lines ++ [concat cur_line3]
    end in
  (chunks3, lines').

(** The outer loop, run for at most [fuel] passes. *)
Fixpoint wrap_loop (fuel : nat) (width : Z) (break_long_words : bool)
    (chunks lines : list str) : option (list str) :=
  match chunks with
  | [] => Some lines
  | _ :: _ =>
      match fuel with
      | O => None
      | S fuel' =>
          let '(chunks', lines') :=
            wrap_pass width break_long_words chunks lines in
          wrap_loop fuel' width break_long_words chunks' lines'
      end
  end.

(** Every pass removes a chunk or at least one character of one. *)
Definition weight (chunks : list str) : nat :=
  fold_right (fun c n => S (length c + n)) 0%nat chunks.

(** [repr(n)] of an [int]: its decimal digits, with a minus sign in
    front of a negative number. *)
Definition repr_int (n : Z) : str :=
  lit (NilZero.string_of_int (Z.to_int n)).

(** [ValueError("invalid width %r (must be > 0)" % self.width)] *)
Definition invalid_width (width : Z) : exn :=
  Exn ValueError
    (lit "invalid width " ++ repr_int width ++ lit " (must be > 0)").

(** [_wrap_chunks] *)
Definition wrap_chunks (chunks : list str) (width : Z)
    (break_long_words : bool) : result (list str) :=
  if width <=? 0 then Raise (invalid_width width)
  else
    match wrap_loop (weight chunks) width break_long_words chunks [] with
    | Some lines => Ret lines
    | None => Diverge
    end.

(** [textwrap.wrap(text, width, break_long_words=...)] *)
Definition wrap (text : str) (width : Z) (break_long_words : bool)
  : result (list str) :=
  wrap_chunks (split_chunks text) width break_long_words.

End Textwrap.

(** ** The outside world *)

(** What a call to an outside service comes back with. *)
Inductive outcome (A : Type) :=
  | Returns (a : A)
  | Fails (e : exn).
Arguments Returns {A} a.
Arguments Fails {A} e.

Definition of_outcome {A} (o : outcome A) : result A :=
  match o with
  | Returns a => Ret a
  | Fails e => Raise e
  end.

(** The calls made so far, oldest first: the prompts handed to
    [model.generate_content], and the messages shown with [st.info]. *)
Record world := World { gen_log : list str; info_log : list str }.

(** A computation that reads and extends the [world] and may raise. *)
Definition M (A : Type) : Type := world -> result A * world.

Definition ret {A} (a : A) : M A := fun w => (Ret a, w).

Definition bind {A B} (m : M A) (k : A -> M B) : M B :=
  fun w =>
    match m w with
    | (Ret a, w') => k a w'
    | (Raise e, w') => (Raise e, w')
    | (Diverge, w') => (Diverge, w')
    end.

Definition lift {A} (r : result A) : M A := fun w => (r, w).

(** [try: body  except Exception as e: handler(e)]; a bare [except:] is the
    same thing here, every [exn_class] being an [Exception]. *)
Definition try_except {A} (body : M A) (handler : exn -> M A) : M A :=
  fun w =>
    match body w with
    | (Raise e, w') => handler e w'
    | r => r
    end.

Notation "'do' x <- m ; k" := (bind m (fun x => k))
  (at level 10, x name, m at level 100, k at level 200).

(** [st.info(msg)] *)
Definition st_info (msg : str) : M unit :=
  fun w => (Ret tt, World (gen_log w) (info_log w ++ [msg])).

(** The same for plain results. *)
Definition rbind {A B} (r : result A) (k : A -> result B) : result B :=
  match r with
  | Ret a => k a
  | Raise e => Raise e
  | Diverge => Diverge
  end.

Fixpoint rmap {A B} (f : A -> result B) (l : list A) : result (list B) :=
  match l with
  | [] => Ret []
  | a :: l' => rbind (f a) (fun b => rbind (rmap f l') (fun bs => Ret (b :: bs)))
  end.

Definition nl : ascii := "010".

(** ** The PDF canvas *)

Inductive canvas_op :=
  | SetFont (name : str) (size : Z)
  | DrawString (x y : Z) (text : str)
  | ShowPage
  | Save.

(** [canvas.Canvas(path, pagesize=...)] and the calls made on it, oldest
    first. *)
Record canvas := Canvas {
  cv_path : str;
  cv_pagesize : Z * Z;
  cv_ops : list canvas_op
  }.

Definition cv_call (c : canvas) (op : canvas_op) : canvas :=
  Canvas (cv_path c) (cv_pagesize c) (cv_ops c ++ [op]).

(** [reportlab.lib.pagesizes.letter], in points. reportlab holds the two
    numbers as floats (612.0, 792.0); [save_pdf] only adds and subtracts
    small whole numbers from them, which is exact. *)
Definition letter : Z * Z := (612, 792).

(** [os.path.join(a, b)] of [posixpath] *)
Definition os_path_join (a b : str) : str :=
  if PyStr.startswith (lit "/") b then b
  else match last a with
       | None => b
       | Some c => if Ascii.eqb c "/" then a ++ b else a ++ lit "/" ++ b
       end.

(** ** [main.py] *)

Section Main.
Import PyStr.

(** [model.generate_content(prompt)] followed by [.text]: what comes back
    for [prompt] when the prompts in the first argument were sent before. *)
Variable model : list str -> str -> outcome str.

(** [YouTubeTranscriptApi.get_transcript(video_id)]: a list of caption
    entries, each a dict. *)
Variable YouTubeTranscriptApi_get_transcript :
  str -> outcome (list (gmap string str)).

(** [urlparse(url).query] and [urllib.parse.unquote] *)
Variable urlparse_query : str -> result str.
Variable unquote : str -> str.

(** [tempfile.gettempdir()] *)
Variable gettempdir : str.

Definition index_error : exn := Exn OtherException (lit "list index out of range").

(** *** [urllib.parse.parse_qs], with its defaults: blank values are not
    kept, parsing is not strict, the separator is [&]. *)

Fixpoint parse_qsl_fields (query_args : list str) : list (str * str) :=
  match query_args with
  | [] => []
  | name_value :: rest =>
      match name_value with
      | [] => parse_qsl_fields rest
      | _ =>
          match split1 "=" name_value with
          | [n; v] =>
              if 0 <? len v then
                (unquote (replace "+" " " n), unquote (replace "+" " " v))
                  :: parse_qsl_fields rest
              else parse_qsl_fields rest
          | _ => parse_qsl_fields rest
          end
      end
  end.

Definition parse_qsl (qs : str) : list (str * str) :=
  match qs with
  | [] => []
  | _ => parse_qsl_fields (split "&" qs)
  end.

Definition parse_qs (qs : str) : gmap str (list str) :=
  fold_left
    (fun parsed_result '(name, value) =>
       match parsed_result !! name with
       | Some values => <[name := values ++ [value]]> parsed_result
       | None => <[name := [value]]> parsed_result
       end)
    (parse_qsl qs) ∅.

(** *** [extract_video_id] *)

Definition extract_video_id (url : str) : result (option str) :=
  if contains (lit "youtu.be") url then
    match last_item (split "/" url) with
    | Some id => Ret (Some id)
    | None => Raise index_error
    end
  else if contains (lit "youtube.com") url then
    rbind (urlparse_query url) (fun query =>
      match parse_qs query !! lit "v" with
      | Some (v :: _) => Ret (Some v)
      | Some [] => Raise index_error
      | None => Ret None
      end)
  else Ret None.

(** The caller's test [if not video_id]. *)
Definition not_video_id (video_id : option str) : bool :=
  match video_id with
  | None | Some [] => true
  | Some (_ :: _) => false
  end.

(** *** [get_transcript] *)

Definition key_error (k : string) : exn := Exn KeyError (lit k).

(** [entry['text']] *)
Definition entry_text (entry : gmap string str) : result str :=
  match entry !! "text"%string with
  | Some t => Ret t
  | None => Raise (key_error "'text'")
  end.

Definition whisper_notice : str :=
  lit "Transcript not available from YouTube. Switching to Whisper...".

Definition get_transcript (video_id : str) : M (option str) :=
  try_except
    (do transcript <-
          lift (of_outcome (YouTubeTranscriptApi_get_transcript video_id));
     do texts <- lift (rmap entry_text transcript);
     ret (Some (join [nl] texts)))
    (fun e =>
       match exn_cls e with
       | TranscriptsDisabled | NoTranscriptFound => ret None
       | _ => do shown <- st_info whisper_notice; ret None
       end).

(** *** [summarize_text] *)

(** [model.generate_content(prompt)] and [response.text] *)
Definition generate_content_text (prompt : str) : M str :=
  fun w =>
    (of_outcome (model (gen_log w) prompt),
     World (gen_log w ++ [prompt]) (info_log w)).

Definition direct_prompt (text : str) : str :=
  lit "
        Summarize the following transcript into a single well-structured report for the entire video:

        - Combine all details into ONE report.
        - Do NOT include timestamps.
        - Use sections: Introduction, Main Points (with subheadings), and Key Takeaways.
        - Make it concise, clear, and professional for note-taking or study purposes.

        Transcript:
        " ++ text ++ lit "
        ".

Definition chunk_prompt (chunk : str) : str :=
  lit "
            Summarize this part of the transcript into short, clear bullet points (max 5):
            " ++ chunk ++ lit "
            ".

Definition final_prompt (combined_notes : str) : str :=
  lit "
        Combine the following notes into a single well-structured report:
        - Sections: Introduction, Main Points, Key Takeaways
        - Remove repetition
        - Do NOT include timestamps

        Notes:
        " ++ combined_notes ++ lit "
        ".

Definition report_header : str := lit "### Video Summary Report" ++ [nl; nl].

(** The cross mark U+274C in front of the two messages is written as the
    three bytes of its UTF-8 form. *)
Definition generating_error : str := lit "❌ Error generating summary: ".
Definition combining_error : str := lit "❌ Error combining summaries: ".
Definition chunk_placeholder : str := lit "Error summarizing this chunk.".

(** One turn of [for i, chunk in enumerate(chunks)]. *)
Definition summarize_chunk (chunk_summaries : list str) (chunk : str)
  : M (list str) :=
  try_except
    (do response_text <- generate_content_text (chunk_prompt chunk);
     ret (chunk_summaries ++ [strip response_text]))
    (fun _ => ret (chunk_summaries ++ [chunk_placeholder])).

Fixpoint summarize_chunks (chunks : list str) (chunk_summaries : list str)
  : M (list str) :=
  match chunks with
  | [] => ret chunk_summaries
  | chunk :: rest =>
      do chunk_summaries' <- summarize_chunk chunk_summaries chunk;
      summarize_chunks rest chunk_summaries'
  end.

Definition summarize_text (text : str) (chunk_size : Z) : M str :=
  if len text <=? chunk_size then
    try_except
      (do response_text <- generate_content_text (direct_prompt text);
       ret (report_header ++ strip response_text))
      (fun e => ret (generating_error ++ exn_str e))
  else
    do chunks <- lift (Textwrap.wrap text chunk_size false);
    do chunk_summaries <- summarize_chunks chunks [];
    let combined_notes := join [nl] chunk_summaries in
    try_except
      (do response_text <- generate_content_text (final_prompt combined_notes);
       ret (report_header ++ strip response_text))
      (fun e => ret (combining_error ++ exn_str e)).

(** [summarize_text(text)] with the default [chunk_size=2000] *)
Definition summarize_text_default (text : str) : M str :=
  summarize_text text 2000.

(** *** [save_pdf] *)

(** [for wline in wrapped_lines]; [y] is the vertical cursor. *)
Fixpoint draw_wrapped (height : Z) (wrapped_lines : list str)
    (c : canvas) (y : Z) : canvas * Z :=
  match wrapped_lines with
  | [] => (c, y)
  | wline :: rest =>
      let c := cv_call c (DrawString 50 y wline) in
      let y := y - 15 in
      if y <? 50
      then draw_wrapped height rest (cv_call c ShowPage) (height - 50)
      else draw_wrapped height rest c y
  end.

(** [for line in summary_text.split('\n')] *)
Fixpoint draw_lines (height : Z) (lines : list str) (c : canvas) (y : Z)
  : result (canvas * Z) :=
  match lines with
  | [] => Ret (c, y)
  | line :: rest =>
      rbind (Textwrap.wrap line 100 true) (fun wrapped_lines =>
        let '(c', y') := draw_wrapped height wrapped_lines c y in
        draw_lines height rest c' y')
  end.

(** Returns [pdf_path] and, with it, the canvas as it was saved. *)
Definition save_pdf (title summary_text filename : str)
  : result (str * canvas) :=
  let pdf_path := os_path_join gettempdir filename in
  let c := Canvas pdf_path letter [] in
  let '(width, height) := letter in
  let c := cv_call c (SetFont (lit "Helvetica-Bold") 14) in
  let c := cv_call c (DrawString 50 (height - 50) title) in
  let c := cv_call c (SetFont (lit "Helvetica") 10) in
  let y := height - 70 in
  rbind (draw_lines height (split nl summary_text) c y) (fun '(c, _) =>
    let c := cv_call c Save in
    Ret (pdf_path, c)).

End Main.

(** ** The rest of [main.py]: start-up, the Whisper path and the page *)

(** A decoded picture, as [Image.open] hands it over. *)
Definition image := str.

(** What the script does to the streamlit page and to the Gemini client. *)
Inductive event :=
  | Genai_configure (api_key : str)
  | St_set_page_config (page_title layout : str)
  | St_title (body : str)
  | St_text_input (label : str)
  | St_button (label : str)
  | St_error (body : str)
  | St_warning (body : str)
  | St_info (body : str)
  | St_spinner (text : str)
  | St_subheader (body : str)
  | St_markdown (body : str)
  | St_image (img : image) (caption width : str)
  | St_download_button (label : str) (data : canvas) (file_name mime : str).

(** A run of the script: the [world] of the helper functions, which
    keeps the prompts and the [st.info] messages, and, oldest first, the
    events of the page, the [st.info] boxes among them. *)
Record session := Session { outside : world; events : list event }.

Definition App (A : Type) : Type := session -> result A * session.

Definition app_ret {A} (a : A) : App A := fun s => (Ret a, s).

Definition app_bind {A B} (m : App A) (k : A -> App B) : App B :=
  fun s =>
    match m s with
    | (Ret a, s') => k a s'
    | (Raise e, s') => (Raise e, s')
    | (Diverge, s') => (Diverge, s')
    end.

(** [try: body  except: handler] *)
Definition app_try {A} (body : App A) (handler : exn -> App A) : App A :=
  fun s =>
    match body s with
    | (Raise e, s') => handler e s'
    | r => r
    end.

Notation "'act' x <- m ; k" := (app_bind m (fun x => k))
  (at level 10, x name, m at level 100, k at level 200).

Definition tell (e : event) : App unit :=
  fun s => (Ret tt, Session (outside s) (events s ++ [e])).

(** A call that leaves the page alone. *)
Definition call {A} (r : result A) : App A := fun s => (r, s).

(** The [st.info] boxes shown between the worlds [w] and [w']. *)
Definition notices (w w' : world) : list event :=
  map St_info (drop (length (info_log w)) (info_log w')).

(** A helper function of the first part, run on the world of the session;
    what it shows with [st.info] appears on the page. *)
Definition in_world {A} (m : M A) : App A :=
  fun s =>
    let '(r, w) := m (outside s) in
    (r, Session w (events s ++ notices (outside s) w)).

(** The truth value of an optional string: [None] and [''] are false. *)
Definition truthy (v : option str) : bool :=
  match v with
  | Some (_ :: _) => true
  | _ => false
  end.

(** The options handed to [yt_dlp.YoutubeDL]. *)
Record postprocessor := Postprocessor {
  key : str;
  preferredcodec : str;
  preferredquality : str
  }.

Record ydl_options := YdlOptions {
  format : str;
  outtmpl : str;
  postprocessors : list postprocessor;
  quiet : bool;
  noplaylist : bool
  }.

(** The dict [metadata]. Its keys are fixed; [thumbnail] may hold [None],
    and [audio_path] is there on the Whisper path only. *)
Record metadata := Metadata {
  title : str;
  channel : str;
  thumbnail : option str;
  description : str;
  audio_path : option str
  }.

Section App.
Import PyStr.

Variable model : list str -> str -> outcome str.
Variable YouTubeTranscriptApi_get_transcript :
  str -> outcome (list (gmap string str)).
Variable urlparse_query : str -> result str.
Variable unquote : str -> str.
Variable gettempdir : str.

(** [os.getenv(name)] and [st.secrets.get(name, None)]; the latter raises
    when there is no secrets file. A secret is taken to be a string. *)
Variable os_getenv : str -> option str.
Variable st_secrets_get : str -> outcome (option str).

(** [tempfile.mkdtemp()] *)
Variable tempfile_mkdtemp : outcome str.

(** [yt_dlp.YoutubeDL(ydl_opts).extract_info(video_url, download=True)]:
    the info dict of the video, as far as it is read below. Its fields are
    taken to be strings where yt-dlp gives them: an info dict that holds
    [None] under one of these keys is not among the dicts of this type, and
    nothing below speaks of it. *)
Variable YoutubeDL_extract_info :
  ydl_options -> str -> outcome (gmap string str).

(** [whisper_model.transcribe(audio_path)], read to the end: the texts of
    the segments. *)
Variable whisper_model_transcribe : str -> outcome (list str).

(** [requests.get(url).content] and [Image.open(BytesIO(content))] *)
Variable requests_get : option str -> outcome str.
Variable Image_open : str -> outcome image.

(** [c.save()] writes the document to the path of the canvas. It raises
    when the file cannot be opened there: [FileNotFoundError] when the
    path names a directory that does not exist. *)
Variable Canvas_save : canvas -> outcome unit.

(** *** Configuration *)

(** The cross mark is written as the bytes of its UTF-8 form, as in
    [generating_error]. *)
Definition api_key_missing : str :=
  lit "❌ Gemini API key not found. Please set it in .streamlit/secrets.toml or as an environment variable.".

(** Lines 19 to 24. [None] stands for [st.stop()], which ends the run of
    the script; otherwise the key goes to [genai.configure]. In [x or y],
    [y] is evaluated only when [x] is false. *)
Definition load_api_key : App (option str) :=
  act GEMINI_API_KEY <-
    (let from_env := os_getenv (lit "GEMINI_API_KEY") in
     if truthy from_env then app_ret from_env
     else call (of_outcome (st_secrets_get (lit "GEMINI_API_KEY"))));
  if negb (truthy GEMINI_API_KEY) then
    act shown <- tell (St_error api_key_missing);
    app_ret None
  else
    act configured <- tell (Genai_configure (default [] GEMINI_API_KEY));
    app_ret GEMINI_API_KEY.

(** *** [download_audio_and_metadata] *)

Definition ydl_opts (temp_dir : str) : ydl_options :=
  {| format := lit "bestaudio/best";
     outtmpl := os_path_join temp_dir (lit "%(id)s.%(ext)s");
     postprocessors :=
       [ {| key := lit "FFmpegExtractAudio";
            preferredcodec := lit "mp3";
            preferredquality := lit "192" |} ];
     quiet := true;
     noplaylist := true |}.

(** [info[k]] *)
Definition info_item (info : gmap string str) (k : string) : result str :=
  match info !! k with
  | Some v => Ret v
  | None => Raise (key_error ("'" ++ k ++ "'"))
  end.

Definition download_audio_and_metadata (video_url : str) : result metadata :=
  rbind (of_outcome tempfile_mkdtemp) (fun temp_dir =>
  rbind (of_outcome (YoutubeDL_extract_info (ydl_opts temp_dir) video_url))
    (fun info =>
  rbind (info_item info "id") (fun id =>
  let audio_path := os_path_join temp_dir (id ++ lit ".mp3") in
  Ret {| title := default (lit "Untitled Video") (info !! "title"%string);
         channel := default (lit "Unknown") (info !! "uploader"%string);
         thumbnail := info !! "thumbnail"%string;
         description :=
           slice_to (default (lit "") (info !! "description"%string)) 300;
         audio_path := Some audio_path |}))).

(** *** [transcribe_audio] *)

Definition transcribe_audio (audio_path : str) : result str :=
  rbind (of_outcome (whisper_model_transcribe audio_path)) (fun segments =>
  Ret (join (lit " ") segments)).

(** *** [save_pdf], with the file it writes

    [save_pdf] above gives the calls made on the canvas, [c.save()]
    included; here that last call writes the file, or raises. *)
Definition save_pdf_to_disk (title summary_text filename : str)
  : result (str * canvas) :=
  rbind (save_pdf gettempdir title summary_text filename) (fun saved =>
  rbind (of_outcome (Canvas_save saved.2)) (fun written => Ret saved)).

(** *** [display_thumbnail] *)

Definition display_thumbnail (thumbnail_url : option str) : App unit :=
  app_try
    (act content <- call (of_outcome (requests_get thumbnail_url));
     act img <- call (of_outcome (Image_open content));
     tell (St_image img (lit "Video Thumbnail") (lit "content")))
    (fun _ => tell (St_warning (lit "Could not load thumbnail."))).

(** *** The page *)

(** [metadata], as it is made when YouTube has a transcript. *)
Definition youtube_metadata (video_id : str) : metadata :=
  {| title := lit "YouTube Video " ++ video_id;
     channel := lit "Unknown";
     thumbnail :=
       Some (lit "https://img.youtube.com/vi/" ++ video_id
               ++ lit "/hqdefault.jpg");
     description := lit "";
     audio_path := None |}.

(** [metadata['audio_path']] *)
Definition metadata_audio_path (m : metadata) : result str :=
  match audio_path m with
  | Some p => Ret p
  | None => Raise (key_error "'audio_path'")
  end.

(** Lines 184 to 197: the transcript and the metadata of the video, from
    YouTube when it has a transcript that is not empty, and else from the
    audio track. *)
Definition video_source (video_url video_id : str) : App (metadata * str) :=
  act spinning <- tell (St_spinner (lit "Fetching transcript or audio..."));
  act transcript <-
    in_world (get_transcript YouTubeTranscriptApi_get_transcript video_id);
  if truthy transcript then
    app_ret (youtube_metadata video_id, default [] transcript)
  else
    act warned <- tell (St_warning (lit "No transcript found. Using Whisper..."));
    act metadata <- call (download_audio_and_metadata video_url);
    act audio_path <- call (metadata_audio_path metadata);
    act transcript <- call (transcribe_audio audio_path);
    app_ret (metadata, transcript).

(** Lines 199 to 213: the video info, the summary and the download
    button. The pictographs in front of the two headings and of the button
    label are written as the bytes of their UTF-8 form. The file that
    [open(pdf_path, "rb")] reads is the document [save_pdf] has just
    saved. *)
Definition video_report (video_id : str) (metadata : metadata)
    (transcript : str) : App unit :=
  act s1 <- tell (St_subheader (lit "📌 Video Info"));
  act s2 <- tell (St_markdown (lit "**Title:** " ++ title metadata));
  act s3 <- tell (St_markdown (lit "**Channel:** " ++ channel metadata));
  act s4 <- tell (St_markdown (lit "**Description:** " ++ description metadata));
  act s5 <- display_thumbnail (thumbnail metadata);
  act s6 <- tell (St_spinner (lit "Summarizing content..."));
  act summary <- in_world (summarize_text_default model transcript);
  act s7 <- tell (St_subheader (lit "📝 AI Summary"));
  act s8 <- tell (St_markdown summary);
  act saved <-
    call (save_pdf_to_disk (title metadata) summary
            (video_id ++ lit "_summary.pdf"));
  tell (St_download_button (lit "📄 Download PDF Notes") saved.2
          (title metadata ++ lit "_summary.pdf") (lit "application/pdf")).

(** Lines 184 to 213: what the page does with a video identifier that is
    neither [None] nor empty. *)
Definition video_page (video_url video_id : str) : App unit :=
  act found <- video_source video_url video_id;
  video_report video_id found.1 found.2.

(** Lines 177 to 213: the body of [if st.button("Summarize Video")]. *)
Definition summarize_video (video_url : str) : App unit :=
  match video_url with
  | [] => tell (St_error (lit "Please enter a valid YouTube video URL."))
  | _ =>
      act video_id <- call (extract_video_id urlparse_query unquote video_url);
      if not_video_id video_id then
        tell (St_error (lit "Could not extract video ID."))
      else video_page video_url (default [] video_id)
  end.

(** The script from top to bottom, for the text typed into the input box
    and the state of the button. The two model objects (lines 25 and 28)
    are made before the page; what they answer is [model] and
    [whisper_model_transcribe]. *)
Definition script (video_url : str) (pressed : bool) : App unit :=
  act api_key <- load_api_key;
  match api_key with
  | None => app_ret tt
  | Some _ =>
      act e1 <- tell (St_set_page_config (lit "YouTube Summarizer") (lit "wide"));
      act e2 <- tell (St_title (lit "📺 YouTube Video Summarizer (Whisper + Gemini AI)"));
      act e3 <- tell (St_text_input (lit "Paste a YouTube video URL:"));
      act e4 <- tell (St_button (lit "Summarize Video"));
      if pressed then summarize_video video_url else app_ret tt
  end.

End App.

(** ** Sample services

    Concrete stand-ins for the outside services, used where a statement is
    run on an example. *)

Module Sample.

Definition quota_error : exn := Exn OtherException (lit "429 quota exceeded").

(** A model that answers every prompt with the same text. *)
Definition steady_model (history : list str) (prompt : str) : outcome str :=
  Returns (lit " - a point
").

(** A model whose every call fails. *)
Definition failing_model (history : list str) (prompt : str) : outcome str :=
  Fails quota_error.

(** A model whose second call fails and whose other calls succeed. *)
Definition flaky_model (history : list str) (prompt : str) : outcome str :=
  if (length history =? 1)%nat then Fails quota_error
  else Returns (lit " ok ").

Definition fresh : world := World [] [].

(** A plain reading of [urlparse(url).query]: what stands between the
    first [?] and the [#] that follows, with none of the checks of
    [urlparse]. *)
Definition query_of (url : str) : result str :=
  match PyStr.split1 "#" url with
  | before_fragment :: _ =>
      match PyStr.split1 "?" before_fragment with
      | [_; query] => Ret query
      | _ => Ret []
      end
  | [] => Ret []
  end.

(** [unquote] on strings without a percent sign. *)
Definition unquote_plain (s : str) : str := s.

Definition tmp : str := lit "/tmp".

(** A report of 46 short lines: one more than the first page takes. *)
Definition long_report : str := PyStr.join [nl] (repeat (lit "line") 46).

End Sample.

(** * The vocabulary of the statements *)

Module Spec.
Import PyStr Textwrap.

(** The characters that are not whitespace, in order. *)
Definition ink (s : str) : str := List.filter (fun c => negb (isspace c)) s.

Definition all_blank (l : list str) : Prop := Forall (fun c => blank c = true) l.

Definition all_whitespace (s : str) : Prop :=
  Forall (fun c => is_whitespace c = true) s.

(** [kept] is [pieces] with some all-whitespace pieces taken out. *)
Inductive thinned : list str -> list str -> Prop :=
| thinned_nil : thinned [] []
| thinned_keep p kept pieces :
    thinned kept pieces -> thinned (p :: kept) (p :: pieces)
| thinned_drop p kept pieces :
    blank p = true -> thinned kept pieces -> thinned kept (p :: pieces).

(** A line of [wrap] with [break_long_words] off: a group of whole
    pieces that fits the width, or one piece that is wider. *)
Definition line_group (width : Z) (g : list str) : Prop :=
  g <> [] /\ (len (concat g) <= width \/ exists p, g = [p] /\ width < len p).

(** Where [_handle_long_word] cuts a long word when [break_long_words]
    is on. *)
Definition cut_point (chunk : str) (space_left : Z) : Z :=
  if space_left <? len chunk then
    let hyphen := rfind "-" chunk space_left in
    if (0 <? hyphen)
       && existsb (fun c => negb (is_hyphen c)) (slice_to chunk hyphen)
    then hyphen + 1
    else space_left
  else space_left.

(** What a generation call leaves in the report. *)
Definition report_of (error_prefix : str) (o : outcome str) : str :=
  match o with
  | Returns response_text => report_header ++ strip response_text
  | Fails e => error_prefix ++ exn_str e
  end.

(** The entry a chunk adds to [chunk_summaries] when the prompts in
    [history] went out before. *)
Definition chunk_entry (model : list str -> str -> outcome str)
    (history : list str) (chunk : str) : str :=
  match model history (chunk_prompt chunk) with
  | Returns response_text => strip response_text
  | Fails _ => chunk_placeholder
  end.

Fixpoint chunk_entries (model : list str -> str -> outcome str)
    (history : list str) (chunks : list str) : list str :=
  match chunks with
  | [] => []
  | chunk :: rest =>
      chunk_entry model history chunk
        :: chunk_entries model (history ++ [chunk_prompt chunk]) rest
  end.

(** The cursor in front of rendered line [i], lines counted from 0: it
    starts 70 below the top, goes down 15 a line, and is put back to 50
    below the top once it has passed 50. *)
Fixpoint cursor_at (height : Z) (i : nat) : Z :=
  match i with
  | O => height - 70
  | S j =>
      let y := cursor_at height j - 15 in
      if y <? 50 then height - 50 else y
  end.

(** Rendered line [i] is the last of its page. *)
Definition page_full (height : Z) (i : nat) : bool :=
  cursor_at height i - 15 <? 50.

(** The calls that render [lines], the first of which is line [i]. *)
Fixpoint render_from (height : Z) (i : nat) (lines : list str)
  : list canvas_op :=
  match lines with
  | [] => []
  | l :: rest =>
      DrawString 50 (cursor_at height i) l
        :: (if page_full height i then [ShowPage] else [])
        ++ render_from height (S i) rest
  end.

(** [groups] is a greedy layout of [pieces]: every line is a group of
    whole pieces that fits the width (or one piece that is wider), in
    front of and behind which only all-whitespace pieces are left out, and
    the piece that follows a line would not have fitted on it. *)
Inductive greedy (width : Z) : list str -> list (list str) -> Prop :=
| greedy_end d : all_blank d -> greedy width d []
| greedy_line d1 g d2 rest groups :
    all_blank d1 -> all_blank d2 -> line_group width g ->
    match rest with
    | [] => True
    | next :: _ =>
        width < len (concat (g ++ d2)) + len next
        \/ exists p, g = [p] /\ width < len p
    end ->
    greedy width rest groups ->
    greedy width (d1 ++ g ++ d2 ++ rest) (g :: groups).

(** [x] and [y] read the same to [str.split()], whatever stands around
    them. *)
Definition same_words (x y : str) : Prop :=
  forall word z, words_acc word (x ++ z) = words_acc word (y ++ z).

(** The pieces are by turns runs of whitespace ([true]) and runs without
    whitespace ([false]), the first of the kind [b]. *)
Fixpoint by_turns (b : bool) (pieces : list str) : Prop :=
  match pieces with
  | [] => True
  | p :: rest =>
      p <> [] /\ forallb (fun c => Bool.eqb (is_whitespace c) b) p = true
      /\ by_turns (negb b) rest
  end.

(** A piece that is not all whitespace is followed by one that is. *)
Fixpoint spaced (pieces : list str) : Prop :=
  match pieces with
  | p :: (q :: _) as rest =>
      (blank p = false -> blank q = true) /\ q <> [] /\ spaced rest
  | _ => True
  end.

(** The lines, each with a space behind it. *)
Definition spaced_out (lines : list str) : str :=
  concat (map (fun l => l ++ [" "%char]) lines).

Definition no_hyphen (s : str) : Prop := Forall (fun c => c <> "-"%char) s.

(** The kind of piece a state of the scan is reading: whitespace
    ([true]) or not ([false]). *)
Definition kind_flag (k : kind) : option bool :=
  match k with
  | InSpace => Some true
  | InWord => Some false
  | _ => None
  end.

Definition wrap100 (line : str) : result (list str) := wrap line 100 true.

(** The calls [save_pdf] makes before the first line of the report. *)
Definition first_calls (title : str) : list canvas_op :=
  [SetFont (lit "Helvetica-Bold") 14;
   DrawString 50 742 title;
   SetFont (lit "Helvetica") 10].

(** Where a text may be cut in two: between whitespace and something
    else, or next to a hyphen. [a] is the character in front of the cut and
    [b] the one behind it. *)
Definition cut_ok (a b : ascii) : Prop :=
  is_whitespace a <> is_whitespace b \/ a = "-"%char \/ b = "-"%char.

(** A piece is made of whitespace only, or holds none. *)
Definition of_one_kind (p : str) : Prop :=
  exists b, forallb (fun c => Bool.eqb (is_whitespace c) b) p = true.

(** Every cut between two neighbouring pieces is one that [cut_ok]
    allows: no piece ends inside a word, unless next to a hyphen. *)
Fixpoint word_cuts (pieces : list str) : Prop :=
  match pieces with
  | p :: (q :: _) as rest =>
      (exists a b, last p = Some a /\ head q = Some b /\ cut_ok a b)
      /\ word_cuts rest
  | _ => True
  end.

(** [text] is the [chunks] put side by side, with whitespace between one
    chunk and the next or else a hyphen at the cut, and with nothing but
    whitespace behind the last chunk. *)
Inductive chunked : str -> list str -> Prop :=
| chunked_nil d : blank d = true -> chunked d []
| chunked_last c d : blank d = true -> chunked (c ++ d) [c]
| chunked_cons c d c' rest text :
    blank d = true ->
    d <> [] \/ last c = Some "-"%char \/ head c' = Some "-"%char ->
    chunked text (c' :: rest) ->
    chunked (c ++ d ++ text) (c :: c' :: rest).

(** What the scan knows of the piece [cur] it is reading, for each kind. *)
Definition scan_state (k : kind) (cur : str) : Prop :=
  match k with
  | Idle => cur = []
  | InSpace =>
      cur <> [] /\ forallb (fun c => Bool.eqb (is_whitespace c) true) cur = true
  | InWord =>
      cur <> [] /\ forallb (fun c => Bool.eqb (is_whitespace c) false) cur = true
  | InDash | Closed =>
      (exists cur', cur = "-"%char :: cur') /\
      forallb (fun c => Bool.eqb (is_whitespace c) false) cur = true
  end.

(** The lines of [wrap] as groups of pieces, as [greedy] has them, with
    what is known of the pieces at the two ends of a line: the last piece
    of a line is not blank when nothing was dropped behind it, and the
    first piece of a line that is not the first line ([previous]) is not
    blank when nothing was dropped in front of it. *)
Inductive layout : bool -> list str -> list (list str) -> Prop :=
| layout_end previous d : all_blank d -> layout previous d []
| layout_line previous d1 g d2 rest groups :
    all_blank d1 -> all_blank d2 -> g <> [] ->
    (previous = true -> d1 = [] ->
     forall q, head g = Some q -> blank q = false) ->
    (d2 = [] -> forall p, last g = Some p -> blank p = false) ->
    layout true rest groups ->
    layout previous (d1 ++ g ++ d2 ++ rest) (g :: groups).

End Spec.

(** The vocabulary of the statements about the page and the Whisper
    path. *)

Module AppSpec.
Import PyStr Textwrap.

(** The values of the pairs named [k], in order. *)
Definition values_of (k : str) (pairs : list (str * str)) : list str :=
  map snd (List.filter (fun nv : str * str => bool_decide (nv.1 = k)) pairs).

(** The characters [textwrap] puts spaces for: tab, newline, vertical
    tab, form feed and carriage return. *)
Definition control_whitespace (c : ascii) : bool :=
  is_whitespace c && negb (Ascii.eqb c " ").

(** The texts of the [drawString] calls, in order. *)
Definition drawn (ops : list canvas_op) : list str :=
  flat_map (fun op => match op with
                      | DrawString _ _ text => [text]
                      | _ => []
                      end) ops.

(** The number of [showPage] calls. *)
Definition pages_closed (ops : list canvas_op) : nat :=
  length (List.filter (fun op => match op with
                                 | ShowPage => true
                                 | _ => false
                                 end) ops).

(** A run of [summarize_text] that returns: the report is a summary
    under the header or one of the two error messages, at least one prompt
    went out, and nothing was shown with [st.info]. *)
Definition reports (w : world) (run : result str * world) : Prop :=
  exists report prompts,
    run.1 = Ret report /\
    ((exists body, report = report_header ++ body)
     \/ (exists e, report = generating_error ++ exn_str e)
     \/ (exists e, report = combining_error ++ exn_str e)) /\
    prompts <> [] /\
    run.2 = World (gen_log w ++ prompts) (info_log w).

(** The pages closed when [i] lines have been drawn on letter paper. *)
Definition closed_after (i : nat) : Z :=
  if (i <? 45)%nat then 0 else 1 + (Z.of_nat i - 45) / 47.

(** [a] as the directory part of a path: what [os.path.join(a, b)] puts
    in front of a [b] that is not absolute. *)
Definition directory (a : str) : str :=
  match last a with
  | None => []
  | Some c => if Ascii.eqb c "/" then a else a ++ lit "/"
  end.

(** What [display_thumbnail] puts on the page. *)
Definition thumbnail_event (requests_get : option str -> outcome str)
    (Image_open : str -> outcome image) (thumbnail_url : option str) : event :=
  match requests_get thumbnail_url with
  | Returns content =>
      match Image_open content with
      | Returns img => St_image img (lit "Video Thumbnail") (lit "content")
      | Fails _ => St_warning (lit "Could not load thumbnail.")
      end
  | Fails _ => St_warning (lit "Could not load thumbnail.")
  end.

(** The events of the page from the first heading to the download
    button, for the metadata, the thumbnail event, the summary and the
    saved document. *)
Definition page_body (video_id : str) (m : metadata) (shown : event)
    (summary : str) (document : canvas) : list event :=
  [St_subheader (lit "📌 Video Info");
   St_markdown (lit "**Title:** " ++ title m);
   St_markdown (lit "**Channel:** " ++ channel m);
   St_markdown (lit "**Description:** " ++ description m);
   shown;
   St_spinner (lit "Summarizing content...");
   St_subheader (lit "📝 AI Summary");
   St_markdown summary;
   St_download_button (lit "📄 Download PDF Notes") document
     (title m ++ lit "_summary.pdf") (lit "application/pdf")].

(** The same events without the download button: the page as it stands
    when [save_pdf] is called. *)
Definition page_summary (m : metadata) (shown : event) (summary : str)
  : list event :=
  [St_subheader (lit "📌 Video Info");
   St_markdown (lit "**Title:** " ++ title m);
   St_markdown (lit "**Channel:** " ++ channel m);
   St_markdown (lit "**Description:** " ++ description m);
   shown;
   St_spinner (lit "Summarizing content...");
   St_subheader (lit "📝 AI Summary");
   St_markdown summary].

End AppSpec.

(** Stand-ins for the services of the page. *)

Module SampleApp.

(** Two captions. *)
Definition captions (video_id : str) : outcome (list (gmap string str)) :=
  Returns [ {[ "text"%string := lit "hello world" ]};
            {[ "text"%string := lit "second caption"; "start"%string := lit "1.5" ]} ].

Definition no_captions (video_id : str) : outcome (list (gmap string str)) :=
  Fails (Exn NoTranscriptFound (lit "no transcript")).

(** A provider that answers with an empty list of captions. *)
Definition empty_captions (video_id : str) : outcome (list (gmap string str)) :=
  Returns [].

Definition no_env (name : str) : option str := None.
Definition empty_env (name : str) : option str := Some (lit "").
Definition env_key (name : str) : option str := Some (lit "env-key").
Definition no_secret (name : str) : outcome (option str) := Returns None.
Definition no_secrets_file (name : str) : outcome (option str) :=
  Fails (Exn OtherException (lit "No secrets files found.")).
Definition secret_key (name : str) : outcome (option str) :=
  Returns (Some (lit "secret-key")).

Definition temp_dir : outcome str := Returns (lit "/tmp/tmpab12").

(** An info dict with a description of 400 characters and no uploader. *)
Definition info : gmap string str :=
  {[ "id"%string := lit "dQw4w9WgXcQ";
     "title"%string := lit "A talk";
     "description"%string := repeat "d"%char 400 ]}.

Definition extract_info (opts : ydl_options) (video_url : str)
  : outcome (gmap string str) := Returns info.

Definition download_fails (opts : ydl_options) (video_url : str)
  : outcome (gmap string str) :=
  Fails (Exn OtherException (lit "ERROR: Video unavailable")).

Definition segments (audio_path : str) : outcome (list str) :=
  Returns [lit " So today"; lit " we talk"; lit " about proofs."].

Definition no_network (url : option str) : outcome str :=
  Fails (Exn OtherException (lit "Connection refused")).

Definition picture (url : option str) : outcome str := Returns (lit "JFIF").

Definition decode (content : str) : outcome image := Returns content.

(** A report of 45 short lines: as many as the first page takes. *)
Definition full_page_report : str :=
  PyStr.join [nl] (repeat (lit "line") 45).

Definition start : session := Session Sample.fresh [].

(** A provider that fails for a reason of its own. *)
Definition captions_unreachable (video_id : str)
  : outcome (list (gmap string str)) :=
  Fails (Exn OtherException (lit "Connection reset by peer")).

(** A disk that takes every document, and one without the directory. *)
Definition disk (c : canvas) : outcome unit := Returns tt.

Definition no_such_directory (c : canvas) : outcome unit :=
  Fails (Exn FileNotFoundError
           (lit "[Errno 2] No such file or directory: '" ++ cv_path c ++ lit "'")).

End SampleApp.

(** * Properties *)

(** ** Strings *)

Module PyStrFacts.
Import PyStr Spec.

Lemma len_app {A} (l1 l2 : list A) : len (l1 ++ l2) = len l1 + len l2.
Proof. unfold len. rewrite length_app. lia. Qed.

Lemma len_nonneg {A} (l : list A) : 0 <= len l.
Proof. unfold len. lia. Qed.

Lemma len_nil {A} : len (@nil A) = 0.
Proof. reflexivity. Qed.

Lemma len_cons {A} (a : A) (l : list A) : len (a :: l) = 1 + len l.
Proof. unfold len. simpl length. lia. Qed.

Lemma blank_app (s t : str) : blank (s ++ t) = blank s && blank t.
Proof. apply forallb_app. Qed.

Lemma blank_take (n : nat) (s : str) : blank s = true -> blank (take n s) = true.
Proof.
  intros H. rewrite <- (take_drop n s), blank_app in H.
  apply andb_true_iff in H. tauto.
Qed.

Lemma blank_drop (n : nat) (s : str) : blank s = true -> blank (drop n s) = true.
Proof.
  intros H. rewrite <- (take_drop n s), blank_app in H.
  apply andb_true_iff in H. tauto.
Qed.


Lemma ink_app (s t : str) : ink (s ++ t) = ink s ++ ink t.
Proof. apply List.filter_app. Qed.

Lemma ink_blank (s : str) : blank s = true -> ink s = [].
Proof.
  induction s as [|c s IH]; simpl; [reflexivity|].
  intros H. apply andb_true_iff in H as [Hc Hs].
  rewrite Hc. simpl. apply IH, Hs.
Qed.

Lemma ink_concat (l : list str) : ink (concat l) = concat (map ink l).
Proof.
  induction l as [|s l IH]; simpl; [reflexivity|].
  now rewrite ink_app, IH.
Qed.

Lemma split_acc_join (sep : ascii) (field s : str) :
  join [sep] (split_acc sep field s) = rev field ++ s.
Proof.
  revert field. induction s as [|c s IH]; intros field; simpl.
  - now rewrite app_nil_r.
  - destruct (Ascii.eqb c sep) eqn:E.
    + apply Ascii.eqb_eq in E. subst c.
      specialize (IH []). simpl in IH.
      destruct (split_acc sep [] s) as [|f fs] eqn:Es.
      * destruct s as [|a s]; simpl in Es; [discriminate|].
        destruct (Ascii.eqb a sep); discriminate.
      * change (join [sep] (rev field :: f :: fs))
          with (rev field ++ [sep] ++ join [sep] (f :: fs)).
        now rewrite IH.
    + rewrite IH. simpl. now rewrite <- app_assoc.
Qed.

(** Joining the fields of [s.split(sep)] with [sep] gives [s] back. *)
Lemma split_join (sep : ascii) (s : str) : join [sep] (split sep s) = s.
Proof. apply split_acc_join. Qed.

Lemma split_acc_no_sep (sep : ascii) (field s : str) :
  Forall (fun c => c <> sep) field ->
  Forall (fun f => Forall (fun c => c <> sep) f) (split_acc sep field s).
Proof.
  revert field. induction s as [|c s IH]; intros field Hf; simpl.
  - constructor; [|constructor]. now apply Forall_rev.
  - destruct (Ascii.eqb c sep) eqn:E.
    + constructor; [now apply Forall_rev|]. apply IH. constructor.
    + apply IH. constructor; [|exact Hf].
      intros ->. now rewrite Ascii.eqb_refl in E.
Qed.

End PyStrFacts.
(** ** [textwrap.wrap] *)

Module TextwrapFacts.
Import PyStr PyStrFacts Textwrap Spec.

(** *** The splitter *)

Lemma emit_concat (cur : str) (l : list str) :
  concat (emit cur l) = rev cur ++ concat l.
Proof. destruct cur; reflexivity. Qed.

Lemma wordsep_scan_concat (before cur : str) (k : kind) (rest : str) :
  concat (wordsep_scan before cur k rest) = rev cur ++ rest.
Proof.
  revert before cur k. induction rest as [|c r IH]; intros before cur k.
  - simpl. now rewrite emit_concat.
  - simpl. destruct (extend k before c r) as [k'|].
    + rewrite IH. simpl. now rewrite <- app_assoc.
    + rewrite emit_concat, IH. reflexivity.
Qed.

(** The pieces of [_split], put side by side, are the text. *)
Lemma split_concat (text : str) : concat (split text) = text.
Proof. apply wordsep_scan_concat. Qed.

Lemma emit_nonempty (cur : str) (l : list str) :
  Forall (fun p => p <> []) l -> Forall (fun p => p <> []) (emit cur l).
Proof.
  destruct cur as [|c cur]; simpl; [tauto|].
  intros H. constructor; [|exact H].
  intros E. apply (f_equal (@length ascii)) in E.
  rewrite length_app in E. simpl in E. lia.
Qed.

Lemma wordsep_scan_nonempty (before cur : str) (k : kind) (rest : str) :
  Forall (fun p => p <> []) (wordsep_scan before cur k rest).
Proof.
  revert before cur k. induction rest as [|c r IH]; intros before cur k; simpl.
  - apply emit_nonempty. constructor.
  - destruct (extend k before c r); [apply IH|]. apply emit_nonempty, IH.
Qed.

Lemma split_nonempty (text : str) : Forall (fun p => p <> []) (split text).
Proof. apply wordsep_scan_nonempty. Qed.

(** *** Whitespace munging *)

Lemma is_whitespace_isspace (c : ascii) : is_whitespace c = true -> isspace c = true.
Proof.
  destruct c as [[] [] [] [] [] [] [] []]; vm_compute; congruence.
Qed.

Lemma ink_repeat_space (n : nat) (s : str) : ink (repeat " "%char n ++ s) = ink s.
Proof. induction n as [|n IH]; simpl; [reflexivity|exact IH]. Qed.

Lemma ink_expandtabs_from (tabsize col : nat) (s : str) :
  ink (expandtabs_from tabsize col s) = ink s.
Proof.
  revert col. induction s as [|c s IH]; intros col; simpl; [reflexivity|].
  destruct (Ascii.eqb c "009") eqn:E.
  - apply Ascii.eqb_eq in E. subst c. simpl.
    destruct (0 <? tabsize)%nat; [rewrite ink_repeat_space|]; apply IH.
  - simpl. rewrite IH. reflexivity.
Qed.

Lemma ink_translate_whitespace (s : str) : ink (translate_whitespace s) = ink s.
Proof.
  induction s as [|c s IH]; simpl; [reflexivity|].
  destruct (is_whitespace c) eqn:E.
  - apply is_whitespace_isspace in E. rewrite E. simpl. exact IH.
  - rewrite IH. reflexivity.
Qed.

(** Munging touches whitespace only. *)
Lemma ink_munge_whitespace (text : str) : ink (munge_whitespace text) = ink text.
Proof.
  unfold munge_whitespace, expandtabs.
  now rewrite ink_translate_whitespace, ink_expandtabs_from.
Qed.


(** *** One pass of the outer loop *)

Lemma weight_app (l1 l2 : list str) :
  weight (l1 ++ l2) = (weight l1 + weight l2)%nat.
Proof. induction l1 as [|c l1 IH]; simpl; [reflexivity|]. rewrite IH. lia. Qed.

Lemma len_concat_snoc (l : list str) (c : str) :
  len (concat (l ++ [c])) = len (concat l) + len c.
Proof. rewrite concat_app, len_app. simpl. now rewrite app_nil_r. Qed.

Lemma fill_line_spec (width : Z) (chunks cur_line : list str) (cur_len : Z)
    (chunks2 cur_line2 : list str) (cur_len2 : Z) :
  fill_line width chunks cur_line cur_len = (chunks2, cur_line2, cur_len2) ->
  exists taken,
    chunks = taken ++ chunks2 /\ cur_line2 = cur_line ++ taken /\
    cur_len2 = cur_len + len (concat taken) /\
    (cur_len <= width -> cur_len2 <= width) /\
    match chunks2 with
    | [] => True
    | c :: _ => width < cur_len2 + len c
    end.
Proof.
  revert cur_line cur_len.
  induction chunks as [|c rest IH]; intros cur_line cur_len H; simpl in H.
  - inversion H; subst. exists []. simpl. rewrite app_nil_r, len_nil.
    repeat split; lia.
  - destruct (cur_len + len c <=? width) eqn:E.
    + apply Z.leb_le in E.
      apply IH in H as (taken & -> & -> & -> & Hle & Hnext).
      exists (c :: taken). simpl. rewrite <- app_assoc. simpl.
      rewrite len_app. repeat split; try lia. exact Hnext.
    + apply Z.leb_gt in E. inversion H; subst.
      exists []. simpl. rewrite app_nil_r, len_nil.
      repeat split; lia.
Qed.

Lemma rfind_from_range (c : ascii) (s : str) (e i found : Z) :
  rfind_from c i found s e = found \/ i <= rfind_from c i found s e < e.
Proof.
  revert i found. induction s as [|a s IH]; intros i found; simpl; [now left|].
  destruct (e <=? i) eqn:E; [now left|]. apply Z.leb_gt in E.
  destruct (Ascii.eqb a c).
  - destruct (IH (i + 1) i) as [->|H]; [right; lia|right; lia].
  - destruct (IH (i + 1) found) as [->|H]; [now left|right; lia].
Qed.

Lemma rfind_range (c : ascii) (s : str) (e : Z) :
  rfind c s e = -1 \/ 0 <= rfind c s e < e.
Proof. apply rfind_from_range. Qed.

Lemma drop_trailing_spec (l : list str) :
  exists d, l = drop_trailing l ++ d /\ blank (concat d) = true /\
            Forall (fun c => blank c = true) d /\
            (d = [] -> forall p, last (drop_trailing l) = Some p -> blank p = false).
Proof.
  unfold drop_trailing. destruct l as [|c l] using rev_ind.
  - exists []. simpl. repeat split; auto. discriminate.
  - rewrite last_snoc. destruct (blank c) eqn:E.
    + rewrite removelast_last. exists [c]. simpl. rewrite app_nil_r.
      repeat split; auto. discriminate.
    + exists []. rewrite app_nil_r. simpl. repeat split; auto.
      intros _ p Hp. rewrite last_snoc in Hp. congruence.
Qed.

Lemma cut_point_range (chunk : str) (space_left : Z) :
  cut_point chunk space_left <= space_left /\
  (0 <= space_left -> 0 <= cut_point chunk space_left) /\
  (1 <= space_left -> 1 <= cut_point chunk space_left).
Proof.
  unfold cut_point. destruct (space_left <? len chunk); [|lia].
  destruct (rfind_range "-" chunk space_left) as [E|E].
  - rewrite E. simpl. lia.
  - destruct (0 <? rfind "-" chunk space_left) eqn:E0; simpl; [|lia].
    apply Z.ltb_lt in E0.
    destruct (existsb _ _); lia.
Qed.

Lemma slice_to_from (s : str) (e : Z) : slice_to s e ++ slice_from s e = s.
Proof. apply take_drop. Qed.

Lemma len_slice_to (s : str) (e : Z) : 0 <= e -> len (slice_to s e) <= e.
Proof.
  intros He. unfold slice_to, clamp_index, len.
  destruct (e <? 0) eqn:E; [apply Z.ltb_lt in E; lia|].
  rewrite length_take. lia.
Qed.

Lemma length_slice_from (s : str) (e : Z) :
  1 <= e -> s <> [] -> (length (slice_from s e) < length s)%nat.
Proof.
  intros He Hs. unfold slice_from, clamp_index.
  destruct (e <? 0) eqn:E; [apply Z.ltb_lt in E; lia|].
  rewrite length_drop. destruct s; [congruence|]. simpl. lia.
Qed.

Lemma handle_long_word_break (chunk : str) (rest cur_line : list str)
    (cur_len width : Z) :
  1 <= width ->
  handle_long_word true (chunk :: rest) cur_line cur_len width =
    (slice_from chunk (cut_point chunk (width - cur_len)) :: rest,
     cur_line ++ [slice_to chunk (cut_point chunk (width - cur_len))]).
Proof.
  intros Hw. unfold handle_long_word, cut_point.
  destruct (width <? 1) eqn:E; [apply Z.ltb_lt in E; lia|]. reflexivity.
Qed.

Lemma weight_cons (c : str) (l : list str) :
  weight (c :: l) = S (length c + weight l).
Proof. reflexivity. Qed.

(** Every pass makes the chunks lighter. *)
Lemma wrap_pass_weight (width : Z) (blw : bool) (chunks lines : list str) :
  1 <= width -> chunks <> [] ->
  (weight (wrap_pass width blw chunks lines).1 < weight chunks)%nat.
Proof.
  intros Hw Hne. unfold wrap_pass.
  set (chunks1 := match chunks, lines with
                  | c :: rest, _ :: _ => if blank c then rest else chunks
                  | _, _ => chunks
                  end).
  assert (H1 : (weight chunks1 <= weight chunks)%nat).
  { subst chunks1. destruct chunks as [|c rest]; [lia|].
    destruct lines; [lia|]. destruct (blank c); rewrite ?weight_cons; lia. }
  assert (H0 : (0 < weight chunks)%nat).
  { destruct chunks; [congruence|]. rewrite weight_cons. lia. }
  clearbody chunks1.
  destruct (fill_line width chunks1 [] 0) as [[chunks2 cur_line] cur_len] eqn:Ef.
  apply fill_line_spec in Ef as (taken & Hc & Hl & Hlen & Hle & Hnext).
  simpl in Hl. subst cur_line chunks1. rewrite weight_app in H1.
  destruct chunks2 as [|c rest2]; [simpl; lia|].
  assert (Hgoal : forall chunks3 cur_line2,
             (weight chunks3 <= weight (c :: rest2))%nat ->
             (taken = [] -> (weight chunks3 < weight (c :: rest2))%nat) ->
             (weight (chunks3, match drop_trailing cur_line2 with
                               | [] => lines
                               | _ => lines ++ [concat (drop_trailing cur_line2)]
                               end).1 < weight chunks)%nat).
  { intros chunks3 cur_line2 Hle3 Hlt3. simpl.
    destruct taken as [|t taken].
    - specialize (Hlt3 eq_refl). unfold weight in *. simpl in *. lia.
    - unfold weight in *. simpl in *. lia. }
  destruct (width <? len c) eqn:Ec.
  - apply Z.ltb_lt in Ec. destruct blw.
    + rewrite handle_long_word_break by exact Hw.
      apply Hgoal.
      * rewrite !weight_cons.
        enough (length (slice_from c (cut_point c (width - cur_len))) <= length c)%nat by lia.
        unfold slice_from. rewrite length_drop. lia.
      * intros ->. unfold len in Hlen; simpl in Hlen.
        destruct (cut_point_range c (width - cur_len)) as (_ & _ & H).
        assert (c <> []) by (intros ->; rewrite len_nil in Ec; lia).
        assert (H1c : 1 <= cut_point c (width - cur_len)) by (apply H; lia).
        pose proof (length_slice_from c _ H1c H2).
        rewrite !weight_cons. lia.
    + unfold handle_long_word. destruct (width <? 1); destruct taken as [|t taken];
        apply Hgoal; rewrite ?weight_cons; try lia; congruence.
  - apply Hgoal; [lia|]. intros ->. unfold len in Hlen; simpl in Hlen.
    apply Z.ltb_ge in Ec. lia.
Qed.

(** *** The outer loop *)

(** With a positive width the loop ends within [weight chunks] passes. *)
Lemma wrap_loop_terminates (width : Z) (blw : bool) :
  1 <= width ->
  forall fuel chunks lines,
    (weight chunks <= fuel)%nat ->
    exists out, wrap_loop fuel width blw chunks lines = Some out.
Proof.
  intros Hw. induction fuel as [|fuel IH]; intros chunks lines Hfuel.
  - destruct chunks as [|c chunks]; [now exists lines|].
    rewrite weight_cons in Hfuel. lia.
  - destruct chunks as [|c chunks]; [now exists lines|].
    simpl.
    assert (Hlt := wrap_pass_weight width blw (c :: chunks) lines Hw
                     ltac:(discriminate)).
    destruct (wrap_pass width blw (c :: chunks) lines) as [chunks' lines'].
    change (weight chunks' < weight (c :: chunks))%nat in Hlt.
    apply IH. lia.
Qed.

(** A property kept by every pass holds when the loop ends. *)
Lemma wrap_loop_invariant (I : list str -> list str -> Prop)
    (width : Z) (blw : bool) :
  (forall chunks lines chunks' lines',
      chunks <> [] -> I chunks lines ->
      wrap_pass width blw chunks lines = (chunks', lines') ->
      I chunks' lines') ->
  forall fuel chunks lines out,
    I chunks lines ->
    wrap_loop fuel width blw chunks lines = Some out ->
    I [] out.
Proof.
  intros Hstep. induction fuel as [|fuel IH]; intros chunks lines out HI H.
  - destruct chunks; [|discriminate]. now inversion H; subst.
  - destruct chunks as [|c chunks]; [now inversion H; subst|].
    simpl in H.
    destruct (wrap_pass width blw (c :: chunks) lines) as [chunks' lines'] eqn:E.
    eapply IH; [|exact H]. eapply Hstep; [|exact HI|exact E]. discriminate.
Qed.


Lemma blank_concat (l : list str) : all_blank l -> blank (concat l) = true.
Proof.
  induction 1 as [|c l Hc _ IH]; simpl; [reflexivity|].
  rewrite blank_app, Hc, IH. reflexivity.
Qed.

Lemma len_concat_app (l1 l2 : list str) :
  len (concat (l1 ++ l2)) = len (concat l1) + len (concat l2).
Proof. now rewrite concat_app, len_app. Qed.

(** A pass with [break_long_words] off: some whitespace chunk may go in
    front, a group [g] of whole chunks makes the line, and some whitespace
    chunk behind it may go. The chunk that comes next did not fit. *)
Lemma wrap_pass_keep (width : Z) (chunks lines chunks' lines' : list str) :
  1 <= width -> chunks <> [] ->
  wrap_pass width false chunks lines = (chunks', lines') ->
  exists d1 g d2,
    chunks = d1 ++ g ++ d2 ++ chunks' /\
    all_blank d1 /\ all_blank d2 /\
    lines' = match g with [] => lines | _ => lines ++ [concat g] end /\
    (len (concat g) <= width \/ exists c, g = [c] /\ width < len c) /\
    (lines = [] -> d1 = []) /\
    (d2 = [] -> forall p, last g = Some p -> blank p = false) /\
    match chunks' with
    | [] => True
    | next :: _ =>
        width < len (concat (g ++ d2)) + len next
        \/ exists p, g ++ d2 = [p] /\ width < len p
    end /\
    (lines <> [] -> d1 = [] ->
     forall q, head (g ++ d2 ++ chunks') = Some q -> blank q = false).
Proof.
  intros Hw Hne. unfold wrap_pass.
  set (chunks1 := match chunks, lines with
                  | c :: rest, _ :: _ => if blank c then rest else chunks
                  | _, _ => chunks
                  end).
  assert (H1 : exists d1, chunks = d1 ++ chunks1 /\ all_blank d1 /\ (lines = [] -> d1 = [])
                          /\ (lines <> [] -> d1 = [] ->
                              forall q, head chunks1 = Some q -> blank q = false)).
  { subst chunks1. destruct chunks as [|c rest]; [congruence|].
    destruct lines as [|l lines];
      [exists []; repeat split; [constructor|congruence]|].
    destruct (blank c) eqn:E.
    - exists [c]. repeat split; [|discriminate|discriminate].
      constructor; [exact E|constructor].
    - exists []. repeat split; [constructor|].
      intros _ _ q Hq. inversion Hq; subst. exact E. }
  destruct H1 as (d1 & Hd1 & Hb1 & Hl1 & Hfront). clearbody chunks1.
  destruct (fill_line width chunks1 [] 0) as [[chunks2 cur_line] cur_len] eqn:Ef.
  apply fill_line_spec in Ef as (taken & Hc & Hl & Hlen & Hle & Hnext).
  simpl in Hl. subst cur_line. specialize (Hle ltac:(lia)).
  assert (Hfin : forall chunks3 cur_line2,
             chunks1 = cur_line2 ++ chunks3 ->
             (len (concat cur_line2) <= width \/
              exists c, cur_line2 = [c] /\ width < len c) ->
             match chunks3 with
             | [] => True
             | next :: _ =>
                 width < len (concat cur_line2) + len next
                 \/ exists p, cur_line2 = [p] /\ width < len p
             end ->
             (chunks3,
              match drop_trailing cur_line2 with
              | [] => lines
              | _ => lines ++ [concat (drop_trailing cur_line2)]
              end) = (chunks', lines') ->
             exists d1 g d2,
               chunks = d1 ++ g ++ d2 ++ chunks' /\
               all_blank d1 /\ all_blank d2 /\
               lines' = match g with [] => lines | _ => lines ++ [concat g] end /\
               (len (concat g) <= width \/ exists c, g = [c] /\ width < len c) /\
               (lines = [] -> d1 = []) /\
               (d2 = [] -> forall p, last g = Some p -> blank p = false) /\
               match chunks' with
               | [] => True
               | next :: _ =>
                   width < len (concat (g ++ d2)) + len next
                   \/ exists p, g ++ d2 = [p] /\ width < len p
               end /\
               (lines <> [] -> d1 = [] ->
                forall q, head (g ++ d2 ++ chunks') = Some q -> blank q = false)).
  { intros chunks3 cur_line2 Hsplit Hbound Hgreedy Heq.
    inversion Heq; subst chunks3 lines'.
    destruct (drop_trailing_spec cur_line2) as (d2 & Hd2 & _ & Hb2 & Hlast).
    exists d1, (drop_trailing cur_line2), d2.
    split; [rewrite Hd1, Hsplit, Hd2 at 1; now rewrite <- !app_assoc|].
    split; [assumption|]. split; [assumption|]. split; [reflexivity|].
    split; [|split; [assumption|split; [assumption|split;
      [now rewrite <- Hd2|rewrite app_assoc, <- Hd2, <- Hsplit; exact Hfront]]]].
    destruct Hbound as [Hb|(c & Hc1 & Hc2)].
    - left. rewrite Hd2, len_concat_app in Hb. pose proof (len_nonneg (concat d2)). lia.
    - subst cur_line2. unfold drop_trailing. simpl.
      destruct (blank c); [left; simpl; unfold len; simpl; lia|right; eauto]. }
  destruct chunks2 as [|c rest2].
  - apply Hfin; [now rewrite Hc| |exact I]. left. lia.
  - destruct (width <? len c) eqn:Ec.
    + apply Z.ltb_lt in Ec. unfold handle_long_word.
      destruct taken as [|t taken].
      * apply Hfin; [exact Hc| |]; [right; eauto|].
        destruct rest2; [exact I|]. right. eauto.
      * apply Hfin; [exact Hc| |]; [left; lia|]. left. lia.
    + apply Hfin; [exact Hc| |]; [left; lia|]. left. lia.
Qed.

(** A pass with [break_long_words] on, read character by character:
    whitespace may go in front of and behind the line [body], whose
    length stays within the width. *)
Lemma wrap_pass_break (width : Z) (chunks lines chunks' lines' : list str) :
  1 <= width -> chunks <> [] ->
  wrap_pass width true chunks lines = (chunks', lines') ->
  exists d1 body d2,
    concat chunks = d1 ++ body ++ d2 ++ concat chunks' /\
    blank d1 = true /\ blank d2 = true /\
    (lines' = lines /\ body = [] \/ lines' = lines ++ [body]) /\
    len body <= width.
Proof.
  intros Hw Hne. unfold wrap_pass.
  set (chunks1 := match chunks, lines with
                  | c :: rest, _ :: _ => if blank c then rest else chunks
                  | _, _ => chunks
                  end).
  assert (H1 : exists d1, concat chunks = d1 ++ concat chunks1 /\ blank d1 = true).
  { subst chunks1. destruct chunks as [|c rest]; [congruence|].
    destruct lines as [|l lines]; [now exists []|].
    destruct (blank c) eqn:E; [now exists c|now exists []]. }
  destruct H1 as (d1 & Hd1 & Hb1). clearbody chunks1.
  destruct (fill_line width chunks1 [] 0) as [[chunks2 cur_line] cur_len] eqn:Ef.
  apply fill_line_spec in Ef as (taken & Hc & Hl & Hlen & Hle & Hnext).
  simpl in Hl. subst cur_line. specialize (Hle ltac:(lia)).
  assert (Hfin : forall chunks3 cur_line2,
             concat chunks1 = concat cur_line2 ++ concat chunks3 ->
             len (concat cur_line2) <= width ->
             (chunks3,
              match drop_trailing cur_line2 with
              | [] => lines
              | _ => lines ++ [concat (drop_trailing cur_line2)]
              end) = (chunks', lines') ->
             exists d1 body d2,
               concat chunks = d1 ++ body ++ d2 ++ concat chunks' /\
               blank d1 = true /\ blank d2 = true /\
               (lines' = lines /\ body = [] \/ lines' = lines ++ [body]) /\
               len body <= width).
  { intros chunks3 cur_line2 Hsplit Hbound Heq. inversion Heq; subst chunks3 lines'.
    destruct (drop_trailing_spec cur_line2) as (d2 & Hd2 & Hb2 & _ & _).
    exists d1, (concat (drop_trailing cur_line2)), (concat d2).
    split; [rewrite Hd1, Hsplit, Hd2 at 1; now rewrite concat_app, <- !app_assoc|].
    repeat split; try assumption.
    - destruct (drop_trailing cur_line2); [left|right]; split; reflexivity.
    - rewrite Hd2, len_concat_app in Hbound. pose proof (len_nonneg (concat d2)). lia. }
  destruct chunks2 as [|c rest2].
  - apply Hfin; [now rewrite Hc, concat_app|]. lia.
  - destruct (width <? len c) eqn:Ec.
    + apply Z.ltb_lt in Ec. rewrite handle_long_word_break by exact Hw.
      destruct (cut_point_range c (width - cur_len)) as (Hcp & Hcp0 & _).
      specialize (Hcp0 ltac:(lia)).
      apply Hfin.
      * rewrite Hc, !concat_app. simpl. rewrite app_nil_r, <- !app_assoc.
        now rewrite (app_assoc (slice_to _ _)), slice_to_from.
      * rewrite len_concat_snoc.
        pose proof (len_slice_to c _ Hcp0). lia.
    + apply Hfin; [now rewrite Hc, concat_app|]. lia.
Qed.

(** *** [wrap] as a whole *)

(** [wrap] returns whenever the width is positive. *)
Lemma wrap_chunks_returns (chunks : list str) (width : Z) (blw : bool) :
  0 < width -> exists lines, wrap_chunks chunks width blw = Ret lines.
Proof.
  intros Hw. unfold wrap_chunks.
  destruct (width <=? 0) eqn:E; [apply Z.leb_le in E; lia|].
  destruct (wrap_loop_terminates width blw ltac:(lia) (weight chunks) chunks [])
    as [out Hout]; [lia|].
  rewrite Hout. now exists out.
Qed.

Lemma wrap_chunks_inv (chunks : list str) (width : Z) (blw : bool)
    (lines : list str) :
  wrap_chunks chunks width blw = Ret lines ->
  0 < width /\
  wrap_loop (weight chunks) width blw chunks [] = Some lines.
Proof.
  unfold wrap_chunks. destruct (width <=? 0) eqn:E; [discriminate|].
  apply Z.leb_gt in E.
  destruct (wrap_loop _ _ _ _ _); [|discriminate].
  intros H. inversion H. auto.
Qed.

Lemma wrap_chunks_nonpositive (chunks : list str) (width : Z) (blw : bool) :
  width <= 0 -> wrap_chunks chunks width blw = Raise (invalid_width width).
Proof.
  intros Hw. unfold wrap_chunks.
  destruct (width <=? 0) eqn:E; [reflexivity|apply Z.leb_gt in E; lia].
Qed.


Lemma thinned_refl (l : list str) : thinned l l.
Proof. induction l; constructor; assumption. Qed.

Lemma thinned_trans (a b c : list str) :
  thinned a b -> thinned b c -> thinned a c.
Proof.
  intros Hab Hbc. revert a Hab.
  induction Hbc as [|p b c Hbc IH|p b c Hp Hbc IH]; intros a Hab.
  - exact Hab.
  - inversion Hab; subst.
    + apply thinned_keep. now apply IH.
    + apply thinned_drop; [assumption|]. now apply IH.
  - apply thinned_drop; [assumption|]. now apply IH.
Qed.

Lemma thinned_app (a1 b1 a2 b2 : list str) :
  thinned a1 b1 -> thinned a2 b2 -> thinned (a1 ++ a2) (b1 ++ b2).
Proof.
  intros H1 H2. induction H1; simpl; [assumption| |].
  - now apply thinned_keep.
  - now apply thinned_drop.
Qed.

Lemma thinned_blank (d : list str) : all_blank d -> thinned [] d.
Proof. induction 1; constructor; assumption. Qed.

(** Thinning keeps the ink. *)
Lemma thinned_ink (kept pieces : list str) :
  thinned kept pieces -> ink (concat kept) = ink (concat pieces).
Proof.
  induction 1 as [|p k l _ IH|p k l Hp _ IH]; simpl; [reflexivity| |].
  - now rewrite !ink_app, IH.
  - now rewrite ink_app, (ink_blank p Hp), IH.
Qed.


(** With [break_long_words] off the lines are groups of whole pieces of
    the splitter, in order; the pieces left out are all whitespace. *)
Lemma wrap_chunks_keep_groups (chunks : list str) (width : Z)
    (lines : list str) :
  wrap_chunks chunks width false = Ret lines ->
  exists groups,
    lines = map (@concat ascii) groups /\
    Forall (line_group width) groups /\
    thinned (concat groups) chunks.
Proof.
  intros H. apply wrap_chunks_inv in H as [Hw H].
  pose (I := fun (todo done : list str) =>
               exists groups, done = map (@concat ascii) groups /\
                              Forall (line_group width) groups /\
                              thinned (concat groups ++ todo) chunks).
  assert (HI : I [] lines).
  { eapply (wrap_loop_invariant I); [|shelve|exact H].
    intros todo done todo' done' Hne (groups & Hd & Hg & Ht) Hp.
    apply wrap_pass_keep in Hp as (d1 & g & d2 & Hc & Hb1 & Hb2 & Hl & Hbound & _ & _ & _);
      [|lia|exact Hne].
    assert (Ht' : thinned (concat groups ++ g ++ todo') chunks).
    { eapply thinned_trans; [|exact Ht]. rewrite Hc.
      apply thinned_app; [apply thinned_refl|].
      change (thinned (([] ++ g) ++ ([] ++ todo')) (d1 ++ g ++ d2 ++ todo')).
      rewrite (app_assoc d1). apply thinned_app.
      - apply thinned_app; [now apply thinned_blank|apply thinned_refl].
      - apply thinned_app; [now apply thinned_blank|apply thinned_refl]. }
    destruct g as [|p g].
    - exists groups. subst done'. auto.
    - exists (groups ++ [p :: g]). subst done done'. repeat split.
      + now rewrite map_app.
      + apply Forall_app. split; [exact Hg|]. constructor; [|constructor].
        split; [discriminate|exact Hbound].
      + rewrite concat_app. simpl. rewrite app_nil_r, <- app_assoc. exact Ht'. }
  Unshelve.
  - destruct HI as (groups & Hl & Hg & Ht). exists groups.
    rewrite app_nil_r in Ht. auto.
  - exists []. repeat split; [constructor|]. simpl. apply thinned_refl.
Qed.

(** With [break_long_words] on no line is longer than the width. *)
Lemma wrap_chunks_break_width (chunks : list str) (width : Z)
    (lines : list str) :
  wrap_chunks chunks width true = Ret lines ->
  Forall (fun l => len l <= width) lines.
Proof.
  intros H. apply wrap_chunks_inv in H as [Hw H].
  apply (wrap_loop_invariant (fun _ done => Forall (fun l => len l <= width) done)
           width true) with (fuel := weight chunks) (chunks := chunks) (lines := []);
    [|constructor|exact H].
  intros todo done todo' done' Hne HI Hp.
  apply wrap_pass_break in Hp as (d1 & body & d2 & _ & _ & _ & Hl & Hbound);
    [|lia|exact Hne].
  destruct Hl as [[-> _]| ->]; [exact HI|].
  apply Forall_app. split; [exact HI|]. constructor; [exact Hbound|constructor].
Qed.

(** The lines hold the ink of the chunks, all of it and in order. *)
Lemma wrap_chunks_ink (chunks : list str) (width : Z) (blw : bool)
    (lines : list str) :
  wrap_chunks chunks width blw = Ret lines ->
  ink (concat lines) = ink (concat chunks).
Proof.
  intros H. destruct blw.
  - apply wrap_chunks_inv in H as [Hw H].
    pose (I := fun (todo done : list str) =>
                 ink (concat done) ++ ink (concat todo) = ink (concat chunks)).
    assert (HI : I [] lines).
    { eapply (wrap_loop_invariant I); [|shelve|exact H].
      intros todo done todo' done' Hne HI Hp. unfold I in *.
      apply wrap_pass_break in Hp as (d1 & body & d2 & Hc & Hb1 & Hb2 & Hl & _);
        [|lia|exact Hne].
      rewrite <- HI, Hc, !ink_app, (ink_blank d1 Hb1), (ink_blank d2 Hb2).
      simpl. destruct Hl as [[-> ->]| ->]; [reflexivity|].
      rewrite concat_app, ink_app. simpl. now rewrite app_nil_r, <- app_assoc. }
    Unshelve.
    + unfold I in HI. simpl in HI. now rewrite app_nil_r in HI.
    + reflexivity.
  - apply wrap_chunks_keep_groups in H as (groups & -> & _ & Ht).
    apply thinned_ink in Ht. rewrite <- Ht.
    clear. induction groups as [|g groups IH]; simpl; [reflexivity|].
    now rewrite concat_app, !ink_app, IH.
Qed.

Lemma wrap_returns (text : str) (width : Z) (blw : bool) :
  0 < width -> exists lines, wrap text width blw = Ret lines.
Proof. apply wrap_chunks_returns. Qed.

(** [wrap] changes whitespace only: the characters that are not
    whitespace come out as they went in. *)
Lemma wrap_ink (text : str) (width : Z) (blw : bool) (lines : list str) :
  wrap text width blw = Ret lines -> ink (concat lines) = ink text.
Proof.
  intros H. apply wrap_chunks_ink in H. rewrite H.
  unfold split_chunks. now rewrite split_concat, ink_munge_whitespace.
Qed.

(** *** Lines of whitespace *)


Lemma expandtabs_from_whitespace (tabsize col : nat) (s : str) :
  all_whitespace s -> all_whitespace (expandtabs_from tabsize col s).
Proof.
  intros H. revert col. induction H as [|c s Hc _ IH]; intros col; simpl.
  - constructor.
  - destruct (Ascii.eqb c "009").
    + destruct (0 <? tabsize)%nat; [|apply IH].
      apply Forall_app. split; [|apply IH].
      generalize (tabsize - col mod tabsize)%nat. intros n.
      induction n; simpl; constructor; [reflexivity|assumption].
    + constructor; [exact Hc|apply IH].
Qed.

Lemma translate_all_whitespace (s : str) :
  all_whitespace s -> translate_whitespace s = repeat " "%char (length s).
Proof.
  induction 1 as [|c s Hc _ IH]; simpl; [reflexivity|]. now rewrite Hc, IH.
Qed.

(** A line of whitespace is munged into a run of spaces. *)
Lemma munge_all_whitespace (s : str) :
  all_whitespace s -> exists n, munge_whitespace s = repeat " "%char n.
Proof.
  intros H. eexists. unfold munge_whitespace.
  apply translate_all_whitespace, expandtabs_from_whitespace, H.
Qed.

Lemma repeat_app_cons {A} (x : A) (n : nat) (l : list A) :
  repeat x n ++ x :: l = x :: repeat x n ++ l.
Proof. induction n as [|n IH]; simpl; [reflexivity|]. now rewrite IH. Qed.

Lemma wordsep_scan_spaces (before cur : str) (n : nat) :
  wordsep_scan before cur InSpace (repeat " "%char n)
  = emit (repeat " "%char n ++ cur) [].
Proof.
  revert before cur. induction n as [|n IH]; intros before cur; [reflexivity|].
  simpl. rewrite IH. now rewrite repeat_app_cons.
Qed.

(** The splitter makes at most one piece of a run of spaces. *)
Lemma split_spaces (n : nat) :
  split (repeat " "%char n) = match n with
                              | O => []
                              | S _ => [repeat " "%char n]
                              end.
Proof.
  destruct n as [|n]; [reflexivity|].
  pose proof (split_concat (repeat " "%char (S n))) as Hc.
  unfold split in *. simpl in *. rewrite wordsep_scan_spaces in *.
  destruct (repeat " "%char n ++ [" "%char]) as [|a l] eqn:E.
  - destruct (repeat " "%char n); discriminate.
  - simpl in *. rewrite app_nil_r in Hc. now rewrite Hc.
Qed.

Lemma blank_spaces (n : nat) : blank (repeat " "%char n) = true.
Proof. induction n; simpl; auto. Qed.

(** A pass over a single all-whitespace chunk, no line made yet: no line
    is made, and what is left is of the same kind. *)
Lemma wrap_pass_single_blank (width : Z) (blw : bool) (p : str) :
  1 <= width -> blank p = true ->
  exists chunks',
    wrap_pass width blw [p] [] = (chunks', []) /\
    (chunks' = [] \/ exists p', chunks' = [p'] /\ blank p' = true).
Proof.
  intros Hw Hp. unfold wrap_pass. simpl. rewrite Z.add_0_l.
  destruct (len p <=? width) eqn:E.
  - simpl. unfold drop_trailing. simpl. rewrite Hp. simpl. eauto.
  - apply Z.leb_gt in E. apply Z.ltb_lt in E. rewrite E.
    destruct blw.
    + rewrite handle_long_word_break by exact Hw. simpl.
      unfold drop_trailing. simpl.
      unfold slice_to, slice_from.
      rewrite blank_take by exact Hp. simpl.
      eexists. split; [reflexivity|]. right. eexists. split; [reflexivity|].
      now apply blank_drop.
    + unfold handle_long_word. destruct (width <? 1);
        unfold drop_trailing; simpl; rewrite Hp; simpl; eauto.
Qed.

Lemma wrap_loop_single_blank (width : Z) (blw : bool) :
  1 <= width ->
  forall fuel chunks out,
    chunks = [] \/ (exists p, chunks = [p] /\ blank p = true) ->
    wrap_loop fuel width blw chunks [] = Some out -> out = [].
Proof.
  intros Hw. induction fuel as [|fuel IH]; intros chunks out Hc H.
  - destruct chunks; [now inversion H|discriminate].
  - destruct Hc as [->|(p & -> & Hp)]; [now inversion H|].
    simpl in H.
    destruct (wrap_pass_single_blank width blw p Hw Hp) as (chunks' & E & Hc').
    rewrite E in H. eapply IH; eassumption.
Qed.

(** [wrap] of a line of whitespace (or of nothing) is the empty list. *)
Lemma wrap_all_whitespace (line : str) (width : Z) (blw : bool) :
  0 < width -> all_whitespace line -> wrap line width blw = Ret [].
Proof.
  intros Hw Hl. destruct (wrap_returns line width blw Hw) as [lines H].
  rewrite H. f_equal.
  apply wrap_chunks_inv in H as [_ H].
  eapply (wrap_loop_single_blank width blw ltac:(lia)); [|exact H].
  unfold split_chunks. destruct (munge_all_whitespace line Hl) as [n ->].
  rewrite split_spaces. destruct n; [now left|].
  right. eexists. split; [reflexivity|]. apply blank_spaces.
Qed.


(** *** Greedy layout *)

Lemma greedy_blank_front (width : Z) (d pieces : list str) (groups : list (list str)) :
  all_blank d -> greedy width pieces groups -> greedy width (d ++ pieces) groups.
Proof.
  intros Hd H. destruct H as [d' Hd'|d1 g d2 rest groups H1 H2 Hg Hn Hr].
  - apply greedy_end. now apply Forall_app.
  - rewrite app_assoc. apply greedy_line; try assumption. now apply Forall_app.
Qed.

Lemma wrap_loop_greedy (width : Z) :
  1 <= width ->
  forall fuel chunks lines out,
    wrap_loop fuel width false chunks lines = Some out ->
    exists groups,
      out = lines ++ map (@concat ascii) groups /\ greedy width chunks groups.
Proof.
  intros Hw. induction fuel as [|fuel IH]; intros chunks lines out H.
  - destruct chunks; [|discriminate]. inversion H; subst.
    exists []. rewrite app_nil_r. split; [reflexivity|]. apply greedy_end. constructor.
  - destruct chunks as [|c chunks].
    { inversion H; subst. exists []. rewrite app_nil_r.
      split; [reflexivity|]. apply greedy_end. constructor. }
    simpl in H.
    destruct (wrap_pass width false (c :: chunks) lines) as [chunks' lines'] eqn:E.
    apply wrap_pass_keep in E
      as (d1 & g & d2 & Hc & Hb1 & Hb2 & Hl & Hbound & _ & _ & Hnext & _);
      [|exact Hw|discriminate].
    apply IH in H as (groups & -> & Hgr). rewrite Hc.
    destruct g as [|p g].
    + subst lines'. exists groups. split; [reflexivity|].
      simpl. apply greedy_blank_front; [assumption|].
      apply greedy_blank_front; assumption.
    + subst lines'. exists ((p :: g) :: groups). split.
      * rewrite <- app_assoc. reflexivity.
      * apply greedy_line; try assumption.
        -- split; [discriminate|exact Hbound].
        -- destruct chunks' as [|next rest]; [exact I|].
           destruct Hnext as [Hn|(q & Hq & Hlen)]; [now left|right].
           destruct g as [|p' g]; destruct d2 as [|b d2]; simpl in Hq;
             inversion Hq; subst; eauto.
Qed.

Lemma greedy_thinned (width : Z) (pieces : list str) (groups : list (list str)) :
  greedy width pieces groups -> thinned (concat groups) pieces.
Proof.
  induction 1 as [d Hd|d1 g d2 rest groups H1 H2 Hg Hn Hr IH].
  - simpl. now apply thinned_blank.
  - simpl.
    change (thinned (([] ++ g) ++ ([] ++ concat groups)) (d1 ++ g ++ d2 ++ rest)).
    rewrite (app_assoc d1). apply thinned_app.
    + apply thinned_app; [now apply thinned_blank|apply thinned_refl].
    + apply thinned_app; [now apply thinned_blank|exact IH].
Qed.

Lemma greedy_groups (width : Z) (pieces : list str) (groups : list (list str)) :
  greedy width pieces groups -> Forall (line_group width) groups.
Proof. induction 1; constructor; assumption. Qed.

(** With [break_long_words] off the lines are a greedy layout of the
    chunks. *)
Lemma wrap_chunks_greedy (chunks : list str) (width : Z) (lines : list str) :
  wrap_chunks chunks width false = Ret lines ->
  exists groups,
    lines = map (@concat ascii) groups /\ greedy width chunks groups.
Proof.
  intros H. apply wrap_chunks_inv in H as [Hw H].
  apply wrap_loop_greedy in H as (groups & -> & Hg); [|lia]. eauto.
Qed.

(** *** Words *)

Lemma words_acc_blank_nil (b z : str) :
  blank b = true -> words_acc [] (b ++ z) = words_acc [] z.
Proof.
  induction b as [|c b IH]; simpl; [reflexivity|].
  intros H. apply andb_true_iff in H as [Hc Hb]. rewrite Hc. simpl. now apply IH.
Qed.

Lemma words_acc_blank (b word z : str) :
  blank b = true -> b <> [] ->
  words_acc word (b ++ z) = flush word (words_acc [] z).
Proof.
  destruct b as [|c b]; [congruence|]. simpl. intros H _.
  apply andb_true_iff in H as [Hc Hb]. rewrite Hc. f_equal.
  now apply words_acc_blank_nil.
Qed.

Lemma same_words_refl (x : str) : same_words x x.
Proof. intros word z. reflexivity. Qed.

Lemma same_words_sym (x y : str) : same_words x y -> same_words y x.
Proof. intros H word z. symmetry. apply H. Qed.

Lemma same_words_trans (x y z : str) :
  same_words x y -> same_words y z -> same_words x z.
Proof. intros H1 H2 word t. rewrite H1. apply H2. Qed.

(** Any two runs of whitespace read the same. *)
Lemma same_words_blank (b1 b2 : str) :
  blank b1 = true -> b1 <> [] -> blank b2 = true -> b2 <> [] ->
  same_words b1 b2.
Proof.
  intros H1 N1 H2 N2 word z. now rewrite !words_acc_blank.
Qed.

Lemma same_words_app_l (p x y : str) :
  same_words x y -> same_words (p ++ x) (p ++ y).
Proof.
  intros H word z. rewrite <- !app_assoc. revert word.
  induction p as [|c p IH]; intros word; simpl; [apply H|].
  destruct (isspace c); [f_equal|]; apply IH.
Qed.

Lemma same_words_app_r (x y s : str) :
  same_words x y -> same_words (x ++ s) (y ++ s).
Proof. intros H word z. rewrite <- !app_assoc. apply H. Qed.

Lemma same_words_app (x x' y y' : str) :
  same_words x x' -> same_words y y' -> same_words (x ++ y) (x' ++ y').
Proof.
  intros Hx Hy. eapply same_words_trans.
  - apply same_words_app_r, Hx.
  - apply same_words_app_l, Hy.
Qed.

Lemma same_words_words (x y : str) : same_words x y -> words x = words y.
Proof. intros H. specialize (H [] []). now rewrite !app_nil_r in H. Qed.

Lemma words_blank_front (b z : str) :
  blank b = true -> words (b ++ z) = words z.
Proof. apply words_acc_blank_nil. Qed.

Lemma words_blank_back (x b : str) :
  blank b = true -> words (x ++ b) = words x.
Proof.
  intros Hb. unfold words. generalize (@nil ascii) as word.
  induction x as [|c x IH]; intros word; simpl.
  - destruct b as [|c b]; [reflexivity|].
    now rewrite <- (app_nil_r (c :: b)), words_acc_blank.
  - destruct (isspace c); [f_equal|]; apply IH.
Qed.

(** Munging does not change the words. *)
Lemma same_words_expandtabs (col : nat) (s : str) :
  same_words (expandtabs_from 8 col s) s.
Proof.
  revert col. induction s as [|c s IH]; intros col; cbn [expandtabs_from];
    [apply same_words_refl|].
  destruct (Ascii.eqb c "009") eqn:E.
  - apply Ascii.eqb_eq in E. subst c.
    change (0 <? 8)%nat with true. cbn iota.
    pose proof (Nat.mod_upper_bound col 8 ltac:(lia)) as Hm.
    remember (8 - col mod 8)%nat as incr eqn:Hincr.
    change ("009"%char :: s) with (["009"%char] ++ s).
    apply same_words_app; [|apply IH].
    apply same_words_blank; try reflexivity; try discriminate.
    + apply blank_spaces.
    + destruct incr; [lia|simpl; discriminate].
  - apply (same_words_app_l [c]), IH.
Qed.

Lemma same_words_translate (s : str) : same_words (translate_whitespace s) s.
Proof.
  induction s as [|c s IH]; simpl; [apply same_words_refl|].
  change (c :: s) with ([c] ++ s).
  change ((if is_whitespace c then " "%char else c) :: translate_whitespace s)
    with ([if is_whitespace c then " "%char else c] ++ translate_whitespace s).
  apply same_words_app; [|exact IH].
  destruct (is_whitespace c) eqn:E; [|apply same_words_refl].
  apply is_whitespace_isspace in E.
  apply same_words_blank; try reflexivity; try discriminate.
  simpl. now rewrite E.
Qed.

Lemma words_munge_whitespace (text : str) :
  words (munge_whitespace text) = words text.
Proof.
  apply same_words_words. unfold munge_whitespace, expandtabs.
  eapply same_words_trans; [apply same_words_translate|apply same_words_expandtabs].
Qed.

Lemma no_hyphen_expandtabs_from (tabsize col : nat) (s : str) :
  no_hyphen s -> no_hyphen (expandtabs_from tabsize col s).
Proof.
  intros H. revert col. induction H as [|c s Hc _ IH]; intros col;
    cbn [expandtabs_from]; [constructor|].
  destruct (Ascii.eqb c "009").
  - destruct (0 <? tabsize)%nat; [|apply IH].
    apply Forall_app. split; [|apply IH].
    generalize (tabsize - col mod tabsize)%nat. intros n.
    induction n; simpl; constructor; [discriminate|assumption].
  - constructor; [exact Hc|apply IH].
Qed.

Lemma no_hyphen_translate_whitespace (s : str) :
  no_hyphen s -> no_hyphen (translate_whitespace s).
Proof.
  induction 1 as [|c s Hc _ IH]; simpl; constructor; [|exact IH].
  destruct (is_whitespace c); [discriminate|exact Hc].
Qed.

Lemma no_hyphen_munge_whitespace (text : str) :
  no_hyphen text -> no_hyphen (munge_whitespace text).
Proof.
  intros H. apply no_hyphen_translate_whitespace, no_hyphen_expandtabs_from, H.
Qed.

(** *** The pieces of a text without hyphens *)

Lemma emdash_at_no_hyphen (before : str) (c : ascii) (r : str) :
  c <> "-"%char -> emdash_at before (c :: r) = false.
Proof.
  intros Hc. unfold emdash_at. destruct before as [|p before]; [reflexivity|].
  simpl. unfold is_hyphen. apply Ascii.eqb_neq in Hc. rewrite Hc.
  simpl. apply andb_false_r.
Qed.

Lemma forallb_rev {A} (f : A -> bool) (l : list A) :
  forallb f (rev l) = forallb f l.
Proof.
  induction l as [|a l IH]; simpl; [reflexivity|].
  rewrite forallb_app, IH. simpl. rewrite andb_true_r. apply andb_comm.
Qed.

Lemma wordsep_scan_by_turns (rest : str) :
  no_hyphen rest ->
  forall before cur k b,
    kind_flag k = Some b -> cur <> [] ->
    forallb (fun c => Bool.eqb (is_whitespace c) b) cur = true ->
    by_turns b (wordsep_scan before cur k rest).
Proof.
  induction 1 as [|c r Hc _ IH]; intros before cur k b Hk Hne Hcur.
  - cbn [wordsep_scan]. destruct cur as [|a cur]; [congruence|].
    cbn [emit by_turns].
    split; [|split; [now rewrite forallb_rev|exact I]].
    intros E. apply (f_equal (@length ascii)) in E.
    rewrite length_rev in E. discriminate.
  - assert (Hemit : forall L, by_turns (negb b) L ->
                              by_turns b (emit cur L)).
    { intros L HL. destruct cur as [|a cur]; [congruence|].
      cbn [emit by_turns].
      split; [|split; [now rewrite forallb_rev|exact HL]].
      intros E. apply (f_equal (@length ascii)) in E.
      rewrite length_rev in E. discriminate. }
    assert (Hh : is_hyphen c = false) by (now apply Ascii.eqb_neq).
    cbn [wordsep_scan].
    destruct k; try discriminate; inversion Hk; subst b; cbn [extend].
    + destruct (is_whitespace c) eqn:Ew.
      * apply (IH _ _ InSpace true); [reflexivity|discriminate|].
        simpl. now rewrite Ew, Hcur.
      * apply Hemit. unfold start_kind. rewrite Ew, emdash_at_no_hyphen by exact Hc.
        apply (IH _ _ InWord false); [reflexivity|discriminate|].
        simpl. now rewrite Ew.
    + rewrite Hh. cbn [andb]. destruct (is_whitespace c) eqn:Ew.
      * apply Hemit. unfold start_kind. rewrite Ew.
        apply (IH _ _ InSpace true); [reflexivity|discriminate|].
        simpl. now rewrite Ew.
      * rewrite emdash_at_no_hyphen by exact Hc.
        apply (IH _ _ InWord false); [reflexivity|discriminate|].
        simpl. now rewrite Ew, Hcur.
Qed.

Lemma split_by_turns (text : str) :
  no_hyphen text -> exists b, by_turns b (split text).
Proof.
  intros H. unfold split. destruct H as [|c r Hc Hr]; [now exists true|].
  cbn [wordsep_scan extend emit]. unfold start_kind.
  destruct (is_whitespace c) eqn:Ew.
  - exists true. apply wordsep_scan_by_turns; try assumption; try discriminate;
      [reflexivity|]. simpl. now rewrite Ew.
  - rewrite emdash_at_no_hyphen by exact Hc.
    exists false. apply wordsep_scan_by_turns; try assumption; try discriminate;
      [reflexivity|]. simpl. now rewrite Ew.
Qed.

Lemma by_turns_blank (p : str) :
  forallb (fun c => Bool.eqb (is_whitespace c) true) p = true -> blank p = true.
Proof.
  induction p as [|c p IH]; simpl; [reflexivity|].
  intros H. apply andb_true_iff in H as [Hc Hp].
  apply Bool.eqb_prop in Hc. apply is_whitespace_isspace in Hc.
  rewrite Hc. now apply IH.
Qed.

Lemma by_turns_spaced (b : bool) (pieces : list str) :
  by_turns b pieces -> spaced pieces /\ Forall (fun p => p <> []) pieces.
Proof.
  revert b. induction pieces as [|p rest IH]; intros b H; [split; constructor|].
  destruct H as (Hp & Hf & Hrest).
  destruct (IH _ Hrest) as [Hs Hn]. split; [|now constructor].
  destruct rest as [|q rest]; [exact I|].
  destruct Hrest as (Hq & Hfq & _).
  split; [|split; assumption].
  intros Hblank. destruct b.
  - apply by_turns_blank in Hf. congruence.
  - now apply by_turns_blank.
Qed.

(** *** Joining the lines again *)

Lemma spaced_out_snoc (lines : list str) (l : str) :
  spaced_out (lines ++ [l]) = spaced_out lines ++ l ++ [" "%char].
Proof.
  unfold spaced_out. rewrite map_app, concat_app. simpl. now rewrite app_nil_r.
Qed.

Lemma spaced_out_ends (lines : list str) :
  lines <> [] -> exists x, spaced_out lines = x ++ [" "%char].
Proof.
  destruct lines as [|l lines _] using rev_ind; [congruence|]. intros _.
  rewrite spaced_out_snoc. exists (spaced_out lines ++ l). now rewrite app_assoc.
Qed.

Lemma words_context (p x y z : str) :
  same_words x y -> words (p ++ x ++ z) = words (p ++ y ++ z).
Proof.
  intros H. unfold words.
  pose proof (same_words_app_l p x y H [] z) as E.
  now rewrite <- !app_assoc in E.
Qed.

(** Whitespace right behind the lines made so far does not count. *)
Lemma words_after_lines (lines : list str) (b y : str) :
  blank b = true ->
  words (spaced_out lines ++ b ++ y) = words (spaced_out lines ++ y).
Proof.
  intros Hb. destruct lines as [|l lines].
  - simpl. now apply words_blank_front.
  - destruct (spaced_out_ends (l :: lines) ltac:(discriminate)) as [x ->].
    destruct b as [|c b]; [reflexivity|].
    rewrite <- !app_assoc.
    apply (words_context x ([" "%char] ++ c :: b) [" "%char] y).
    apply same_words_blank; try discriminate; [|reflexivity].
    exact Hb.
Qed.

Lemma spaced_suffix (l1 l2 : list str) : spaced (l1 ++ l2) -> spaced l2.
Proof.
  induction l1 as [|p l1 IH]; [tauto|]. intros H. apply IH.
  simpl in H. destruct (l1 ++ l2); [exact I|]. tauto.
Qed.

Lemma spaced_adjacent (l1 : list str) (p q : str) (l2 : list str) :
  spaced (l1 ++ p :: q :: l2) -> blank p = false -> blank q = true.
Proof.
  intros H. apply spaced_suffix in H. simpl in H. tauto.
Qed.

Lemma concat_nonempty (d : list str) :
  d <> [] -> Forall (fun p => p <> []) d -> concat d <> [].
Proof.
  destruct d as [|p d]; [congruence|]. intros _ H.
  apply Forall_inv in H. simpl. destruct p; [congruence|discriminate].
Qed.

Lemma words_join_spaced_out (lines : list str) :
  words (join (lit " ") lines) = words (spaced_out lines).
Proof.
  assert (H : forall lines, lines <> [] ->
                            spaced_out lines = join (lit " ") lines ++ [" "%char]).
  { clear. induction lines as [|l lines IH]; [congruence|]. intros _.
    destruct lines as [|l' lines].
    - unfold spaced_out. simpl. now rewrite app_nil_r.
    - change (spaced_out (l :: l' :: lines))
        with ((l ++ [" "%char]) ++ spaced_out (l' :: lines)).
      rewrite IH by discriminate.
      change (join (lit " ") (l :: l' :: lines))
        with (l ++ lit " " ++ join (lit " ") (l' :: lines)).
      now rewrite <- !app_assoc. }
  destruct lines as [|l lines]; [reflexivity|].
  rewrite H by discriminate. symmetry. now apply words_blank_back.
Qed.

(** A pass over pieces that are spaced keeps the words: the lines made so
    far, a space behind each, followed by what is left to wrap, read as
    before. *)
Lemma wrap_pass_words (width : Z) (chunks lines chunks' lines' : list str) :
  1 <= width -> chunks <> [] ->
  spaced chunks -> Forall (fun p => p <> []) chunks ->
  wrap_pass width false chunks lines = (chunks', lines') ->
  spaced chunks' /\ Forall (fun p => p <> []) chunks' /\
  words (spaced_out lines' ++ concat chunks')
  = words (spaced_out lines ++ concat chunks).
Proof.
  intros Hw Hne Hsp Hnn Hp.
  apply wrap_pass_keep in Hp
    as (d1 & g & d2 & Hc & Hb1 & Hb2 & Hl & _ & _ & Hlast & _);
    [|exact Hw|exact Hne].
  subst chunks.
  assert (Hsp' : spaced chunks').
  { rewrite !app_assoc in Hsp. now apply spaced_suffix in Hsp. }
  assert (Hnn' : Forall (fun p => p <> []) chunks').
  { rewrite !app_assoc in Hnn. now apply Forall_app in Hnn as [_ ?]. }
  split; [exact Hsp'|]. split; [exact Hnn'|].
  apply blank_concat in Hb1 as HB1. apply blank_concat in Hb2 as HB2.
  rewrite !concat_app.
  rewrite (words_after_lines lines (concat d1)) by exact HB1.
  destruct g as [|p g].
  - subst lines'. simpl. symmetry. now apply words_after_lines.
  - subst lines'. rewrite spaced_out_snoc.
    set (G := concat (p :: g)). set (O := spaced_out lines).
    destruct d2 as [|b d2].
    + specialize (Hlast eq_refl). cbn [concat app].
      destruct chunks' as [|c rest].
      * cbn [concat]. rewrite !app_nil_r, app_assoc.
        apply words_blank_back. reflexivity.
      * assert (Hcb : blank c = true).
        { destruct (exists_last (l := p :: g) ltac:(discriminate)) as (g0 & q & Hg).
          rewrite Hg in Hsp, Hlast. rewrite last_snoc in Hlast.
          rewrite <- !app_assoc in Hsp. simpl in Hsp.
          rewrite app_assoc in Hsp.
          eapply spaced_adjacent; [exact Hsp|]. now apply Hlast. }
        assert (Hcn : c <> []) by (now apply Forall_inv in Hnn').
        cbn [concat].
        replace ((O ++ G ++ [" "%char]) ++ c ++ concat rest)
          with ((O ++ G) ++ ([" "%char] ++ c) ++ concat rest)
          by (now rewrite <- !app_assoc).
        replace (O ++ G ++ c ++ concat rest)
          with ((O ++ G) ++ c ++ concat rest)
          by (now rewrite <- !app_assoc).
        apply words_context.
        apply same_words_blank; try assumption. discriminate.
    + replace ((O ++ G ++ [" "%char]) ++ concat chunks')
        with ((O ++ G) ++ [" "%char] ++ concat chunks')
        by (now rewrite <- !app_assoc).
      replace (O ++ G ++ concat (b :: d2) ++ concat chunks')
        with ((O ++ G) ++ concat (b :: d2) ++ concat chunks')
        by (now rewrite <- !app_assoc).
      apply words_context.
      apply same_words_blank; try reflexivity; try discriminate; [exact HB2|].
      apply concat_nonempty; [discriminate|].
      rewrite !app_assoc in Hnn. apply Forall_app in Hnn as [Hnn _].
      now apply Forall_app in Hnn as [_ ?].
Qed.

(** With [break_long_words] off and pieces that are spaced, joining the
    lines with single spaces gives the words of the pieces back. *)
Lemma wrap_chunks_words (chunks : list str) (width : Z) (lines : list str) :
  spaced chunks -> Forall (fun p => p <> []) chunks ->
  wrap_chunks chunks width false = Ret lines ->
  words (join (lit " ") lines) = words (concat chunks).
Proof.
  intros Hsp Hnn H. apply wrap_chunks_inv in H as [Hw H].
  pose (I := fun (todo done : list str) =>
               spaced todo /\ Forall (fun p => p <> []) todo /\
               words (spaced_out done ++ concat todo) = words (concat chunks)).
  assert (HI : I [] lines).
  { eapply (wrap_loop_invariant I); [|shelve|exact H].
    intros todo done todo' done' Hne (Hs & Hn & Hwd) Hp.
    destruct (wrap_pass_words width todo done todo' done' ltac:(lia) Hne Hs Hn Hp)
      as (Hs' & Hn' & Hwd').
    repeat split; try assumption. now rewrite Hwd'. }
  Unshelve.
  - destruct HI as (_ & _ & HI). simpl in HI. rewrite app_nil_r in HI.
    now rewrite words_join_spaced_out.
  - repeat split; assumption.
Qed.

(** For a text without hyphens, joining the lines of [wrap] with single
    spaces gives the words of the text back. *)
Lemma wrap_words (text : str) (width : Z) (lines : list str) :
  no_hyphen text ->
  wrap text width false = Ret lines ->
  words (join (lit " ") lines) = words text.
Proof.
  intros Hh H. unfold wrap, split_chunks in H.
  destruct (split_by_turns _ (no_hyphen_munge_whitespace _ Hh)) as [b Hb].
  apply by_turns_spaced in Hb as [Hs Hn].
  rewrite (wrap_chunks_words _ _ _ Hs Hn H), split_concat.
  apply words_munge_whitespace.
Qed.

(** *** Where the splitter cuts *)

Lemma last_rev_cons {A} (a : A) (l : list A) : last (rev (a :: l)) = Some a.
Proof. cbn [rev]. apply last_snoc. Qed.

Lemma scan_state_kind (k : kind) (cur : str) :
  scan_state k cur -> cur <> [] -> of_one_kind (rev cur).
Proof.
  unfold of_one_kind. intros H Hne.
  destruct k; cbn [scan_state] in H.
  - congruence.
  - exists true. rewrite forallb_rev. apply H.
  - exists false. rewrite forallb_rev. apply H.
  - exists false. rewrite forallb_rev. apply H.
  - exists false. rewrite forallb_rev. apply H.
Qed.

Lemma emdash_at_hyphen (before : str) (c : ascii) (r : str) :
  emdash_at before (c :: r) = true -> c = "-"%char.
Proof.
  unfold emdash_at. destruct before as [|p before]; [discriminate|].
  intros H. apply andb_true_iff in H as [_ H]. cbn [hyphens_then_word] in H.
  unfold is_hyphen in H. destruct (Ascii.eqb c "-") eqn:E.
  - now apply Ascii.eqb_eq.
  - discriminate.
Qed.

Lemma start_kind_state (before : str) (c : ascii) (r : str) :
  scan_state (start_kind before (c :: r)) [c].
Proof.
  unfold start_kind. destruct (is_whitespace c) eqn:Ew.
  - cbn. rewrite Ew. split; [discriminate|reflexivity].
  - destruct (emdash_at before (c :: r)) eqn:Ed.
    + apply emdash_at_hyphen in Ed. subst c. cbn. split; [eauto|reflexivity].
    + cbn. rewrite Ew. split; [discriminate|reflexivity].
Qed.

Lemma extend_state (k k' : kind) (before cur : str) (c : ascii) (r : str) :
  scan_state k cur -> extend k before c r = Some k' ->
  scan_state k' (c :: cur).
Proof.
  intros H E. destruct k; cbn [extend scan_state] in *; try discriminate.
  - destruct (is_whitespace c) eqn:Ew; [|discriminate]. inversion E; subst.
    cbn [scan_state forallb]. rewrite Ew. split; [discriminate|apply H].
  - unfold is_hyphen in E. destruct (Ascii.eqb c "-") eqn:Eh; [|discriminate].
    apply Ascii.eqb_eq in Eh. subst c. inversion E; subst.
    cbn [scan_state]. split; [eauto|]. cbn [forallb].
    change (Bool.eqb (is_whitespace "-") false) with true. apply H.
  - destruct (is_hyphen c && hyphen_lookbehind before && hyphen_lookahead r)
      eqn:Eh.
    + inversion E; subst. apply andb_true_iff in Eh as [Eh _].
      apply andb_true_iff in Eh as [Eh _]. apply Ascii.eqb_eq in Eh. subst c.
      cbn [scan_state]. split; [eauto|]. cbn [forallb].
      change (Bool.eqb (is_whitespace "-") false) with true. apply H.
    + destruct (is_whitespace c) eqn:Ew; [discriminate|].
      destruct (emdash_at before (c :: r)); [discriminate|].
      inversion E; subst. cbn [scan_state forallb]. rewrite Ew.
      split; [discriminate|apply H].
Qed.

(** The cut the scan makes when the piece [cur] cannot take [c]. *)
Lemma extend_cut (k : kind) (before cur : str) (a c : ascii) (r : str) :
  scan_state k (a :: cur) -> extend k before c r = None -> cut_ok a c.
Proof.
  intros H E. unfold cut_ok.
  destruct k; cbn [extend scan_state] in *.
  - discriminate (H).
  - destruct H as [_ H]. cbn [forallb] in H.
    apply andb_true_iff in H as [Ha _]. apply Bool.eqb_prop in Ha.
    destruct (is_whitespace c) eqn:Ew; [discriminate|]. left. congruence.
  - destruct H as [[cur' H] _]. inversion H; subst. auto.
  - destruct H as [_ H]. cbn [forallb] in H.
    apply andb_true_iff in H as [Ha _]. apply Bool.eqb_prop in Ha.
    destruct (is_hyphen c && hyphen_lookbehind before && hyphen_lookahead r);
      [discriminate|].
    destruct (is_whitespace c) eqn:Ew; [left; congruence|].
    destruct (emdash_at before (c :: r)) eqn:Ed; [|discriminate].
    apply emdash_at_hyphen in Ed. auto.
  - destruct H as [[cur' H] _]. inversion H; subst. auto.
Qed.

Lemma wordsep_scan_cuts (rest : str) :
  forall before cur k,
    scan_state k cur ->
    Forall of_one_kind (wordsep_scan before cur k rest) /\
    word_cuts (wordsep_scan before cur k rest) /\
    (cur <> [] ->
     exists tl L, wordsep_scan before cur k rest = (rev cur ++ tl) :: L).
Proof.
  induction rest as [|c r IH]; intros before cur k Hk.
  - cbn [wordsep_scan]. destruct cur as [|a cur].
    + cbn [emit]. split; [constructor|]. split; [exact I|congruence].
    + cbn [emit]. split; [|split; [exact I|]].
      * constructor; [|constructor].
        apply (scan_state_kind k); [exact Hk|discriminate].
      * intros _. exists [], []. now rewrite app_nil_r.
  - cbn [wordsep_scan]. destruct (extend k before c r) as [k'|] eqn:E.
    + destruct (IH (c :: before) (c :: cur) k' (extend_state _ _ _ _ _ _ Hk E))
        as (H1 & H2 & H3).
      split; [exact H1|]. split; [exact H2|]. intros _.
      destruct (H3 ltac:(discriminate)) as (tl & L & ->).
      exists (c :: tl), L. cbn [rev]. now rewrite <- app_assoc.
    + destruct (IH (c :: before) [c] (start_kind before (c :: r))
                  (start_kind_state before c r)) as (H1 & H2 & H3).
      destruct (H3 ltac:(discriminate)) as (tl & L & EL).
      destruct cur as [|a cur].
      * cbn [emit]. split; [exact H1|]. split; [exact H2|congruence].
      * cbn [emit]. split; [|split].
        -- constructor; [|exact H1].
           apply (scan_state_kind k); [exact Hk|discriminate].
        -- rewrite EL. rewrite EL in H2. cbn [word_cuts]. split; [|exact H2].
           exists a, c. split; [apply last_rev_cons|]. split; [reflexivity|].
           exact (extend_cut _ _ _ _ _ _ Hk E).
        -- intros _. exists [], (wordsep_scan (c :: before) [c]
                                   (start_kind before (c :: r)) r).
           now rewrite app_nil_r.
Qed.

(** The pieces of the splitter are each of one kind, and are cut from the
    text at the edges of whitespace or next to a hyphen only. *)
Lemma split_cuts (text : str) :
  Forall of_one_kind (split text) /\ word_cuts (split text).
Proof.
  destruct (wordsep_scan_cuts text [] [] Idle eq_refl) as (H1 & H2 & _).
  split; assumption.
Qed.

(** *** The lines against the text *)

Lemma wrap_loop_layout (width : Z) :
  1 <= width ->
  forall fuel chunks lines out,
    Forall (fun p => p <> []) chunks ->
    wrap_loop fuel width false chunks lines = Some out ->
    exists groups,
      out = lines ++ map (@concat ascii) groups /\
      layout (negb (bool_decide (lines = []))) chunks groups.
Proof.
  intros Hw. induction fuel as [|fuel IH]; intros chunks lines out Hne H.
  - destruct chunks; [|discriminate]. inversion H; subst.
    exists []. rewrite app_nil_r. split; [reflexivity|].
    apply layout_end. constructor.
  - destruct chunks as [|c chunks].
    { inversion H; subst. exists []. rewrite app_nil_r.
      split; [reflexivity|]. apply layout_end. constructor. }
    simpl in H.
    destruct (wrap_pass width false (c :: chunks) lines) as [chunks' lines'] eqn:E.
    apply wrap_pass_keep in E
      as (d1 & g & d2 & Hc & Hb1 & Hb2 & Hl & _ & Hfirst & Hlast & _ & Hfront);
      [|exact Hw|discriminate].
    rewrite Hc in Hne.
    assert (Hne' : Forall (fun p => p <> []) chunks').
    { rewrite !app_assoc in Hne. now apply Forall_app in Hne as [_ ?]. }
    apply (IH _ _ _ Hne') in H as (groups & -> & Hlay). rewrite Hc.
    destruct g as [|p g].
    + subst lines'. exists groups. split; [reflexivity|]. cbn [app].
      clear - Hb1 Hb2 Hlay Hfirst.
      assert (Hprep : forall previous d pieces groups,
                 all_blank d -> (previous = false -> d = []) ->
                 layout previous pieces groups ->
                 layout previous (d ++ pieces) groups).
      { clear. intros previous d pieces groups Hd Hp H.
        destruct H as [previous d' Hd'|previous d1 g d2 rest groups
                                        H1 H2 Hg Hq Hl Hr].
        - apply layout_end. now apply Forall_app.
        - rewrite app_assoc. apply layout_line; try assumption.
          + now apply Forall_app.
          + intros Hprev E. apply app_eq_nil in E as [_ E]. now apply Hq. }
      destruct (bool_decide (lines = [])) eqn:El.
      * apply bool_decide_eq_true in El. rewrite (Hfirst El). cbn [app negb].
        cbn [negb] in Hlay. destruct d2 as [|b d2]; [exact Hlay|].
        clear - Hb2 Hlay.
        destruct Hlay as [previous d' Hd'|previous d1 g d2' rest groups
                                          H1 H2 Hg Hq Hl Hr].
        -- apply layout_end. now apply Forall_app.
        -- rewrite app_assoc. apply layout_line; try assumption.
           ++ now apply Forall_app.
           ++ discriminate.
      * cbn [negb] in *. apply Hprep; [assumption|discriminate|].
        apply Hprep; [assumption|discriminate|exact Hlay].
    + subst lines'. exists ((p :: g) :: groups). split.
      * rewrite <- app_assoc. reflexivity.
      * replace (negb (bool_decide (lines ++ [concat (p :: g)] = []))) with true
          in Hlay
          by (symmetry; apply negb_true_iff, bool_decide_eq_false;
              intros E0; apply app_eq_nil in E0 as [_ E0]; discriminate).
        apply layout_line; try assumption; [discriminate|].
        intros Hprev Hd1 q Hq.
        apply negb_true_iff, bool_decide_eq_false in Hprev.
        apply (Hfront Hprev Hd1 q). exact Hq.
Qed.

Lemma last_concat_snoc (g : list str) (p : str) :
  p <> [] -> last (concat (g ++ [p])) = last p.
Proof.
  intros Hp. rewrite concat_app. cbn [concat]. rewrite app_nil_r.
  destruct p as [|a p _] using rev_ind; [congruence|].
  rewrite app_assoc, !last_snoc. reflexivity.
Qed.

Lemma of_one_kind_not_blank (p : str) (a : ascii) :
  of_one_kind p -> blank p = false -> In a p -> is_whitespace a = false.
Proof.
  intros [b Hb] Hblank Ha. destruct b.
  - apply by_turns_blank in Hb. congruence.
  - rewrite forallb_forall in Hb. specialize (Hb a Ha).
    now apply Bool.eqb_prop in Hb.
Qed.

Lemma word_cuts_suffix (l1 l2 : list str) : word_cuts (l1 ++ l2) -> word_cuts l2.
Proof.
  induction l1 as [|p l1 IH]; [tauto|]. intros H. apply IH.
  cbn [app word_cuts] in H. destruct (l1 ++ l2); [exact I|]. tauto.
Qed.

(** The text read along a layout: some whitespace, and then the lines
    with whitespace or a hyphen at every cut. *)
Lemma layout_chunked (previous : bool) (pieces : list str)
    (groups : list (list str)) :
  layout previous pieces groups ->
  Forall (fun p => p <> []) pieces -> Forall of_one_kind pieces ->
  word_cuts pieces ->
  match groups with
  | [] => blank (concat pieces) = true
  | g :: _ =>
      exists d1 tail,
        pieces = d1 ++ g ++ tail /\ all_blank d1 /\ g <> [] /\
        (previous = true -> d1 = [] ->
         forall q, head g = Some q -> blank q = false) /\
        chunked (concat (g ++ tail)) (map (@concat ascii) groups)
  end.
Proof.
  induction 1 as [previous d Hd|previous d1 g d2 rest groups
                                  H1 H2 Hg Hq Hl Hr IH];
    intros Hne Hkind Hcuts.
  - now apply blank_concat.
  - exists d1, (d2 ++ rest). split; [reflexivity|]. split; [exact H1|].
    split; [exact Hg|]. split; [exact Hq|].
    assert (Hne' : Forall (fun p => p <> []) rest)
      by (rewrite !app_assoc in Hne; now apply Forall_app in Hne as [_ ?]).
    assert (Hkind' : Forall of_one_kind rest)
      by (rewrite !app_assoc in Hkind; now apply Forall_app in Hkind as [_ ?]).
    assert (Hcuts' : word_cuts rest)
      by (rewrite !app_assoc in Hcuts; now apply word_cuts_suffix in Hcuts).
    specialize (IH Hne' Hkind' Hcuts').
    apply blank_concat in H2 as HB2.
    destruct groups as [|g' groups].
    + cbn [map]. rewrite !concat_app. apply chunked_last.
      now rewrite blank_app, HB2, IH.
    + destruct IH as (d1' & tail' & Erest & Hb1' & Hg' & Hq' & Hch).
      cbn [map]. rewrite Erest, !concat_app.
      rewrite <- (concat_app g' tail').
      rewrite (app_assoc (concat d2)).
      apply blank_concat in Hb1' as HB1'.
      apply chunked_cons; [now rewrite blank_app, HB2, HB1'| |exact Hch].
      destruct d2 as [|b d2].
      2:{ left.
          assert (Hb : b <> []).
          { rewrite !app_assoc in Hne. apply Forall_app in Hne as [Hne _].
            apply Forall_app in Hne as [_ Hne]. now apply Forall_inv in Hne. }
          cbn [concat]. destruct b; [congruence|discriminate]. }
      destruct d1' as [|b d1'].
      2:{ left.
          assert (Hb : b <> []).
          { rewrite Erest in Hne'. apply Forall_app in Hne' as [Hne' _].
            now apply Forall_inv in Hne'. }
          cbn [concat app]. destruct b; [congruence|discriminate]. }
      right. cbn [app] in *.
      destruct (exists_last Hg) as (g0 & p & Eg).
      destruct g' as [|q g0']; [congruence|].
      specialize (Hl eq_refl p). rewrite Eg, last_snoc in Hl.
      specialize (Hl eq_refl).
      specialize (Hq' eq_refl eq_refl q eq_refl).
      assert (Hpq : word_cuts (p :: q :: g0' ++ tail')).
      { rewrite Erest, Eg in Hcuts. cbn [app] in Hcuts.
        rewrite <- !app_assoc in Hcuts. rewrite app_assoc in Hcuts.
        apply word_cuts_suffix in Hcuts. exact Hcuts. }
      destruct Hpq as [(a & b & Ha & Hb & Hab) _].
      assert (Hp : In p (d1 ++ g ++ [] ++ rest))
        by (rewrite Eg; apply in_or_app; right; apply in_or_app; left;
            apply in_or_app; right; now left).
      assert (Hqin : In q (d1 ++ g ++ [] ++ rest))
        by (rewrite Erest; apply in_or_app; right; apply in_or_app; right;
            now left).
      assert (Hpne : p <> []) by (destruct p; [discriminate|discriminate]).
      rewrite Eg, last_concat_snoc by exact Hpne. rewrite Ha.
      assert (Hqh : head (concat (q :: g0')) = Some b).
      { cbn [concat]. destruct q as [|x q]; [discriminate|]. exact Hb. }
      rewrite Hqh.
      assert (Wa : is_whitespace a = false).
      { apply (of_one_kind_not_blank p); [|exact Hl|].
        - exact (proj1 (List.Forall_forall _ _) Hkind p Hp).
        - destruct p as [|x p0 _] using rev_ind; [discriminate|].
          rewrite last_snoc in Ha. inversion Ha; subst.
          apply in_or_app. right. now left. }
      assert (Wb : is_whitespace b = false).
      { apply (of_one_kind_not_blank q); [|exact Hq'|].
        - exact (proj1 (List.Forall_forall _ _) Hkind q Hqin).
        - destruct q as [|x q]; [discriminate|]. cbn in Hb.
          inversion Hb; subst. now left. }
      destruct Hab as [Hab|[Hab|Hab]]; [congruence|left|right]; now subst.
Qed.

(** With [break_long_words] off the munged text is the lines of [wrap]
    put side by side, with whitespace in front of them, between them and
    behind them; two lines that have nothing between them meet at a
    hyphen. *)
Lemma wrap_chunked (text : str) (width : Z) (lines : list str) :
  wrap text width false = Ret lines ->
  exists d0 body,
    munge_whitespace text = d0 ++ body /\ blank d0 = true /\
    chunked body lines.
Proof.
  intros H. unfold wrap in H. apply wrap_chunks_inv in H as [Hw H].
  pose proof (split_nonempty (munge_whitespace text)) as Hne.
  destruct (split_cuts (munge_whitespace text)) as [Hkind Hcuts].
  fold (split_chunks text) in Hne, Hkind, Hcuts.
  apply (wrap_loop_layout width ltac:(lia) _ _ _ _ Hne) in H
    as (groups & -> & Hlay).
  cbn [app]. apply layout_chunked in Hlay; try assumption.
  rewrite <- (split_concat (munge_whitespace text)).
  fold (split_chunks text).
  destruct groups as [|g groups].
  - exists (concat (split_chunks text)), []. rewrite app_nil_r.
    split; [reflexivity|]. split; [exact Hlay|]. now apply chunked_nil.
  - destruct Hlay as (d1 & tail & E & Hb1 & _ & _ & Hch).
    exists (concat d1), (concat (g ++ tail)).
    split; [now rewrite E, concat_app|]. split; [now apply blank_concat|exact Hch].
Qed.

(** Whitespace between two strings keeps their words apart. *)
Lemma words_acc_gap (word a d b : str) :
  blank d = true -> d <> [] ->
  words_acc word (a ++ d ++ b) = words_acc word a ++ words b.
Proof.
  intros Hd Hne. revert word. induction a as [|x a IH]; intros word.
  - cbn [app words_acc]. rewrite words_acc_blank by assumption.
    destruct word; reflexivity.
  - cbn [app words_acc]. destruct (isspace x); [|apply IH].
    rewrite IH. destruct word; reflexivity.
Qed.

(** When no line begins or ends with a hyphen, the lines joined with
    single spaces read like the text they were cut from. *)
Lemma chunked_words (body : str) (lines : list str) :
  chunked body lines ->
  Forall (fun l => last l <> Some "-"%char /\ head l <> Some "-"%char) lines ->
  words (join (lit " ") lines) = words body.
Proof.
  induction 1 as [d Hd|c d Hd|c d c' rest text Hd Hcut Hch IH]; intros Hh.
  - cbn [join]. symmetry. rewrite <- (app_nil_r d). now apply words_blank_front.
  - cbn [join]. symmetry. now apply words_blank_back.
  - inversion Hh as [|? ? [Hc _] Hh']; subst. inversion Hh' as [|? ? [_ Hc'] _]; subst.
    destruct Hcut as [Hne|[Hl|Hf]]; [|congruence|congruence].
    change (join (lit " ") (c :: c' :: rest))
      with (c ++ [" "%char] ++ join (lit " ") (c' :: rest)).
    unfold words at 1 2.
    rewrite (words_acc_gap [] c [" "%char]) by (reflexivity || discriminate).
    rewrite (words_acc_gap [] c d) by assumption.
    f_equal. now apply IH.
Qed.

(** Without tabs, munging turns every whitespace character into a space
    and leaves the rest. *)
Lemma expandtabs_from_no_tab (tabsize col : nat) (s : str) :
  Forall (fun c => c <> "009"%char) s -> expandtabs_from tabsize col s = s.
Proof.
  intros H. revert col. induction H as [|c s Hc _ IH]; intros col;
    cbn [expandtabs_from]; [reflexivity|].
  destruct (Ascii.eqb c "009") eqn:E; [apply Ascii.eqb_eq in E; congruence|].
  now rewrite IH.
Qed.

Lemma munge_whitespace_no_tab (text : str) :
  Forall (fun c => c <> "009"%char) text ->
  munge_whitespace text
  = map (fun c => if is_whitespace c then " "%char else c) text.
Proof.
  intros H. unfold munge_whitespace, expandtabs, translate_whitespace.
  now rewrite expandtabs_from_no_tab.
Qed.

End TextwrapFacts.

(** ** [summarize_text] *)

Section SummarizeFacts.
Import PyStr PyStrFacts Textwrap TextwrapFacts Spec.

Variable model : list str -> str -> outcome str.


(** A single generation call wrapped in [try]/[except]: the shape shared
    by direct mode and by the combination step. *)
Lemma guarded_call (prompt error_prefix : str) (w : world) :
  try_except
    (do response_text <- generate_content_text model prompt;
     ret (report_header ++ strip response_text))
    (fun e => ret (error_prefix ++ exn_str e)) w
  = (Ret (report_of error_prefix (model (gen_log w) prompt)),
     World (gen_log w ++ [prompt]) (info_log w)).
Proof.
  unfold try_except, bind, generate_content_text, ret, report_of.
  destruct (model (gen_log w) prompt); reflexivity.
Qed.

(** Direct mode, run from the world [w]. *)
Lemma summarize_text_direct (text : str) (chunk_size : Z) (w : world) :
  len text <= chunk_size ->
  summarize_text model text chunk_size w
  = (Ret (report_of generating_error (model (gen_log w) (direct_prompt text))),
     World (gen_log w ++ [direct_prompt text]) (info_log w)).
Proof.
  intros H. unfold summarize_text.
  apply Z.leb_le in H. rewrite H. apply guarded_call.
Qed.


Lemma summarize_chunk_run (chunk_summaries : list str) (chunk : str) (w : world) :
  summarize_chunk model chunk_summaries chunk w
  = (Ret (chunk_summaries ++ [chunk_entry model (gen_log w) chunk]),
     World (gen_log w ++ [chunk_prompt chunk]) (info_log w)).
Proof.
  unfold summarize_chunk, try_except, bind, generate_content_text, ret, chunk_entry.
  destruct (model (gen_log w) (chunk_prompt chunk)); reflexivity.
Qed.

(** The [for] loop over the chunks never raises: it sends one prompt per
    chunk and appends one entry per chunk. *)
Lemma summarize_chunks_run (chunks chunk_summaries : list str) (w : world) :
  summarize_chunks model chunks chunk_summaries w
  = (Ret (chunk_summaries ++ chunk_entries model (gen_log w) chunks),
     World (gen_log w ++ map chunk_prompt chunks) (info_log w)).
Proof.
  revert chunk_summaries w.
  induction chunks as [|chunk rest IH]; intros chunk_summaries w; simpl.
  - unfold ret. rewrite !app_nil_r. now destruct w.
  - unfold bind. rewrite summarize_chunk_run, IH. simpl.
    now rewrite <- !app_assoc.
Qed.

Lemma chunk_entries_length (history chunks : list str) :
  length (chunk_entries model history chunks) = length chunks.
Proof.
  revert history. induction chunks as [|c rest IH]; intros history; simpl;
    [reflexivity|]. now rewrite IH.
Qed.

(** Entry [i] answers chunk [i], asked after the chunks in front of it. *)
Lemma chunk_entries_lookup (history chunks : list str) (i : nat) (chunk : str) :
  chunks !! i = Some chunk ->
  chunk_entries model history chunks !! i
  = Some (chunk_entry model (history ++ map chunk_prompt (take i chunks)) chunk).
Proof.
  revert history i. induction chunks as [|c rest IH]; intros history i H.
  - discriminate.
  - destruct i as [|i]; simpl in *.
    + inversion H; subst. now rewrite app_nil_r.
    + rewrite (IH _ _ H). now rewrite <- app_assoc.
Qed.

(** Chunked mode, run from the world [w], once the text is wrapped. *)
Lemma summarize_text_chunked (text : str) (chunk_size : Z) (w : world)
    (chunks : list str) :
  chunk_size < len text ->
  wrap text chunk_size false = Ret chunks ->
  let entries := chunk_entries model (gen_log w) chunks in
  let notes := join [nl] entries in
  let asked := gen_log w ++ map chunk_prompt chunks in
  summarize_text model text chunk_size w
  = (Ret (report_of combining_error (model asked (final_prompt notes))),
     World (asked ++ [final_prompt notes]) (info_log w)).
Proof.
  intros Hlen Hwrap. simpl. unfold summarize_text.
  apply Z.leb_gt in Hlen. rewrite Hlen, Hwrap.
  unfold bind at 1. unfold lift.
  unfold bind at 1. rewrite summarize_chunks_run. cbv beta iota.
  rewrite guarded_call. reflexivity.
Qed.

(** With a width that is not positive, chunked mode stops at
    [textwrap.wrap]: no prompt goes out. *)
Lemma summarize_text_bad_width (text : str) (chunk_size : Z) (w : world) :
  chunk_size < len text -> chunk_size <= 0 ->
  summarize_text model text chunk_size w
  = (Raise (invalid_width chunk_size), w).
Proof.
  intros Hlen Hw. unfold summarize_text.
  apply Z.leb_gt in Hlen. rewrite Hlen.
  unfold wrap. rewrite wrap_chunks_nonpositive by exact Hw. reflexivity.
Qed.

End SummarizeFacts.

Section SummarizeClaims.
Import PyStr PyStrFacts Textwrap TextwrapFacts Spec.

Variable model : list str -> str -> outcome str.

(** C2: for every transcript text with [len text <= chunk_size] (the
    empty string included) [summarize_text] takes direct mode: it sends
    exactly one prompt to the model, the direct one, and no chunk prompt;
    when that call succeeds it returns the model's text, stripped, under
    the fixed header [### Video Summary Report]. *)
Theorem summarize_text_direct_mode (text : str) (chunk_size : Z) (w : world) :
  len text <= chunk_size ->
  let run := summarize_text model text chunk_size w in
  gen_log run.2 = gen_log w ++ [direct_prompt text] /\
  info_log run.2 = info_log w /\
  forall response_text,
    model (gen_log w) (direct_prompt text) = Returns response_text ->
    run.1 = Ret (lit "### Video Summary Report" ++ [nl; nl]
                   ++ strip response_text).
Proof.
  intros H. cbv zeta. rewrite (summarize_text_direct model) by exact H.
  simpl. repeat split. intros response_text ->. reflexivity.
Qed.

(** C5: in direct mode, when the single generation call fails,
    [summarize_text] does not raise: it returns a string, the error
    message [Error generating summary: ] followed by the text of the
    exception. *)
Theorem summarize_text_direct_failure (text : str) (chunk_size : Z)
    (w : world) (e : exn) :
  len text <= chunk_size ->
  model (gen_log w) (direct_prompt text) = Fails e ->
  (summarize_text model text chunk_size w).1
  = Ret (generating_error ++ exn_str e).
Proof.
  intros H He. rewrite (summarize_text_direct model) by exact H.
  simpl. now rewrite He.
Qed.


(** C3 (amended): in chunked mode with a positive width
    [summarize_text] completes whatever the per-chunk calls do. The
    combination prompt is built from one entry per chunk, joined with
    newlines in the order of the chunks: entry [i] is the stripped answer to
    chunk [i] when that call succeeded and the literal
    [Error summarizing this chunk.] (with its full stop) when it failed.
    The function then returns the combined report, or the combination
    error message when that last call fails. *)
Theorem summarize_text_chunk_failure (text : str) (chunk_size : Z) (w : world) :
  0 < chunk_size -> chunk_size < len text ->
  exists chunks entries report,
    wrap text chunk_size false = Ret chunks /\
    summarize_text model text chunk_size w
    = (Ret report,
       World (gen_log w ++ map chunk_prompt chunks
                ++ [final_prompt (join [nl] entries)])
             (info_log w)) /\
    length entries = length chunks /\
    (forall i chunk,
        chunks !! i = Some chunk ->
        entries !! i =
        Some match model (gen_log w ++ map chunk_prompt (take i chunks))
                     (chunk_prompt chunk) with
             | Returns response_text => strip response_text
             | Fails _ => lit "Error summarizing this chunk."
             end) /\
    report = match model (gen_log w ++ map chunk_prompt chunks)
                         (final_prompt (join [nl] entries)) with
             | Returns response_text => report_header ++ strip response_text
             | Fails e => combining_error ++ exn_str e
             end.
Proof.
  intros Hw Hlen.
  destruct (wrap_returns text chunk_size false Hw) as [chunks Hc].
  exists chunks, (chunk_entries model (gen_log w) chunks). eexists.
  split; [exact Hc|]. split.
  - rewrite (summarize_text_chunked model text chunk_size w chunks Hlen Hc).
    now rewrite <- app_assoc.
  - split; [apply chunk_entries_length|]. split; [|reflexivity].
    intros i chunk Hi. now apply chunk_entries_lookup.
Qed.


End SummarizeClaims.

Import PyStr.

Lemma summarize_text_direct_mode_witness :
  len (lit "") <= 2000 /\
  let run := summarize_text Sample.steady_model (lit "") 2000 Sample.fresh in
  gen_log run.2 = [direct_prompt (lit "")] /\
  run.1 = Ret (lit "### Video Summary Report" ++ [nl; nl] ++ lit "- a point").
Proof.
  assert (H : len (lit "") <= 2000) by (vm_compute; discriminate).
  split; [exact H|].
  destruct (summarize_text_direct_mode Sample.steady_model (lit "") 2000
              Sample.fresh H) as (Hlog & _ & Hret).
  split; [exact Hlog|].
  exact (Hret (lit " - a point
") eq_refl).
Defined.

Lemma summarize_text_direct_failure_witness :
  (summarize_text Sample.failing_model (lit "short talk") 2000 Sample.fresh).1
  = Ret (generating_error ++ lit "429 quota exceeded").
Proof.
  apply (summarize_text_direct_failure Sample.failing_model (lit "short talk")
           2000 Sample.fresh Sample.quota_error).
  - vm_compute. discriminate.
  - reflexivity.
Defined.

Lemma summarize_text_chunk_failure_witness :
  exists chunks entries report,
    Textwrap.wrap (lit "aaa bbb ccc") 3 false = Ret chunks /\
    summarize_text Sample.flaky_model (lit "aaa bbb ccc") 3 Sample.fresh
    = (Ret report,
       World ([] ++ map chunk_prompt chunks ++ [final_prompt (join [nl] entries)])
             []) /\
    length entries = length chunks /\
    (forall i chunk,
        chunks !! i = Some chunk ->
        entries !! i =
        Some match Sample.flaky_model ([] ++ map chunk_prompt (take i chunks))
                     (chunk_prompt chunk) with
             | Returns response_text => strip response_text
             | Fails _ => lit "Error summarizing this chunk."
             end) /\
    report = match Sample.flaky_model ([] ++ map chunk_prompt chunks)
                         (final_prompt (join [nl] entries)) with
             | Returns response_text => report_header ++ strip response_text
             | Fails e => combining_error ++ exn_str e
             end.
Proof.
  apply (summarize_text_chunk_failure Sample.flaky_model (lit "aaa bbb ccc") 3
           Sample.fresh).
  - lia.
  - vm_compute. reflexivity.
Defined.

(** C3 as stated fails on the literal: with three chunks of which the
    second fails, the combination input carries
    [Error summarizing this chunk.], full stop included, and not the string
    the claim quotes. *)
Lemma summarize_text_chunk_failure_counterexample :
  let run := summarize_text Sample.flaky_model (lit "aaa bbb ccc") 3 Sample.fresh in
  Textwrap.wrap (lit "aaa bbb ccc") 3 false = Ret [lit "aaa"; lit "bbb"; lit "ccc"] /\
  last (gen_log run.2)
  = Some (final_prompt
            (join [nl] [lit "ok"; lit "Error summarizing this chunk."; lit "ok"])) /\
  last (gen_log run.2)
  <> Some (final_prompt
             (join [nl] [lit "ok"; lit "Error summarizing this chunk"; lit "ok"])).
Proof.
  cbv zeta. split; [vm_compute; reflexivity|].
  split; [vm_compute; reflexivity|]. vm_compute. discriminate.
Qed.


(** ** Chunking *)

Section ChunkingClaims.
Import PyStr PyStrFacts Textwrap TextwrapFacts Spec.

Variable model : list str -> str -> outcome str.

(** C1 (amended): for every transcript text longer than a positive
    [chunk_size], [summarize_text] asks the model about the chunks that
    [textwrap.wrap] makes of the text, and
    - every chunk is a group of whole pieces of the splitter, put side by
      side: no piece is split across two chunks;
    - a piece is never empty, it is a run of whitespace or holds no
      whitespace at all, and the cut between two neighbouring pieces lies
      between whitespace and something else or next to a hyphen: the pieces
      are the runs of whitespace, the words, the parts of a hyphenated word
      with their hyphen behind them, and the runs of hyphens of an em-dash
      between two words ([x--y] gives [x], [--] and [y]);
    - a chunk is at most [chunk_size] long, unless it is a single piece
      that is longer;
    - the groups are the pieces of the whitespace-munged text in order,
      less some all-whitespace pieces in front of and behind the groups, and
      the layout is greedy: the piece that follows a chunk would not have
      fitted on it;
    - the whitespace-munged text (the text itself with a space for every
      whitespace character, when it holds no tab) is some whitespace and
      then the chunks in order, with whitespace between one chunk and the
      next, or else a hyphen at the cut, and whitespace only behind the
      last;
    - so the chunks hold the characters of the text that are not
      whitespace, all of them and in order;
    - and when no chunk begins or ends with a hyphen (so when the text
      holds no hyphen), joining the chunks with single spaces gives a
      string with the words of the text. *)
Theorem summarize_text_chunking (text : str) (chunk_size : Z) (w : world) :
  0 < chunk_size -> chunk_size < len text ->
  exists chunks groups notes,
    wrap text chunk_size false = Ret chunks /\
    gen_log (summarize_text model text chunk_size w).2
    = gen_log w ++ map chunk_prompt chunks ++ [final_prompt notes] /\
    chunks = map (@concat ascii) groups /\
    Forall (fun g => g <> [] /\
                     (len (concat g) <= chunk_size
                      \/ exists piece, g = [piece] /\ chunk_size < len piece))
           groups /\
    thinned (concat groups) (split_chunks text) /\
    greedy chunk_size (split_chunks text) groups /\
    concat (split_chunks text) = munge_whitespace text /\
    ink (concat chunks) = ink text /\
    (Forall (fun c => c <> "-"%char) text ->
     words (join (lit " ") chunks) = words text) /\
    Forall (fun p => p <> [] /\ of_one_kind p) (split_chunks text) /\
    word_cuts (split_chunks text) /\
    (Forall (fun c => c <> "009"%char) text ->
     munge_whitespace text
     = map (fun c => if is_whitespace c then " "%char else c) text) /\
    (exists front body,
        munge_whitespace text = front ++ body /\ blank front = true /\
        chunked body chunks) /\
    (Forall (fun c => last c <> Some "-"%char /\ head c <> Some "-"%char) chunks ->
     words (join (lit " ") chunks) = words text).
Proof.
  intros Hw Hlen.
  destruct (wrap_returns text chunk_size false Hw) as [chunks Hc].
  destruct (wrap_chunks_greedy _ _ _ Hc) as (groups & Hg & Hgr).
  destruct (wrap_chunked _ _ _ Hc) as (front & body & Hm & Hfront & Hch).
  destruct (split_cuts (munge_whitespace text)) as [Hkind Hcuts].
  exists chunks, groups. eexists.
  split; [exact Hc|]. split.
  - rewrite (summarize_text_chunked model text chunk_size w chunks Hlen Hc).
    simpl. now rewrite <- app_assoc.
  - split; [exact Hg|]. split; [exact (greedy_groups _ _ _ Hgr)|].
    split; [exact (greedy_thinned _ _ _ Hgr)|]. split; [exact Hgr|].
    split; [apply split_concat|]. split; [now apply wrap_ink in Hc|].
    split; [intros Hh; now apply (wrap_words text chunk_size chunks)|].
    split.
    { unfold split_chunks. apply Forall_and; split;
        [apply split_nonempty|exact Hkind]. }
    split; [exact Hcuts|]. split; [apply munge_whitespace_no_tab|].
    split; [now exists front, body|].
    intros Hh. rewrite (chunked_words _ _ Hch Hh).
    rewrite <- (words_munge_whitespace text), Hm.
    now rewrite words_blank_front.
Qed.

End ChunkingClaims.

Lemma summarize_text_chunking_witness :
  exists chunks groups notes,
    Textwrap.wrap (lit "one two  three--four five") 12 false = Ret chunks /\
    chunks = [lit "one two"; lit "three--four"; lit "five"] /\
    gen_log (summarize_text Sample.steady_model (lit "one two  three--four five") 12
               Sample.fresh).2
    = [] ++ map chunk_prompt chunks ++ [final_prompt notes] /\
    chunks = map (@concat ascii) groups /\
    Forall (fun g => g <> [] /\
                     (len (concat g) <= 12
                      \/ exists piece, g = [piece] /\ 12 < len piece))
           groups /\
    Spec.thinned (concat groups)
      (Textwrap.split_chunks (lit "one two  three--four five")) /\
    Spec.greedy 12 (Textwrap.split_chunks (lit "one two  three--four five")) groups /\
    concat (Textwrap.split_chunks (lit "one two  three--four five"))
    = Textwrap.munge_whitespace (lit "one two  three--four five") /\
    Spec.ink (concat chunks) = Spec.ink (lit "one two  three--four five") /\
    Forall (fun p => p <> [] /\ Spec.of_one_kind p)
      (Textwrap.split_chunks (lit "one two  three--four five")) /\
    Spec.word_cuts (Textwrap.split_chunks (lit "one two  three--four five")) /\
    Textwrap.munge_whitespace (lit "one two  three--four five")
    = (lit "one two  three--four five") /\
    (exists front body,
        Textwrap.munge_whitespace (lit "one two  three--four five") = front ++ body /\
        blank front = true /\ Spec.chunked body chunks) /\
    words (join (lit " ") chunks) = words (lit "one two  three--four five").
Proof.
  destruct (summarize_text_chunking Sample.steady_model
              (lit "one two  three--four five") 12 Sample.fresh)
    as (chunks & groups & notes & H1 & H2 & H3 & H4 & H5 & H6 & H7 & H8 & _
        & H10 & H11 & H12 & H13 & H14).
  - lia.
  - vm_compute. reflexivity.
  - assert (Hc : chunks = [lit "one two"; lit "three--four"; lit "five"]).
    { assert (H : Textwrap.wrap (lit "one two  three--four five") 12 false
                  = Ret [lit "one two"; lit "three--four"; lit "five"])
        by (vm_compute; reflexivity).
      rewrite H in H1. now inversion H1. }
    exists chunks, groups, notes.
    split; [exact H1|]. split; [exact Hc|].
    split; [exact H2|]. split; [exact H3|].
    split; [exact H4|]. split; [exact H5|]. split; [exact H6|].
    split; [exact H7|]. split; [exact H8|]. split; [exact H10|].
    split; [exact H11|]. split; [|split; [exact H13|]].
    + rewrite H12; [reflexivity|]. repeat constructor; discriminate.
    + apply H14. rewrite Hc. repeat constructor; discriminate.
Defined.

(** C1 as stated fails in three ways. A word longer than the width is kept
    whole, so its chunk is longer than the width (here a word of 2001
    characters at the default width of 2000); a hyphenated word is cut
    behind its hyphen, so joining the chunks with spaces does not give the
    words of the text back; and with a width of zero there are no chunks at
    all, [textwrap.wrap] raising [ValueError]. *)
Lemma summarize_text_chunking_counterexample :
  (2000 < len (repeat "a"%char 2001) /\
   Textwrap.wrap (repeat "a"%char 2001) 2000 false = Ret [repeat "a"%char 2001] /\
   gen_log (summarize_text_default Sample.steady_model (repeat "a"%char 2001)
              Sample.fresh).2
   = [chunk_prompt (repeat "a"%char 2001); final_prompt (lit "- a point")]) /\
  (6 < len (lit "aaaa-bbbb cc") /\
   Textwrap.wrap (lit "aaaa-bbbb cc") 6 false
   = Ret [lit "aaaa-"; lit "bbbb"; lit "cc"] /\
   words (join (lit " ") [lit "aaaa-"; lit "bbbb"; lit "cc"])
   = [lit "aaaa-"; lit "bbbb"; lit "cc"] /\
   words (lit "aaaa-bbbb cc") = [lit "aaaa-bbbb"; lit "cc"]) /\
  (0 < len (lit "a") /\
   summarize_text Sample.steady_model (lit "a") 0 Sample.fresh
   = (Raise (Exn ValueError (lit "invalid width 0 (must be > 0)")),
      Sample.fresh)).
Proof. vm_compute. repeat split; discriminate. Qed.

(** ** [get_transcript] *)

Section TranscriptClaims.
Import PyStr PyStrFacts Spec.

Variable YouTubeTranscriptApi_get_transcript :
  str -> outcome (list (gmap string str)).

(** Reading the texts of the entries returns or raises [KeyError]. *)
Lemma rmap_entry_text (transcript : list (gmap string str)) :
  (exists texts, rmap entry_text transcript = Ret texts)
  \/ rmap entry_text transcript = Raise (key_error "'text'").
Proof.
  induction transcript as [|entry rest IH]; simpl; [left; eauto|].
  assert (He : (exists t, entry_text entry = Ret t)
               \/ entry_text entry = Raise (key_error "'text'")).
  { unfold entry_text. destruct (entry !! "text"%string); eauto. }
  destruct He as [[t ->]| ->]; simpl; [|now right].
  destruct IH as [[texts ->]| ->]; simpl; [left; eauto|now right].
Qed.

(** C4: for every video identifier [get_transcript] returns, and never
    raises: it returns the texts of the entries joined with newlines when
    the provider delivers them, and [None] otherwise. When the provider
    reports transcripts disabled or not found nothing else happens; any
    other failure is only told to the user with [st.info]. *)
Theorem get_transcript_returns (video_id : str) (w : world) :
  let run := get_transcript YouTubeTranscriptApi_get_transcript video_id w in
  exists r : option str,
    run.1 = Ret r /\
    gen_log run.2 = gen_log w /\
    match YouTubeTranscriptApi_get_transcript video_id with
    | Returns transcript =>
        match rmap entry_text transcript with
        | Ret texts => r = Some (join [nl] texts) /\ info_log run.2 = info_log w
        | _ => r = None /\ info_log run.2 = info_log w ++ [whisper_notice]
        end
    | Fails e =>
        r = None /\
        info_log run.2 =
        match exn_cls e with
        | TranscriptsDisabled | NoTranscriptFound => info_log w
        | _ => info_log w ++ [whisper_notice]
        end
    end.
Proof.
  cbv zeta. unfold get_transcript, try_except, bind, lift, ret, st_info.
  destruct (YouTubeTranscriptApi_get_transcript video_id) as [transcript|e]; simpl.
  - destruct (rmap_entry_text transcript) as [[texts ->]| ->]; simpl; eauto.
  - destruct e as [[] msg]; simpl; eauto.
Qed.

End TranscriptClaims.

(** ** [extract_video_id] *)

Section VideoIdClaims.
Import PyStr PyStrFacts Spec.

Variable urlparse_query : str -> result str.
Variable unquote : str -> str.

Lemma join_snoc (sep : str) (init : list str) (x : str) :
  init <> [] -> join sep (init ++ [x]) = join sep init ++ sep ++ x.
Proof.
  induction init as [|a init IH]; [congruence|]. intros _.
  destruct init as [|b init]; [reflexivity|].
  change (join sep ((a :: b :: init) ++ [x]))
    with (a ++ sep ++ join sep ((b :: init) ++ [x])).
  rewrite IH by discriminate.
  change (join sep (a :: b :: init)) with (a ++ sep ++ join sep (b :: init)).
  now rewrite <- !app_assoc.
Qed.

Lemma split_acc_not_nil (sep : ascii) (field s : str) :
  split_acc sep field s <> [].
Proof.
  revert field. induction s as [|c s IH]; intros field; simpl; [discriminate|].
  destruct (Ascii.eqb c sep); [discriminate|apply IH].
Qed.

(** The last field of [s.split(sep)]: what stands behind the last [sep],
    or [s] itself when it holds no [sep]. *)
Lemma split_last (sep : ascii) (s : str) :
  exists id,
    last_item (split sep s) = Some id /\
    Forall (fun c => c <> sep) id /\
    (s = id \/ exists prefix, s = prefix ++ [sep] ++ id).
Proof.
  unfold last_item, split.
  pose proof (split_acc_not_nil sep [] s) as Hne.
  pose proof (split_acc_no_sep sep [] s ltac:(constructor)) as Hno.
  pose proof (split_acc_join sep [] s) as Hj. simpl in Hj.
  revert Hne Hno Hj.
  induction (split_acc sep [] s) as [|f init _] using rev_ind;
    intros Hne Hno Hj; [congruence|].
  exists f. rewrite last_snoc. split; [reflexivity|].
  apply Forall_app in Hno as [_ Hf]. apply Forall_inv in Hf.
  split; [assumption|].
  destruct init as [|a init]; [left; now simpl in Hj|].
  right. rewrite join_snoc in Hj by discriminate. eauto.
Qed.

(** The suffix behind the last [sep] is unique. *)
Lemma last_field_unique (sep : ascii) (p1 p2 id1 id2 : str) :
  Forall (fun c => c <> sep) id1 -> Forall (fun c => c <> sep) id2 ->
  p1 ++ [sep] ++ id1 = p2 ++ [sep] ++ id2 -> id1 = id2.
Proof.
  intros H1 H2 E.
  apply (f_equal (@rev ascii)) in E. rewrite !rev_app_distr in E.
  simpl in E. rewrite <- !app_assoc in E. simpl in E.
  apply Forall_rev in H1, H2.
  rewrite <- (rev_involutive id1), <- (rev_involutive id2). f_equal.
  revert H1 H2 E. generalize (rev id1) (rev id2) (rev p1) (rev p2).
  clear. intros a. induction a as [|x a IH]; intros b q1 q2 Ha Hb E.
  - destruct b as [|y b]; [reflexivity|]. simpl in E. inversion E; subst.
    inversion Hb; subst. congruence.
  - destruct b as [|y b]; simpl in E; inversion E; subst.
    + inversion Ha; subst. congruence.
    + f_equal. inversion Ha; inversion Hb; subst. eapply IH; eassumption.
Qed.

(** C9: for every URL that contains [youtu.be], [extract_video_id]
    returns what stands behind the last [/] of the URL, untouched (a query
    or a fragment stays on it), which is the empty string when the URL
    ends in [/]; a URL without any [/] comes back whole. For a URL that
    contains neither [youtu.be] nor [youtube.com] it returns [None]. *)
Theorem extract_video_id_short_link (url : str) :
  (contains (lit "youtu.be") url = true ->
   exists id,
     extract_video_id urlparse_query unquote url = Ret (Some id) /\
     Forall (fun c => c <> "/"%char) id /\
     (url = id \/ exists prefix, url = prefix ++ lit "/" ++ id) /\
     (forall prefix, url = prefix ++ lit "/" -> id = [])) /\
  (contains (lit "youtu.be") url = false ->
   contains (lit "youtube.com") url = false ->
   extract_video_id urlparse_query unquote url = Ret None).
Proof.
  unfold extract_video_id. split.
  - intros ->. destruct (split_last "/" url) as (id & -> & Hno & Hsplit).
    exists id. repeat split; try assumption.
    intros prefix E. destruct Hsplit as [->|(p & Hp)].
    + subst id. apply Forall_app in Hno as [_ Hno]. inversion Hno; congruence.
    + rewrite E in Hp. symmetry.
      apply (last_field_unique "/" prefix p [] id); [constructor|assumption|].
      rewrite app_nil_r. exact Hp.
  - intros -> ->. reflexivity.
Qed.

End VideoIdClaims.

Section VideoIdNonempty.
Import PyStr PyStrFacts Spec.

Variable urlparse_query : str -> result str.
Variable unquote : str -> str.

(** [unquote] decodes percent escapes: it never turns a string that holds
    something into the empty string. *)
Hypothesis unquote_nonempty : forall s, s <> [] -> unquote s <> [].

Lemma parse_qsl_fields_values (query_args : list str) :
  Forall (fun nv => nv.2 <> []) (parse_qsl_fields unquote query_args).
Proof.
  induction query_args as [|name_value rest IH]; simpl; [constructor|].
  destruct name_value as [|c name_value]; [exact IH|].
  destruct (split1 "=" (c :: name_value)) as [|n [|v [|? ?]]]; try exact IH.
  destruct (0 <? len v) eqn:E; [|exact IH].
  constructor; [|exact IH]. simpl. apply unquote_nonempty.
  destruct v; [discriminate|]. discriminate.
Qed.

(** Every key of [parse_qs] holds a list whose first value is not empty. *)
Lemma parse_qs_values (qs : str) (k : str) (vs : list str) :
  parse_qs unquote qs !! k = Some vs ->
  exists v rest, vs = v :: rest /\ v <> [].
Proof.
  unfold parse_qs.
  assert (Hpairs : Forall (fun nv : str * str => nv.2 <> []) (parse_qsl unquote qs)).
  { unfold parse_qsl. destruct qs; [constructor|apply parse_qsl_fields_values]. }
  revert Hpairs. generalize (parse_qsl unquote qs). intros pairs Hpairs.
  assert (H0 : forall k vs, (∅ : gmap str (list str)) !! k = Some vs ->
                            exists v rest, vs = v :: rest /\ v <> [])
    by (intros ? ? H; rewrite lookup_empty in H; discriminate).
  revert H0 k vs. generalize (∅ : gmap str (list str)).
  induction Hpairs as [|[name value] pairs Hv _ IH]; intros d Hd k vs; simpl.
  - apply Hd.
  - apply IH. intros k' vs' H. simpl in Hv.
    destruct (d !! name) as [values|] eqn:En.
    + destruct (decide (name = k')) as [->|Hne].
      * rewrite lookup_insert_eq in H. inversion H; subst.
        destruct (Hd _ _ En) as (v & rest & -> & Hvne).
        exists v, (rest ++ [value]). auto.
      * rewrite lookup_insert_ne in H by exact Hne. eapply Hd, H.
    + destruct (decide (name = k')) as [->|Hne].
      * rewrite lookup_insert_eq in H. inversion H; subst. eauto.
      * rewrite lookup_insert_ne in H by exact Hne. eapply Hd, H.
Qed.

(** C7 (amended): for every input URL [extract_video_id] returns [None],
    or returns an identifier, or passes on what [urlparse] raises. The
    identifier is the empty string only for a URL that contains
    [youtu.be] and ends in [/]; everywhere else a returned identifier is
    not empty. The caller's test [not video_id] takes [None] and the empty
    string alike for a failure. *)
Theorem extract_video_id_empty_only_short_link (url : str) :
  match extract_video_id urlparse_query unquote url with
  | Ret None => True
  | Ret (Some id) =>
      id = [] ->
      contains (lit "youtu.be") url = true /\
      exists prefix, url = prefix ++ lit "/"
  | Raise e =>
      contains (lit "youtu.be") url = false /\ urlparse_query url = Raise e
  | Diverge =>
      contains (lit "youtu.be") url = false /\ urlparse_query url = Diverge
  end /\
  not_video_id None = true /\ not_video_id (Some []) = true.
Proof.
  split; [|split; reflexivity].
  unfold extract_video_id.
  destruct (contains (lit "youtu.be") url) eqn:Eshort.
  - destruct (split_last "/" url) as (id & -> & Hno & Hsplit).
    intros ->. split; [reflexivity|].
    destruct Hsplit as [->|[prefix ->]]; [discriminate|].
    exists prefix. reflexivity.
  - destruct (contains (lit "youtube.com") url); [|exact I].
    destruct (urlparse_query url) as [query|e|]; cbn [rbind]; auto.
    destruct (parse_qs unquote query !! lit "v") as [vs|] eqn:Ev; [|exact I].
    apply parse_qs_values in Ev as (v & rest & -> & Hv).
    intros ->. congruence.
Qed.

End VideoIdNonempty.

Lemma extract_video_id_empty_only_short_link_witness :
  (forall s, s <> [] -> Sample.unquote_plain s <> []) /\
  extract_video_id Sample.query_of Sample.unquote_plain
    (lit "https://www.youtube.com/watch?v=&list=PL1&v=dQw4w9WgXcQ#t=3")
  = Ret (Some (lit "dQw4w9WgXcQ")) /\
  match extract_video_id Sample.query_of Sample.unquote_plain
          (lit "https://www.youtube.com/watch?v=&list=PL1&v=dQw4w9WgXcQ#t=3") with
  | Ret None => True
  | Ret (Some id) =>
      id = [] ->
      contains (lit "youtu.be")
        (lit "https://www.youtube.com/watch?v=&list=PL1&v=dQw4w9WgXcQ#t=3") = true /\
      exists prefix,
        lit "https://www.youtube.com/watch?v=&list=PL1&v=dQw4w9WgXcQ#t=3"
        = prefix ++ lit "/"
  | Raise e =>
      contains (lit "youtu.be")
        (lit "https://www.youtube.com/watch?v=&list=PL1&v=dQw4w9WgXcQ#t=3") = false /\
      Sample.query_of
        (lit "https://www.youtube.com/watch?v=&list=PL1&v=dQw4w9WgXcQ#t=3") = Raise e
  | Diverge =>
      contains (lit "youtu.be")
        (lit "https://www.youtube.com/watch?v=&list=PL1&v=dQw4w9WgXcQ#t=3") = false /\
      Sample.query_of
        (lit "https://www.youtube.com/watch?v=&list=PL1&v=dQw4w9WgXcQ#t=3") = Diverge
  end.
Proof.
  assert (H : forall s, s <> [] -> Sample.unquote_plain s <> []) by (intros s Hs; exact Hs).
  split; [exact H|]. split; [vm_compute; reflexivity|].
  exact (proj1 (extract_video_id_empty_only_short_link Sample.query_of
                  Sample.unquote_plain H
                  (lit "https://www.youtube.com/watch?v=&list=PL1&v=dQw4w9WgXcQ#t=3"))).
Defined.

(** C7 as stated fails on a short link that ends in a slash: the
    identifier returned is the empty string, and it is returned as a value,
    not as [None]. *)
Lemma extract_video_id_counterexample :
  extract_video_id Sample.query_of Sample.unquote_plain (lit "https://youtu.be/")
  = Ret (Some []).
Proof. vm_compute. reflexivity. Qed.

Lemma extract_video_id_short_link_witness :
  contains (lit "youtu.be") (lit "https://youtu.be/dQw4w9WgXcQ?t=42#top") = true /\
  extract_video_id Sample.query_of Sample.unquote_plain
    (lit "https://youtu.be/dQw4w9WgXcQ?t=42#top")
  = Ret (Some (lit "dQw4w9WgXcQ?t=42#top")) /\
  exists id,
    extract_video_id Sample.query_of Sample.unquote_plain
      (lit "https://youtu.be/dQw4w9WgXcQ?t=42#top") = Ret (Some id) /\
    Forall (fun c => c <> "/"%char) id /\
    (lit "https://youtu.be/dQw4w9WgXcQ?t=42#top" = id
     \/ exists prefix, lit "https://youtu.be/dQw4w9WgXcQ?t=42#top" = prefix ++ lit "/" ++ id) /\
    (forall prefix, lit "https://youtu.be/dQw4w9WgXcQ?t=42#top" = prefix ++ lit "/" -> id = []).
Proof.
  assert (H : contains (lit "youtu.be") (lit "https://youtu.be/dQw4w9WgXcQ?t=42#top") = true)
    by (vm_compute; reflexivity).
  split; [exact H|]. split; [vm_compute; reflexivity|].
  exact (proj1 (extract_video_id_short_link Sample.query_of Sample.unquote_plain
                  (lit "https://youtu.be/dQw4w9WgXcQ?t=42#top")) H).
Defined.

(** ** [save_pdf] *)

Section SavePdfFacts.
Import PyStr PyStrFacts Textwrap TextwrapFacts Spec.


Lemma render_from_app (height : Z) (i : nat) (l1 l2 : list str) :
  render_from height i (l1 ++ l2)
  = render_from height i l1 ++ render_from height (i + length l1) l2.
Proof.
  revert i. induction l1 as [|l l1 IH]; intros i; simpl.
  - now rewrite Nat.add_0_r.
  - rewrite IH, <- !app_assoc. now rewrite Nat.add_succ_r.
Qed.

Lemma draw_wrapped_spec (height : Z) (wrapped_lines : list str)
    (c : canvas) (i : nat) :
  draw_wrapped height wrapped_lines c (cursor_at height i)
  = (Canvas (cv_path c) (cv_pagesize c)
       (cv_ops c ++ render_from height i wrapped_lines),
     cursor_at height (i + length wrapped_lines)).
Proof.
  revert c i. induction wrapped_lines as [|l rest IH]; intros c i.
  - simpl. rewrite app_nil_r, Nat.add_0_r. now destruct c.
  - cbn [draw_wrapped render_from length].
    replace (i + S (length rest))%nat with (S i + length rest)%nat by lia.
    unfold page_full.
    destruct (cursor_at height i - 15 <? 50) eqn:E.
    + replace (height - 50) with (cursor_at height (S i))
        by (simpl; now rewrite E).
      rewrite IH. unfold cv_call. simpl. now rewrite <- !app_assoc.
    + replace (cursor_at height i - 15) with (cursor_at height (S i))
        by (simpl; now rewrite E).
      rewrite IH. unfold cv_call. simpl. now rewrite <- !app_assoc.
Qed.


(** The loop over the input lines, once they are wrapped. *)
Lemma draw_lines_spec (height : Z) (lines : list str)
    (wrapped : list (list str)) (c : canvas) (i : nat) :
  rmap wrap100 lines = Ret wrapped ->
  draw_lines height lines c (cursor_at height i)
  = Ret (Canvas (cv_path c) (cv_pagesize c)
           (cv_ops c ++ render_from height i (concat wrapped)),
         cursor_at height (i + length (concat wrapped))).
Proof.
  revert wrapped c i. induction lines as [|line rest IH]; intros wrapped c i H.
  - inversion H; subst. simpl. rewrite app_nil_r, Nat.add_0_r. now destruct c.
  - simpl in H. cbn [draw_lines].
    change (wrap line 100 true) with (wrap100 line).
    destruct (wrap100 line) as [sub_lines| |]; try discriminate.
    cbn [rbind] in *.
    destruct (rmap wrap100 rest) as [wrapped'| |]; try discriminate.
    inversion H; subst. cbn [rbind concat].
    rewrite draw_wrapped_spec. rewrite (IH wrapped') by reflexivity.
    cbn [cv_path cv_pagesize cv_ops].
    rewrite render_from_app, length_app, <- app_assoc. do 3 f_equal. lia.
Qed.

(** Every input line can be wrapped to 100 columns; the sub-lines are
    within 100 characters and hold the ink of the line. *)
Lemma rmap_wrap100 (lines : list str) :
  exists wrapped,
    rmap wrap100 lines = Ret wrapped /\
    Forall2 (fun line sub_lines =>
               wrap line 100 true = Ret sub_lines /\
               Forall (fun l => len l <= 100) sub_lines /\
               ink (concat sub_lines) = ink line)
            lines wrapped.
Proof.
  induction lines as [|line rest (wrapped & Hw & Hall)].
  - exists []. split; [reflexivity|constructor].
  - destruct (wrap_returns line 100 true ltac:(lia)) as [sub_lines Hs].
    exists (sub_lines :: wrapped). simpl. unfold wrap100 at 1.
    rewrite Hs, Hw. split; [reflexivity|].
    constructor; [|exact Hall]. repeat split.
    + exact Hs.
    + exact (wrap_chunks_break_width _ _ _ Hs).
    + exact (wrap_ink _ _ _ _ Hs).
Qed.

(** On letter paper the first page takes 45 lines and every later page
    47. *)
Lemma cursor_at_letter (i : nat) :
  cursor_at 792 i
  = if (i <? 45)%nat then 722 - 15 * Z.of_nat i
    else 742 - 15 * ((Z.of_nat i - 45) mod 47).
Proof.
  induction i as [|i IH]; [reflexivity|].
  cbn [cursor_at]. rewrite IH. clear IH.
  destruct (Nat.ltb_spec i 45) as [E1|E1];
    destruct (Nat.ltb_spec (S i) 45) as [E2|E2]; try lia.
  - destruct (722 - 15 * Z.of_nat i - 15 <? 50) eqn:E;
      [apply Z.ltb_lt in E|apply Z.ltb_ge in E]; lia.
  - assert (i = 44%nat) by lia. subst i. reflexivity.
  - pose proof (Z.mod_pos_bound (Z.of_nat i - 45) 47 ltac:(lia)) as Hb.
    destruct (Z.eq_dec ((Z.of_nat i - 45) mod 47) 46) as [E46|E46].
    + rewrite E46.
      replace (Z.of_nat (S i) - 45) with ((Z.of_nat i - 45) + 1) by lia.
      rewrite Z.add_mod by lia. rewrite E46. reflexivity.
    + replace (Z.of_nat (S i) - 45) with ((Z.of_nat i - 45) + 1) by lia.
      rewrite Z.add_mod by lia.
      rewrite (Z.mod_small (_ + 1 mod 47)) by (change (1 mod 47) with 1; lia).
      change (1 mod 47) with 1.
      destruct (742 - 15 * ((Z.of_nat i - 45) mod 47) - 15 <? 50) eqn:E;
        [apply Z.ltb_lt in E|apply Z.ltb_ge in E]; lia.
Qed.

Lemma page_full_letter (i : nat) :
  page_full 792 i
  = (i =? 44)%nat || (45 <=? i)%nat && ((Z.of_nat i - 45) mod 47 =? 46).
Proof.
  unfold page_full. rewrite cursor_at_letter.
  destruct (i <? 45)%nat eqn:E1;
    [apply Nat.ltb_lt in E1|apply Nat.ltb_ge in E1].
  - replace (45 <=? i)%nat with false by (symmetry; apply Nat.leb_gt; lia).
    rewrite andb_false_l, orb_false_r.
    destruct (i =? 44)%nat eqn:E; [apply Nat.eqb_eq in E|apply Nat.eqb_neq in E].
    + apply Z.ltb_lt. lia.
    + apply Z.ltb_ge. lia.
  - replace (45 <=? i)%nat with true by (symmetry; apply Nat.leb_le; lia).
    replace (i =? 44)%nat with false by (symmetry; apply Nat.eqb_neq; lia).
    simpl.
    pose proof (Z.mod_pos_bound (Z.of_nat i - 45) 47 ltac:(lia)) as Hb.
    destruct ((Z.of_nat i - 45) mod 47 =? 46) eqn:E;
      [apply Z.eqb_eq in E; apply Z.ltb_lt|apply Z.eqb_neq in E; apply Z.ltb_ge]; lia.
Qed.

(** A page is closed among the calls for [lines] exactly when one of the
    lines is the last of its page. *)
Lemma render_from_show_page (height : Z) (lines : list str) (i : nat) :
  In ShowPage (render_from height i lines)
  <-> exists j, (j < length lines)%nat /\ page_full height (i + j) = true.
Proof.
  revert i. induction lines as [|l rest IH]; intros i; simpl.
  - split; [tauto|]. intros (j & Hj & _). lia.
  - rewrite in_app_iff, IH. split.
    + intros [H|[H|(j & Hj & Hp)]]; [discriminate| |].
      * exists 0%nat. rewrite Nat.add_0_r. split; [lia|].
        destruct (page_full height i); [reflexivity|contradiction].
      * exists (S j). rewrite Nat.add_succ_r. split; [lia|exact Hp].
    + intros (j & Hj & Hp). right. destruct j as [|j].
      * rewrite Nat.add_0_r in Hp. rewrite Hp. left. now left.
      * right. exists j. rewrite Nat.add_succ_r in Hp. split; [lia|exact Hp].
Qed.

End SavePdfFacts.

Section SavePdfClaims.
Import PyStr PyStrFacts Textwrap TextwrapFacts Spec.

Variable gettempdir : str.


(** [save_pdf], once the input lines are wrapped. *)
Lemma save_pdf_spec (title summary_text filename : str)
    (wrapped : list (list str)) :
  rmap wrap100 (PyStr.split nl summary_text) = Ret wrapped ->
  save_pdf gettempdir title summary_text filename
  = Ret (os_path_join gettempdir filename,
         Canvas (os_path_join gettempdir filename) letter
           (first_calls title ++ render_from 792 0 (concat wrapped) ++ [Save])).
Proof.
  intros H. unfold save_pdf. cbn [letter].
  change (792 - 70) with (cursor_at 792 0).
  rewrite (draw_lines_spec 792 _ wrapped _ 0 H). cbn [rbind].
  unfold cv_call. cbn [cv_path cv_pagesize cv_ops]. reflexivity.
Qed.

(** C6: for every title and report text [save_pdf] returns; it wraps
    each line of [summary_text.split('\n')] on its own to sub-lines of at
    most 100 characters that hold what the line holds apart from
    whitespace, and draws all the sub-lines in order, nothing left out:
    sub-line [i] at the cursor [cursor_at 792 i], which goes down 15 a line
    and is put back to the top margin, after [showPage], when it passes
    the bottom margin. The first page takes 45 sub-lines and every later
    page 47, so a page is closed as soon as there are 45 sub-lines. *)
Theorem save_pdf_renders (title summary_text filename : str) :
  exists (wrapped : list (list str)) (c : canvas),
    save_pdf gettempdir title summary_text filename
    = Ret (os_path_join gettempdir filename, c) /\
    join [nl] (PyStr.split nl summary_text) = summary_text /\
    Forall2 (fun line sub_lines =>
               wrap line 100 true = Ret sub_lines /\
               Forall (fun l => len l <= 100) sub_lines /\
               ink (concat sub_lines) = ink line)
            (PyStr.split nl summary_text) wrapped /\
    cv_ops c
    = [SetFont (lit "Helvetica-Bold") 14; DrawString 50 742 title;
       SetFont (lit "Helvetica") 10]
        ++ render_from 792 0 (concat wrapped) ++ [Save] /\
    (forall i,
        cursor_at 792 i
        = if (i <? 45)%nat then 722 - 15 * Z.of_nat i
          else 742 - 15 * ((Z.of_nat i - 45) mod 47)) /\
    (forall i,
        page_full 792 i
        = (i =? 44)%nat || (45 <=? i)%nat && ((Z.of_nat i - 45) mod 47 =? 46)) /\
    (In ShowPage (cv_ops c) <-> (45 <= length (concat wrapped))%nat).
Proof.
  destruct (rmap_wrap100 (PyStr.split nl summary_text)) as (wrapped & Hw & Hall).
  exists wrapped. eexists. split; [apply (save_pdf_spec _ _ _ _ Hw)|].
  split; [apply split_join|]. split; [exact Hall|].
  split; [reflexivity|]. split; [exact cursor_at_letter|].
  split; [exact page_full_letter|].
  cbn [cv_ops]. rewrite !in_app_iff, render_from_show_page. split.
  - intros [H|[(j & Hj & Hp)|H]].
    + unfold first_calls in H. simpl in H.
      destruct H as [H|[H|[H|[]]]]; discriminate.
    + rewrite Nat.add_0_l, page_full_letter in Hp.
      apply orb_true_iff in Hp as [Hp|Hp].
      * apply Nat.eqb_eq in Hp. lia.
      * apply andb_true_iff in Hp as [Hp _]. apply Nat.leb_le in Hp. lia.
    + simpl in H. destruct H as [H|[]]. discriminate.
  - intros Hn. right. left. exists 44%nat. split; [lia|reflexivity].
Qed.

Lemma split_acc_app (sep : ascii) (field a b : str) :
  split_acc sep field (a ++ sep :: b)
  = split_acc sep field a ++ split_acc sep [] b.
Proof.
  revert field. induction a as [|c a IH]; intros field; simpl.
  - now rewrite Ascii.eqb_refl.
  - destruct (Ascii.eqb c sep); [now rewrite IH|apply IH].
Qed.

Lemma split_app (sep : ascii) (a b : str) :
  PyStr.split sep (a ++ sep :: b) = PyStr.split sep a ++ PyStr.split sep b.
Proof. apply split_acc_app. Qed.

Lemma split_acc_no_sep_single (sep : ascii) (field s : str) :
  Forall (fun c => c <> sep) s -> split_acc sep field s = [rev field ++ s].
Proof.
  intros H. revert field. induction H as [|c s Hc _ IH]; intros field; simpl.
  - now rewrite app_nil_r.
  - apply Ascii.eqb_neq in Hc. rewrite Hc, IH. simpl. now rewrite <- app_assoc.
Qed.

Lemma rmap_app {A B} (f : A -> result B) (l1 l2 : list A) :
  rmap f (l1 ++ l2)
  = rbind (rmap f l1) (fun b1 => rbind (rmap f l2) (fun b2 => Ret (b1 ++ b2))).
Proof.
  induction l1 as [|a l1 IH]; simpl.
  - destruct (rmap f l2); reflexivity.
  - destruct (f a); simpl; try reflexivity. rewrite IH.
    destruct (rmap f l1); simpl; try reflexivity.
    destruct (rmap f l2); reflexivity.
Qed.

(** C10 (amended): for every input line of the report that is empty or
    made only of the whitespace characters of [textwrap] (space, tab,
    newline, vertical tab, form feed, carriage return), [textwrap.wrap]
    gives the empty list, so [save_pdf] draws nothing for the line and
    leaves the cursor where it is: the document is the one the report
    makes without that line. *)
Theorem save_pdf_blank_line (line : str) :
  Forall (fun c => is_whitespace c = true) line ->
  wrap line 100 true = Ret [] /\
  (forall height before after c y,
      draw_lines height (before ++ line :: after) c y
      = draw_lines height (before ++ after) c y) /\
  (forall title filename above below,
      Forall (fun c => c <> nl) line ->
      save_pdf gettempdir title (above ++ nl :: line ++ nl :: below) filename
      = save_pdf gettempdir title (above ++ nl :: below) filename).
Proof.
  intros Hline.
  assert (Hwrap : wrap line 100 true = Ret [])
    by (apply wrap_all_whitespace; [lia|exact Hline]).
  assert (Hdraw : forall height before after c y,
             draw_lines height (before ++ line :: after) c y
             = draw_lines height (before ++ after) c y).
  { intros height before after. induction before as [|l before IH]; intros c y.
    - simpl. rewrite Hwrap. reflexivity.
    - simpl. destruct (wrap l 100 true); simpl; try reflexivity.
      destruct (draw_wrapped height a c y). apply IH. }
  split; [exact Hwrap|]. split; [exact Hdraw|].
  intros title filename above below Hnl. unfold save_pdf.
  rewrite !split_app.
  unfold PyStr.split at 2. rewrite split_acc_no_sep_single by exact Hnl.
  simpl rev. simpl app at 2.
  cbn [letter]. now rewrite Hdraw.
Qed.

End SavePdfClaims.

Lemma save_pdf_renders_witness :
  exists c,
    save_pdf Sample.tmp (lit "Talk") Sample.long_report (lit "x.pdf")
    = Ret (lit "/tmp/x.pdf", c) /\
    length (cv_ops c) = 51%nat /\
    cv_ops c !! 1%nat = Some (DrawString 50 742 (lit "Talk")) /\
    cv_ops c !! 3%nat = Some (DrawString 50 722 (lit "line")) /\
    cv_ops c !! 47%nat = Some (DrawString 50 62 (lit "line")) /\
    cv_ops c !! 48%nat = Some ShowPage /\
    cv_ops c !! 49%nat = Some (DrawString 50 742 (lit "line")) /\
    cv_ops c !! 50%nat = Some Save.
Proof.
  destruct (save_pdf_renders Sample.tmp (lit "Talk") Sample.long_report
              (lit "x.pdf")) as (wrapped & c & Hrun & _).
  exists c. split; [exact Hrun|].
  vm_compute in Hrun. inversion Hrun. vm_compute. repeat split.
Defined.

Lemma save_pdf_blank_line_witness :
  Forall (fun c => Textwrap.is_whitespace c = true) (lit "  	 ") /\
  Textwrap.wrap (lit "  	 ") 100 true = Ret [] /\
  save_pdf Sample.tmp (lit "Talk") (lit "one" ++ nl :: lit "  	 " ++ nl :: lit "two")
    (lit "x.pdf")
  = save_pdf Sample.tmp (lit "Talk") (lit "one" ++ nl :: lit "two") (lit "x.pdf").
Proof.
  assert (H : Forall (fun c => Textwrap.is_whitespace c = true) (lit "  	 "))
    by (repeat constructor).
  split; [exact H|].
  destruct (save_pdf_blank_line Sample.tmp (lit "  	 ") H) as (Hw & _ & Hs).
  split; [exact Hw|]. apply Hs. repeat constructor; discriminate.
Defined.

(** C10 as stated fails for whitespace that [textwrap] does not know: a
    line made of a space and a no-break space is blank for [str.strip], yet
    [textwrap.wrap] makes one sub-line of it, which is drawn, and the
    cursor goes down. *)
Lemma save_pdf_blank_line_counterexample :
  blank [" "; "160"]%char = true /\
  Textwrap.wrap [" "; "160"]%char 100 true = Ret [lit " "] /\
  draw_lines 792 [[" "; "160"]%char] (Canvas (lit "/tmp/x.pdf") letter []) 722
  = Ret (Canvas (lit "/tmp/x.pdf") letter [DrawString 50 722 (lit " ")], 707).
Proof. vm_compute. repeat split. Qed.

(** * The rest of the script *)

(** ** More on strings *)

Section MoreStrings.
Import PyStr PyStrFacts Spec.

(** [split] undoes [join] when there is something to join and no part
    holds the separator. *)
Lemma split_join_parts (sep : ascii) (parts : list str) :
  parts <> [] -> Forall (Forall (fun c => c <> sep)) parts ->
  PyStr.split sep (join [sep] parts) = parts.
Proof.
  destruct parts as [|p rest]; [congruence|]. intros _.
  revert p. induction rest as [|q rest IH]; intros p H.
  - apply Forall_inv in H. simpl. unfold PyStr.split.
    now rewrite split_acc_no_sep_single by exact H.
  - change (join [sep] (p :: q :: rest))
      with (p ++ sep :: join [sep] (q :: rest)).
    rewrite split_app. unfold PyStr.split at 1.
    rewrite split_acc_no_sep_single by exact (Forall_inv H).
    simpl. f_equal. apply IH. exact (Forall_inv_tail H).
Qed.

Lemma flush_app (word : str) (l1 l2 : list str) :
  flush word (l1 ++ l2) = flush word l1 ++ l2.
Proof. destruct word; reflexivity. Qed.

(** A whitespace character between two strings keeps their words apart. *)
Lemma words_acc_sep (word a b : str) (c : ascii) :
  isspace c = true -> words_acc word (a ++ c :: b) = words_acc word a ++ words b.
Proof.
  intros Hc. revert word. induction a as [|x a IH]; intros word; simpl.
  - rewrite Hc. apply (flush_app word []).
  - destruct (isspace x); [|apply IH].
    rewrite IH. apply flush_app.
Qed.

Lemma words_join (c : ascii) (parts : list str) :
  isspace c = true -> words (join [c] parts) = concat (map words parts).
Proof.
  intros Hc. induction parts as [|p rest IH]; [reflexivity|].
  destruct rest as [|q rest].
  - simpl. now rewrite app_nil_r.
  - change (join [c] (p :: q :: rest)) with (p ++ c :: join [c] (q :: rest)).
    unfold words at 1. rewrite words_acc_sep by exact Hc.
    rewrite IH. reflexivity.
Qed.

(** Joined parts make the empty string only when there is no part, or one
    empty part. *)
Lemma join_nil (sep : ascii) (parts : list str) :
  join [sep] parts = [] <-> parts = [] \/ parts = [[]].
Proof.
  split.
  - destruct parts as [|p [|q rest]]; simpl; intros H; auto.
    + subst. auto.
    + apply app_eq_nil in H as [_ H]. discriminate.
  - intros [->| ->]; reflexivity.
Qed.

End MoreStrings.

(** ** [get_transcript]: the shape of the transcript *)

Section TranscriptShape.
Import PyStr PyStrFacts Spec.

Variable YouTubeTranscriptApi_get_transcript :
  str -> outcome (list (gmap string str)).

Lemma rmap_entry_text_all (transcript : list (gmap string str))
    (texts : list str) :
  Forall2 (fun entry text => entry !! "text"%string = Some text) transcript texts ->
  rmap entry_text transcript = Ret texts.
Proof.
  induction 1 as [|entry text transcript texts He _ IH]; [reflexivity|].
  simpl. unfold entry_text at 1. rewrite He, IH. reflexivity.
Qed.

(** X1: when the provider delivers captions that all have a text,
    [get_transcript] returns them joined with newlines and touches nothing
    else. The words of the transcript are the words of the captions, in
    order: no two captions run into each other. When no caption holds a
    newline the lines of the transcript are the captions, one line each.
    The transcript is the empty string only when there is no caption at
    all, or a single caption that is empty. *)
Theorem get_transcript_lines (video_id : str) (w : world)
    (transcript : list (gmap string str)) (texts : list str) :
  YouTubeTranscriptApi_get_transcript video_id = Returns transcript ->
  Forall2 (fun entry text => entry !! "text"%string = Some text) transcript texts ->
  exists t,
    get_transcript YouTubeTranscriptApi_get_transcript video_id w
    = (Ret (Some t), w) /\
    words t = concat (map words texts) /\
    (texts <> [] -> Forall (Forall (fun c => c <> nl)) texts ->
     PyStr.split nl t = texts) /\
    (t = [] <-> texts = [] \/ texts = [[]]).
Proof.
  intros Hsvc Htexts. apply rmap_entry_text_all in Htexts.
  exists (join [nl] texts). split; [|split; [|split]].
  - unfold get_transcript, try_except, bind, lift, ret.
    rewrite Hsvc. simpl. rewrite Htexts. reflexivity.
  - apply words_join. reflexivity.
  - apply split_join_parts.
  - apply join_nil.
Qed.

End TranscriptShape.

Lemma get_transcript_lines_witness :
  exists t,
    get_transcript SampleApp.captions (lit "dQw4w9WgXcQ") Sample.fresh
    = (Ret (Some t), Sample.fresh) /\
    words t = [lit "hello"; lit "world"; lit "second"; lit "caption"] /\
    PyStr.split nl t = [lit "hello world"; lit "second caption"] /\
    t <> [].
Proof.
  destruct (get_transcript_lines SampleApp.captions (lit "dQw4w9WgXcQ")
              Sample.fresh
              [ {[ "text"%string := lit "hello world" ]};
                {[ "text"%string := lit "second caption";
                   "start"%string := lit "1.5" ]} ]
              [lit "hello world"; lit "second caption"])
    as (t & Hrun & Hwords & Hlines & Hempty).
  - reflexivity.
  - repeat constructor.
  - exists t. split; [exact Hrun|]. split; [exact Hwords|]. split.
    + apply Hlines; [discriminate|]. repeat constructor; discriminate.
    + intros Ht. apply Hempty in Ht as [Ht|Ht]; discriminate.
Defined.

(** ** [transcribe_audio] *)

Section Transcribe.
Import PyStr PyStrFacts Spec.

Variable whisper_model_transcribe : str -> outcome (list str).

(** Joining with a one-character separator puts that character, once,
    in front of every part but the first. *)
Lemma join_cons (sep : ascii) (p : str) (rest : list str) :
  join [sep] (p :: rest) = p ++ concat (map (cons sep) rest).
Proof.
  revert p. induction rest as [|q rest IH]; intros p.
  - cbn. now rewrite app_nil_r.
  - change (join [sep] (p :: q :: rest)) with (p ++ sep :: join [sep] (q :: rest)).
    rewrite IH. reflexivity.
Qed.

Lemma length_join_cons (sep : ascii) (p : str) (rest : list str) :
  length (join [sep] (p :: rest))
  = (length (concat (p :: rest)) + length rest)%nat.
Proof.
  rewrite join_cons. cbn [concat]. rewrite !length_app.
  rewrite <- Nat.add_assoc. f_equal.
  induction rest as [|q rest IH]; [reflexivity|].
  cbn [map concat length]. rewrite !length_app, IH. cbn [length]. lia.
Qed.

(** X2: [transcribe_audio] passes on what Whisper raises and otherwise
    returns the texts of the segments with one space, and nothing else,
    between one text and the next: the result is the first text followed by
    every other text with a space in front of it, so it is as long as the
    texts together plus one for each of them but the first, and splitting
    it at the spaces gives the texts back when none of them holds a space.
    The words of the result are the words of the segments, in order, so
    that no word of one segment runs into the next segment. Without any
    segment the result is the empty string. *)
Theorem transcribe_audio_words (audio_path : str) :
  match whisper_model_transcribe audio_path with
  | Returns segments =>
      exists t,
        transcribe_audio whisper_model_transcribe audio_path = Ret t /\
        words t = concat (map words segments) /\
        (t = [] <-> segments = [] \/ segments = [[]]) /\
        match segments with
        | [] => t = []
        | first :: others =>
            t = first ++ concat (map (fun text => " "%char :: text) others) /\
            len t = len (concat segments) + len others /\
            (Forall (Forall (fun c => c <> " "%char)) segments ->
             PyStr.split " " t = segments)
        end
  | Fails e =>
      transcribe_audio whisper_model_transcribe audio_path = Raise e
  end.
Proof.
  unfold transcribe_audio.
  destruct (whisper_model_transcribe audio_path) as [segments|e]; simpl;
    [|reflexivity].
  exists (join (lit " ") segments). split; [reflexivity|]. split; [|split].
  - apply (words_join " "%char). reflexivity.
  - apply (join_nil " "%char).
  - destruct segments as [|first others]; [reflexivity|].
    split; [apply (join_cons " "%char)|]. split.
    + unfold len. rewrite (length_join_cons " "%char). lia.
    + intros Hno. apply (split_join_parts " "%char); [discriminate|exact Hno].
Qed.

End Transcribe.

(** ** [extract_video_id]: watch links *)

Section WatchLinks.
Import PyStr PyStrFacts Spec AppSpec.

Variable urlparse_query : str -> result str.
Variable unquote : str -> str.

(** What the loop of [parse_qs] leaves under a key: the values found
    before, then the values of the pairs with that name. *)
Lemma parse_qs_fold_lookup (pairs : list (str * str))
    (parsed_result : gmap str (list str)) (k : str) :
  fold_left
    (fun parsed_result '(name, value) =>
       match parsed_result !! name with
       | Some values => <[name := values ++ [value]]> parsed_result
       | None => <[name := [value]]> parsed_result
       end)
    pairs parsed_result !! k
  = match parsed_result !! k, values_of k pairs with
    | Some values, more => Some (values ++ more)
    | None, [] => None
    | None, more => Some more
    end.
Proof.
  revert parsed_result.
  induction pairs as [|[name value] pairs IH]; intros parsed_result.
  - simpl. destruct (parsed_result !! k); [now rewrite app_nil_r|reflexivity].
  - cbn [fold_left]. rewrite IH. unfold values_of. cbn [List.filter fst].
    destruct (decide (name = k)) as [->|Hne].
    + rewrite bool_decide_eq_true_2 by reflexivity. cbn [map snd].
      destruct (parsed_result !! k) as [values|].
      * rewrite lookup_insert_eq, <- app_assoc. reflexivity.
      * rewrite lookup_insert_eq. reflexivity.
    + rewrite bool_decide_eq_false_2 by exact Hne.
      destruct (parsed_result !! name);
        rewrite lookup_insert_ne by exact Hne; reflexivity.
Qed.

Lemma parse_qs_lookup (qs k : str) :
  parse_qs unquote qs !! k
  = match values_of k (parse_qsl unquote qs) with
    | [] => None
    | values => Some values
    end.
Proof.
  unfold parse_qs. rewrite parse_qs_fold_lookup, lookup_empty. reflexivity.
Qed.

(** X3: for a URL that contains [youtube.com] and not [youtu.be],
    [extract_video_id] returns the value of the first [v] field among the
    name-value pairs of the query (fields with a blank value are not
    pairs), and [None] when there is no such field; a second [v] field is
    never looked at. It raises only what [urlparse] raises: the index
    [[0]] always finds a value. *)
Theorem extract_video_id_first_v (url : str) :
  contains (lit "youtu.be") url = false ->
  contains (lit "youtube.com") url = true ->
  extract_video_id urlparse_query unquote url
  = rbind (urlparse_query url) (fun query =>
      Ret (head (values_of (lit "v") (parse_qsl unquote query)))).
Proof.
  intros Hshort Hwatch. unfold extract_video_id. rewrite Hshort, Hwatch.
  destruct (urlparse_query url) as [query| |]; cbn [rbind]; try reflexivity.
  rewrite parse_qs_lookup.
  destruct (values_of (lit "v") (parse_qsl unquote query)); reflexivity.
Qed.

End WatchLinks.

Lemma extract_video_id_first_v_witness :
  extract_video_id Sample.query_of Sample.unquote_plain
    (lit "https://www.youtube.com/watch?list=PL1&v=&v=dQw4w9WgXcQ&v=other#t=3")
  = Ret (Some (lit "dQw4w9WgXcQ")).
Proof.
  rewrite (extract_video_id_first_v Sample.query_of Sample.unquote_plain
             (lit "https://www.youtube.com/watch?list=PL1&v=&v=dQw4w9WgXcQ&v=other#t=3"));
    vm_compute; reflexivity.
Defined.

(** ** [download_audio_and_metadata] *)

Section Download.
Import PyStr PyStrFacts Spec.

Variable tempfile_mkdtemp : outcome str.
Variable YoutubeDL_extract_info :
  ydl_options -> str -> outcome (gmap string str).

Lemma startswith_slash_app (id tail : str) :
  startswith (lit "/") tail = false ->
  startswith (lit "/") (id ++ tail) = startswith (lit "/") id.
Proof.
  intros Ht. destruct id as [|c id]; [exact Ht|]. simpl.
  now rewrite !andb_true_r.
Qed.

(** [os.path.join] with a second part that is not absolute puts the
    same directory prefix in front of it, whatever the part is. *)
Lemma os_path_join_prefix (a : str) :
  exists dir, forall b,
    startswith (lit "/") b = false -> os_path_join a b = dir ++ b.
Proof.
  unfold os_path_join. destruct (last a) as [c|] eqn:E.
  - destruct (Ascii.eqb c "/") eqn:Ec.
    + exists a. now intros b ->.
    + exists (a ++ lit "/"). intros b ->. now rewrite <- app_assoc.
  - exists []. now intros b ->.
Qed.

(** X4: [download_audio_and_metadata] for an info dict whose fields are
    strings where it has them. What [tempfile.mkdtemp] or yt-dlp raises is
    passed on. yt-dlp is asked for the best audio, as mp3, without
    playlist, into the new directory. Of the info dict the function needs
    the [id]: without that key it raises [KeyError], and with it it
    returns, whatever other keys are missing. The description kept is the
    first 300 characters of the one delivered (all of it when it is no
    longer, the empty string when there is none); title and channel fall
    back to [Untitled Video] and [Unknown]; and the audio path is the
    output template handed to yt-dlp with the [id] and the extension [mp3]
    filled in. *)
Theorem download_audio_and_metadata_fields (video_url : str) :
  let run := download_audio_and_metadata tempfile_mkdtemp
               YoutubeDL_extract_info video_url in
  match tempfile_mkdtemp with
  | Fails e => run = Raise e
  | Returns temp_dir =>
      let options :=
        {| format := lit "bestaudio/best";
           outtmpl := os_path_join temp_dir (lit "%(id)s.%(ext)s");
           postprocessors :=
             [ {| key := lit "FFmpegExtractAudio";
                  preferredcodec := lit "mp3";
                  preferredquality := lit "192" |} ];
           quiet := true;
           noplaylist := true |} in
      match YoutubeDL_extract_info options video_url with
      | Fails e => run = Raise e
      | Returns info =>
          let delivered := default (lit "") (info !! "description"%string) in
          match info !! "id"%string with
          | None => run = Raise (Exn KeyError (lit "'id'"))
          | Some id =>
              exists m,
                run = Ret m /\
                len (description m) <= 300 /\
                (exists rest, delivered = description m ++ rest) /\
                (len delivered <= 300 -> description m = delivered) /\
                title m
                = default (lit "Untitled Video") (info !! "title"%string) /\
                channel m
                = default (lit "Unknown") (info !! "uploader"%string) /\
                thumbnail m = info !! "thumbnail"%string /\
                (startswith (lit "/") id = false ->
                 exists dir,
                   outtmpl options = dir ++ lit "%(id)s.%(ext)s" /\
                   audio_path m = Some (dir ++ id ++ lit ".mp3"))
          end
      end
  end.
Proof.
  cbv zeta. unfold download_audio_and_metadata.
  destruct tempfile_mkdtemp as [temp_dir|e]; cbn [of_outcome rbind];
    [|reflexivity].
  fold (ydl_opts temp_dir).
  destruct (YoutubeDL_extract_info (ydl_opts temp_dir) video_url) as [info|e];
    cbn [of_outcome rbind]; [|reflexivity].
  unfold info_item. destruct (info !! "id"%string) as [id|]; [|reflexivity].
  cbn [rbind]. eexists. split; [reflexivity|]. cbn [description title channel
    thumbnail audio_path]. unfold slice_to, clamp_index.
  change (Z.to_nat (if 300 <? 0 then _ else 300)) with 300%nat.
  split; [|split; [|split; [|split; [|split; [|split]]]]]; try reflexivity.
  - unfold len. rewrite length_take. lia.
  - exists (drop 300 (default (lit "") (info !! "description"%string))).
    now rewrite take_drop.
  - intros Hlen. apply take_ge. unfold len in Hlen. lia.
  - intros Hid. destruct (os_path_join_prefix temp_dir) as [dir Hdir].
    exists dir. cbn [outtmpl ydl_opts]. split.
    + apply Hdir. reflexivity.
    + f_equal. apply Hdir. now rewrite startswith_slash_app.
Qed.

End Download.

Lemma download_audio_and_metadata_fields_witness :
  (exists m,
     download_audio_and_metadata SampleApp.temp_dir SampleApp.extract_info
       (lit "https://youtu.be/dQw4w9WgXcQ") = Ret m /\
     description m = repeat "d"%char 300 /\
     title m = lit "A talk" /\
     channel m = lit "Unknown" /\
     thumbnail m = None /\
     audio_path m = Some (lit "/tmp/tmpab12/dQw4w9WgXcQ.mp3")) /\
  download_audio_and_metadata SampleApp.temp_dir SampleApp.download_fails
    (lit "https://youtu.be/dQw4w9WgXcQ")
  = Raise (Exn OtherException (lit "ERROR: Video unavailable")).
Proof.
  split.
  - pose proof (download_audio_and_metadata_fields SampleApp.temp_dir
                  SampleApp.extract_info (lit "https://youtu.be/dQw4w9WgXcQ"))
      as H.
    cbv zeta in H.
    change (SampleApp.info !! "id"%string) with (Some (lit "dQw4w9WgXcQ")) in H.
    destruct H as (m & Hrun & _). exists m. split; [exact Hrun|].
    vm_compute in Hrun. inversion Hrun. vm_compute. repeat split.
  - exact (download_audio_and_metadata_fields SampleApp.temp_dir
             SampleApp.download_fails (lit "https://youtu.be/dQw4w9WgXcQ")).
Defined.

(** ** [display_thumbnail] *)

Section Thumbnail.
Import PyStr PyStrFacts Spec AppSpec.

Variable requests_get : option str -> outcome str.
Variable Image_open : str -> outcome image.

Lemma display_thumbnail_run (thumbnail_url : option str) (s : session) :
  display_thumbnail requests_get Image_open thumbnail_url s
  = (Ret tt,
     Session (outside s)
       (events s ++ [thumbnail_event requests_get Image_open thumbnail_url])).
Proof.
  unfold display_thumbnail, thumbnail_event, app_try, app_bind, call, tell.
  destruct (requests_get thumbnail_url) as [content|e]; cbn; [|reflexivity].
  destruct (Image_open content); reflexivity.
Qed.

(** X5: [display_thumbnail] never raises, whatever the address it is
    given ([None] included) and whatever the download and the decoder do.
    It adds exactly one thing to the page: the picture, when the download
    and the decoding both succeed, and otherwise the warning
    [Could not load thumbnail.]. *)
Theorem display_thumbnail_never_raises (thumbnail_url : option str)
    (s : session) :
  display_thumbnail requests_get Image_open thumbnail_url s
  = (Ret tt,
     Session (outside s)
       (events s ++ [thumbnail_event requests_get Image_open thumbnail_url])) /\
  match thumbnail_event requests_get Image_open thumbnail_url with
  | St_image img caption width =>
      caption = lit "Video Thumbnail" /\ width = lit "content" /\
      exists content,
        requests_get thumbnail_url = Returns content /\
        Image_open content = Returns img
  | St_warning body =>
      body = lit "Could not load thumbnail." /\
      ((exists e, requests_get thumbnail_url = Fails e) \/
       exists content e,
         requests_get thumbnail_url = Returns content /\
         Image_open content = Fails e)
  | _ => False
  end.
Proof.
  split; [apply display_thumbnail_run|]. unfold thumbnail_event.
  destruct (requests_get thumbnail_url) as [content|e] eqn:Eget.
  - destruct (Image_open content) as [img|e] eqn:Eopen.
    + repeat split. eauto.
    + split; [reflexivity|]. right. eauto.
  - split; [reflexivity|]. left. eauto.
Qed.

End Thumbnail.

(** ** Configuration *)

Section Startup.
Import PyStr PyStrFacts Spec.

Variable os_getenv : str -> option str.
Variable st_secrets_get : str -> outcome (option str).

Lemma truthy_some (v : option str) :
  truthy v = true -> exists c k, v = Some (c :: k).
Proof. destruct v as [[|c k]|]; try discriminate. eauto. Qed.

(** X6: the API key is the environment variable when that is set to
    something, and the secret otherwise: an environment variable that is
    set to the empty string counts as unset, and with a usable environment
    variable the secrets are not read at all, so that a missing secrets
    file does no harm. The key handed to [genai.configure] is never empty.
    Without a usable environment variable the secret decides: a secret that
    is not empty is the key; without one the error message is shown and
    the script stops; a failure to read the secrets is passed on, and
    nothing is shown. These are all the ways the start-up can go. *)
Theorem load_api_key_choice (s : session) :
  let run := load_api_key os_getenv st_secrets_get s in
  let from_env := os_getenv (lit "GEMINI_API_KEY") in
  let secret := st_secrets_get (lit "GEMINI_API_KEY") in
  let configured k :=
    (Ret (Some k), Session (outside s) (events s ++ [Genai_configure k])) in
  (forall k, from_env = Some k -> k <> [] -> run = configured k) /\
  (forall k, run.1 = Ret (Some k) ->
     k <> [] /\ run = configured k /\
     (from_env = Some k \/
      truthy from_env = false /\
      st_secrets_get (lit "GEMINI_API_KEY") = Returns (Some k))) /\
  (run.1 = Ret None ->
     truthy from_env = false /\
     (exists v, st_secrets_get (lit "GEMINI_API_KEY") = Returns v /\
                truthy v = false) /\
     run.2 = Session (outside s) (events s ++ [St_error api_key_missing])) /\
  (forall e, run.1 = Raise e ->
     truthy from_env = false /\
     st_secrets_get (lit "GEMINI_API_KEY") = Fails e /\ run.2 = s) /\
  (forall k,
     truthy from_env = false -> secret = Returns (Some k) -> k <> [] ->
     run = configured k) /\
  (forall v,
     truthy from_env = false -> secret = Returns v -> truthy v = false ->
     run = (Ret None,
            Session (outside s) (events s ++ [St_error api_key_missing]))) /\
  (forall e,
     truthy from_env = false -> secret = Fails e -> run = (Raise e, s)) /\
  run.1 <> Diverge.
Proof.
  cbv zeta. unfold load_api_key, app_bind, app_ret, call, tell.
  generalize api_key_missing (lit "GEMINI_API_KEY"). intros message name.
  destruct (os_getenv name) as [[|c k]|] eqn:Eenv; cbn.
  2: { split; [|split; [|split; [|split; [|split; [|split; [|split]]]]]];
         try discriminate.
       - intros k0 H _. now inversion H.
       - intros k0 H. inversion H; subst. auto. }
  all: destruct (st_secrets_get name) as [[[|c' k']|]|e'] eqn:Esec;
    cbn;
    ((split; [|split; [|split; [|split; [|split; [|split; [|split]]]]]]);
     [ intros k0 H Hne; inversion H; subst; congruence
     | intros k0 H; inversion H; subst; auto
     | intros H; try discriminate H; eauto
     | intros e0 H; inversion H; subst; auto
     | intros k0 _ H Hne; inversion H; subst; congruence
     | intros v _ H Hv; inversion H; subst; first [discriminate Hv|reflexivity]
     | intros e0 _ H; inversion H; subst; reflexivity
     | discriminate ]).
Qed.

End Startup.

Lemma load_api_key_choice_witness :
  load_api_key SampleApp.env_key SampleApp.no_secrets_file SampleApp.start
  = (Ret (Some (lit "env-key")),
     Session Sample.fresh [Genai_configure (lit "env-key")]) /\
  load_api_key SampleApp.empty_env SampleApp.secret_key SampleApp.start
  = (Ret (Some (lit "secret-key")),
     Session Sample.fresh [Genai_configure (lit "secret-key")]) /\
  load_api_key SampleApp.no_env SampleApp.no_secrets_file SampleApp.start
  = (Raise (Exn OtherException (lit "No secrets files found.")),
     SampleApp.start).
Proof.
  pose proof (load_api_key_choice SampleApp.env_key SampleApp.no_secrets_file
                SampleApp.start) as (Henv & _).
  pose proof (load_api_key_choice SampleApp.empty_env SampleApp.secret_key
                SampleApp.start) as (_ & _ & _ & _ & Hsecret & _).
  pose proof (load_api_key_choice SampleApp.no_env SampleApp.no_secrets_file
                SampleApp.start) as (_ & _ & _ & _ & _ & _ & Hfails & _).
  split; [|split].
  - apply (Henv (lit "env-key")); [reflexivity|discriminate].
  - apply (Hsecret (lit "secret-key")); [reflexivity|reflexivity|discriminate].
  - apply Hfails; reflexivity.
Defined.

(** ** [textwrap.wrap]: what the lines are made of *)

Section WrapCharacters.
Import PyStr PyStrFacts Textwrap TextwrapFacts Spec AppSpec.

Lemma thinned_Forall (Q : str -> Prop) (kept pieces : list str) :
  thinned kept pieces -> Forall Q pieces -> Forall Q kept.
Proof.
  induction 1 as [|p k l _ IH|p k l _ _ IH]; intros H.
  - constructor.
  - inversion H; subst. constructor; auto.
  - inversion H; subst. auto.
Qed.

Lemma Forall_concat_pieces {A} (P : A -> Prop) (pieces : list (list A)) :
  Forall P (concat pieces) <-> Forall (Forall P) pieces.
Proof.
  induction pieces as [|p pieces IH]; simpl.
  - split; constructor.
  - rewrite Forall_app, IH. split.
    + intros [H1 H2]. now constructor.
    + intros H. inversion H; subst. auto.
Qed.

(** Every character of a line of [wrap] is a character of the munged
    text. *)
Lemma wrap_chunks_characters (P : ascii -> Prop) (chunks : list str)
    (width : Z) (blw : bool) (lines : list str) :
  wrap_chunks chunks width blw = Ret lines ->
  Forall P (concat chunks) -> Forall (Forall P) lines.
Proof.
  intros H HP. destruct blw.
  - apply wrap_chunks_inv in H as [Hw H].
    pose (I := fun (todo done : list str) =>
                 Forall P (concat todo) /\ Forall (Forall P) done).
    assert (HI : I [] lines).
    { eapply (wrap_loop_invariant I); [|shelve|exact H].
      intros todo done todo' done' Hne [Ht Hd] Hp.
      apply wrap_pass_break in Hp as (d1 & body & d2 & Hc & _ & _ & Hl & _);
        [|lia|exact Hne].
      rewrite Hc in Ht. rewrite !Forall_app in Ht.
      destruct Ht as (_ & Hbody & _ & Hrest). split; [exact Hrest|].
      destruct Hl as [[-> _]| ->]; [exact Hd|].
      apply Forall_app. split; [exact Hd|]. now constructor. }
    Unshelve.
    + exact (proj2 HI).
    + split; [exact HP|constructor].
  - apply wrap_chunks_keep_groups in H as (groups & -> & _ & Ht).
    pose proof (proj1 (Forall_concat_pieces P chunks) HP) as H1.
    pose proof (thinned_Forall (Forall P) _ _ Ht H1) as H2.
    pose proof (proj1 (Forall_concat_pieces (Forall P) groups) H2) as H3.
    apply List.Forall_forall. intros l Hl. apply in_map_iff in Hl as (g & <- & Hg).
    apply Forall_concat_pieces.
    exact (proj1 (List.Forall_forall _ _) H3 g Hg).
Qed.

Lemma munge_no_control_whitespace (text : str) :
  Forall (fun c => control_whitespace c = false) (munge_whitespace text).
Proof.
  unfold munge_whitespace, translate_whitespace.
  apply List.Forall_forall. intros c Hc. apply in_map_iff in Hc as (c0 & <- & _).
  unfold control_whitespace.
  destruct (is_whitespace c0) eqn:E; [reflexivity|]. now rewrite E.
Qed.

(** No line of [wrap] holds a tab or a line break. *)
Lemma wrap_no_control_whitespace (text : str) (width : Z) (blw : bool)
    (lines : list str) :
  wrap text width blw = Ret lines ->
  Forall (Forall (fun c => control_whitespace c = false)) lines.
Proof.
  intros H. eapply wrap_chunks_characters; [exact H|].
  unfold split_chunks. rewrite split_concat. apply munge_no_control_whitespace.
Qed.

(** With [break_long_words] off no line of [wrap] is empty. *)
Lemma wrap_keep_nonempty (text : str) (width : Z) (lines : list str) :
  wrap text width false = Ret lines -> Forall (fun l => l <> []) lines.
Proof.
  intros H. apply wrap_chunks_keep_groups in H as (groups & -> & Hg & Ht).
  pose proof (thinned_Forall _ _ _ Ht (split_nonempty _)) as Hne.
  apply List.Forall_forall. intros l Hl. apply in_map_iff in Hl as (g & <- & Hin).
  eapply List.Forall_forall in Hg; [|exact Hin]. destruct Hg as [Hg _].
  destruct g as [|p g]; [exfalso; now apply Hg|].
  assert (Hp : In p (concat groups)).
  { apply in_concat. exists (p :: g). split; [exact Hin|now left]. }
  eapply List.Forall_forall in Hne; [|exact Hp].
  simpl. destruct p; [congruence|discriminate].
Qed.

End WrapCharacters.

(** ** [summarize_text]: outcomes and edge cases *)

Section SummarizeMore.
Import PyStr PyStrFacts Textwrap TextwrapFacts Spec AppSpec.

Variable model : list str -> str -> outcome str.

Lemma report_of_shape (error_prefix : str) (o : outcome str) :
  (exists body, report_of error_prefix o = report_header ++ body)
  \/ exists e, report_of error_prefix o = error_prefix ++ exn_str e.
Proof. destruct o; simpl; eauto. Qed.

Lemma summarize_text_reports (text : str) (chunk_size : Z) (w : world) :
  0 < chunk_size \/ len text <= chunk_size ->
  reports w (summarize_text model text chunk_size w).
Proof.
  intros H. unfold reports.
  destruct (Z.le_gt_cases (len text) chunk_size) as [Hd|Hc].
  - rewrite (summarize_text_direct model) by exact Hd.
    eexists. exists [direct_prompt text]. split; [reflexivity|].
    split; [|split; [discriminate|reflexivity]].
    destruct (report_of_shape generating_error
                (model (gen_log w) (direct_prompt text))); auto.
  - destruct H as [H|H]; [|lia].
    destruct (wrap_returns text chunk_size false H) as [chunks Hw].
    rewrite (summarize_text_chunked model text chunk_size w chunks Hc Hw).
    eexists. eexists. split; [reflexivity|].
    split; [|split; [|cbn [snd]; now rewrite <- app_assoc]].
    + destruct (report_of_shape combining_error
                  (model (gen_log w ++ map chunk_prompt chunks)
                     (final_prompt
                        (join [nl] (chunk_entries model (gen_log w) chunks)))));
        auto.
    + intros E. apply app_eq_nil in E as [_ E]. discriminate.
Qed.

(** X7: [summarize_text] raises in one case only: a chunk size that is
    not positive together with a text that is longer, where
    [textwrap.wrap] raises [ValueError] before any prompt has gone out.
    Everywhere else it returns a string, whatever the model does: the
    report under its header, or one of the two error messages. With the
    default chunk size it always returns. *)
Theorem summarize_text_outcome (text : str) (chunk_size : Z) (w : world) :
  (if (chunk_size <=? 0) && (chunk_size <? len text)
   then summarize_text model text chunk_size w
        = (Raise (invalid_width chunk_size), w)
   else reports w (summarize_text model text chunk_size w)) /\
  reports w (summarize_text_default model text w).
Proof.
  split.
  - destruct (chunk_size <=? 0) eqn:E1; destruct (chunk_size <? len text) eqn:E2;
      cbn [andb];
      try apply Z.leb_le in E1; try apply Z.leb_gt in E1;
      try apply Z.ltb_lt in E2; try apply Z.ltb_ge in E2.
    + now apply summarize_text_bad_width.
    + apply summarize_text_reports. now right.
    + apply summarize_text_reports. left. lia.
    + apply summarize_text_reports. now right.
  - apply summarize_text_reports. left. lia.
Qed.

(** X8: a text of nothing but spaces, tabs and line breaks that is
    longer than the chunk size makes no chunk at all: [summarize_text]
    sends a single prompt, the combination prompt with empty notes, and
    returns what the model makes of it. *)
Theorem summarize_text_whitespace_only (text : str) (chunk_size : Z)
    (w : world) :
  0 < chunk_size -> chunk_size < len text ->
  Forall (fun c => is_whitespace c = true) text ->
  summarize_text model text chunk_size w
  = (Ret match model (gen_log w) (final_prompt (lit "")) with
         | Returns response_text => report_header ++ strip response_text
         | Fails e => combining_error ++ exn_str e
         end,
     World (gen_log w ++ [final_prompt (lit "")]) (info_log w)).
Proof.
  intros Hw Hlen Hws.
  pose proof (wrap_all_whitespace text chunk_size false Hw Hws) as Hwrap.
  rewrite (summarize_text_chunked model text chunk_size w [] Hlen Hwrap).
  cbn [map chunk_entries join]. now rewrite app_nil_r.
Qed.

(** X9: in chunked mode the line structure of the transcript is gone:
    no chunk that goes to the model holds a tab or a line break (the
    newlines that [get_transcript] puts between captions have become
    spaces), and no chunk is empty. *)
Theorem summarize_text_chunks_one_line (text : str) (chunk_size : Z)
    (w : world) :
  0 < chunk_size -> chunk_size < len text ->
  exists chunks notes,
    wrap text chunk_size false = Ret chunks /\
    gen_log (summarize_text model text chunk_size w).2
    = gen_log w ++ map chunk_prompt chunks ++ [final_prompt notes] /\
    Forall (fun chunk =>
              chunk <> [] /\
              Forall (fun c => c <> nl /\ c <> "009"%char /\ c <> "013"%char
                               /\ c <> "011"%char /\ c <> "012"%char) chunk)
           chunks.
Proof.
  intros Hw Hlen.
  destruct (wrap_returns text chunk_size false Hw) as [chunks Hc].
  exists chunks. eexists. split; [exact Hc|]. split.
  - rewrite (summarize_text_chunked model text chunk_size w chunks Hlen Hc).
    cbn [snd gen_log]. now rewrite <- app_assoc.
  - pose proof (wrap_keep_nonempty _ _ _ Hc) as Hne.
    pose proof (wrap_no_control_whitespace _ _ _ _ Hc) as Hplain.
    apply List.Forall_forall. intros chunk Hin. split.
    + exact (proj1 (List.Forall_forall _ _) Hne chunk Hin).
    + pose proof (proj1 (List.Forall_forall _ _) Hplain chunk Hin) as Hch.
      eapply Forall_impl; [exact Hch|]. clear. intros c Hc. cbv beta in Hc.
      repeat split; intros ->; discriminate.
Qed.

End SummarizeMore.

Lemma summarize_text_whitespace_only_witness :
  summarize_text Sample.steady_model (lit "  	 
 ") 3 Sample.fresh
  = (Ret (report_header ++ lit "- a point"),
     World [final_prompt (lit "")] []).
Proof.
  rewrite (summarize_text_whitespace_only Sample.steady_model (lit "  	 
 ") 3 Sample.fresh).
  - reflexivity.
  - lia.
  - vm_compute. reflexivity.
  - repeat constructor.
Defined.

Lemma summarize_text_chunks_one_line_witness :
  exists chunks notes,
    Textwrap.wrap (lit "first caption
second caption") 16 false = Ret chunks /\
    gen_log (summarize_text Sample.steady_model (lit "first caption
second caption") 16 Sample.fresh).2
    = [] ++ map chunk_prompt chunks ++ [final_prompt notes] /\
    Forall (fun chunk =>
              chunk <> [] /\
              Forall (fun c => c <> nl /\ c <> "009"%char /\ c <> "013"%char
                               /\ c <> "011"%char /\ c <> "012"%char) chunk)
           chunks.
Proof.
  apply (summarize_text_chunks_one_line Sample.steady_model (lit "first caption
second caption") 16 Sample.fresh).
  - lia.
  - vm_compute. reflexivity.
Defined.

(** ** [save_pdf]: margins, pages and text *)

Section SavePdfMore.
Import PyStr PyStrFacts Textwrap TextwrapFacts Spec AppSpec.

Variable gettempdir : str.

Lemma cursor_at_letter_range (i : nat) : 52 <= cursor_at 792 i <= 742.
Proof.
  rewrite cursor_at_letter. destruct (Nat.ltb_spec i 45) as [E|E]; [lia|].
  pose proof (Z.mod_pos_bound (Z.of_nat i - 45) 47 ltac:(lia)). lia.
Qed.

Lemma render_from_margins (i : nat) (lines : list str) :
  Forall (fun op => match op with
                    | DrawString x y _ => x = 50 /\ 52 <= y <= 742
                    | _ => True
                    end) (render_from 792 i lines).
Proof.
  revert i. induction lines as [|l lines IH]; intros i; simpl; [constructor|].
  constructor; [split; [reflexivity|apply cursor_at_letter_range]|].
  apply Forall_app. split; [|apply IH].
  destruct (page_full 792 i); repeat constructor.
Qed.

Lemma drawn_app (ops1 ops2 : list canvas_op) :
  drawn (ops1 ++ ops2) = drawn ops1 ++ drawn ops2.
Proof. unfold drawn. apply flat_map_app. Qed.

Lemma drawn_render_from (height : Z) (i : nat) (lines : list str) :
  drawn (render_from height i lines) = lines.
Proof.
  revert i. induction lines as [|l lines IH]; intros i; [reflexivity|].
  cbn [render_from]. change (drawn (?a :: ?b)) with (drawn [a] ++ drawn b).
  rewrite drawn_app, IH. destruct (page_full height i); reflexivity.
Qed.

Lemma pages_closed_app (ops1 ops2 : list canvas_op) :
  pages_closed (ops1 ++ ops2) = (pages_closed ops1 + pages_closed ops2)%nat.
Proof. unfold pages_closed. now rewrite List.filter_app, length_app. Qed.

Lemma closed_after_step (i : nat) :
  closed_after (S i) = closed_after i + (if page_full 792 i then 1 else 0).
Proof.
  rewrite page_full_letter. unfold closed_after.
  destruct (Nat.ltb_spec (S i) 45) as [E1|E1];
    destruct (Nat.ltb_spec i 45) as [E2|E2]; try lia.
  - replace (i =? 44)%nat with false by (symmetry; apply Nat.eqb_neq; lia).
    replace (45 <=? i)%nat with false by (symmetry; apply Nat.leb_gt; lia).
    reflexivity.
  - assert (i = 44%nat) by lia. subst i. reflexivity.
  - replace (i =? 44)%nat with false by (symmetry; apply Nat.eqb_neq; lia).
    replace (45 <=? i)%nat with true by (symmetry; apply Nat.leb_le; lia).
    cbn [orb andb].
    replace (Z.of_nat (S i) - 45) with (Z.of_nat i - 45 + 1) by lia.
    destruct (Z.eqb_spec ((Z.of_nat i - 45) mod 47) 46) as [E|E];
      cbv iota; Z.div_mod_to_equations; lia.
Qed.

Lemma pages_closed_render_from (i : nat) (lines : list str) :
  Z.of_nat (pages_closed (render_from 792 i lines))
  = closed_after (i + length lines) - closed_after i.
Proof.
  revert i. induction lines as [|l lines IH]; intros i.
  - cbn [render_from length]. rewrite Nat.add_0_r, Z.sub_diag. reflexivity.
  - cbn [render_from length].
    change (pages_closed (?a :: ?b)) with (pages_closed ([a] ++ b)).
    rewrite !pages_closed_app, !Nat2Z.inj_add, IH.
    replace (i + S (length lines))%nat with (S i + length lines)%nat by lia.
    rewrite (closed_after_step i).
    destruct (page_full 792 i); cbn; lia.
Qed.

Lemma ink_join_lines (lines : list str) :
  ink (join [nl] lines) = concat (map ink lines).
Proof.
  induction lines as [|p rest IH]; [reflexivity|].
  destruct rest as [|q rest].
  - simpl. now rewrite app_nil_r.
  - change (join [nl] (p :: q :: rest)) with (p ++ [nl] ++ join [nl] (q :: rest)).
    rewrite !ink_app, IH. reflexivity.
Qed.

Lemma ink_wrapped (lines : list str) (wrapped : list (list str)) :
  Forall2 (fun line sub_lines =>
             wrap line 100 true = Ret sub_lines /\
             Forall (fun l => len l <= 100) sub_lines /\
             ink (concat sub_lines) = ink line) lines wrapped ->
  ink (concat (concat wrapped)) = concat (map ink lines) /\
  Forall (Forall (fun c => control_whitespace c = false)) (concat wrapped).
Proof.
  induction 1 as [|line sub_lines lines wrapped (Hw & _ & Hink) _ [IH1 IH2]].
  - split; [reflexivity|constructor].
  - cbn [concat map]. rewrite concat_app, ink_app, Hink, IH1.
    split; [reflexivity|]. apply Forall_app. split; [|exact IH2].
    exact (wrap_no_control_whitespace _ _ _ _ Hw).
Qed.

Variable Canvas_save : canvas -> outcome unit.

(** X10: [save_pdf] keeps every [drawString] inside the margins of the
    letter page: all text starts 50 points from the left, the title
    stands at height 742, and no line is drawn above 742 or below 52 (two
    points clear of the bottom margin of 50). This holds of the canvas as
    it is handed to [c.save()], whatever the title, the text and the file
    name; the function returns the path when [c.save()] writes the file,
    and raises what [c.save()] raises when it does not. *)
Theorem save_pdf_within_margins (title summary_text filename : str) :
  exists c,
    cv_path c = os_path_join gettempdir filename /\
    cv_pagesize c = (612, 792) /\
    Forall (fun op => match op with
                      | DrawString x y _ => x = 50 /\ 52 <= y <= 742
                      | _ => True
                      end) (cv_ops c) /\
    (exists ops, cv_ops c = ops ++ [Save]) /\
    save_pdf_to_disk gettempdir Canvas_save title summary_text filename
    = match Canvas_save c with
      | Returns _ => Ret (os_path_join gettempdir filename, c)
      | Fails e => Raise e
      end.
Proof.
  destruct (rmap_wrap100 (PyStr.split nl summary_text)) as (wrapped & Hw & _).
  pose proof (save_pdf_spec gettempdir title summary_text filename _ Hw) as Hsave.
  exists (Canvas (os_path_join gettempdir filename) letter
            (first_calls title ++ render_from 792 0 (concat wrapped) ++ [Save])).
  split; [reflexivity|]. split; [reflexivity|]. cbn [cv_ops].
  split; [|split].
  - apply Forall_app. split; [repeat constructor; lia|].
    apply Forall_app. split; [apply render_from_margins|repeat constructor].
  - eexists. rewrite app_assoc. reflexivity.
  - unfold save_pdf_to_disk. rewrite Hsave. cbn [rbind snd].
    destruct (Canvas_save _) as [[]|e]; reflexivity.
Qed.

(** X11: the number of pages [save_pdf] closes with [showPage] is fixed
    by the number [n] of sub-lines it draws: none below 45 sub-lines, and
    from there on one more for every 47 sub-lines. When the sub-lines fill
    their last page to the last line, that page is closed too, just before
    the document is saved. *)
Theorem save_pdf_pages_closed (title summary_text filename : str) :
  exists c,
    save_pdf gettempdir title summary_text filename
    = Ret (os_path_join gettempdir filename, c) /\
    let n := (length (drawn (cv_ops c)) - 1)%nat in
    Z.of_nat (pages_closed (cv_ops c))
    = (if (n <? 45)%nat then 0 else 1 + (Z.of_nat n - 45) / 47) /\
    (n = 45%nat \/ (45 < n)%nat /\ (Z.of_nat n - 45) mod 47 = 0 ->
     exists ops, cv_ops c = ops ++ [ShowPage; Save]).
Proof.
  destruct (rmap_wrap100 (PyStr.split nl summary_text)) as (wrapped & Hw & _).
  eexists. split; [apply (save_pdf_spec _ _ _ _ _ Hw)|].
  cbn [cv_ops].
  assert (Hn : (length (drawn (first_calls title
                                 ++ render_from 792 0 (concat wrapped)
                                 ++ [Save])) - 1)%nat
               = length (concat wrapped)).
  { rewrite !drawn_app, drawn_render_from, !length_app.
    change (length (drawn (first_calls title))) with 1%nat.
    change (length (drawn [Save])) with 0%nat. lia. }
  cbv zeta. rewrite Hn. clear Hn. split.
  - rewrite !pages_closed_app, !Nat2Z.inj_add, pages_closed_render_from.
    change (pages_closed (first_calls title)) with 0%nat.
    change (pages_closed [Save]) with 0%nat.
    change (closed_after (0 + length (concat wrapped)) - closed_after 0)
      with (closed_after (length (concat wrapped)) - 0).
    change (Z.of_nat 0) with 0.
    rewrite Z.add_0_l, Z.add_0_r, Z.sub_0_r. reflexivity.
  - intros Hfull.
    destruct (concat wrapped) as [|l lines _] using rev_ind;
      [cbn in Hfull; lia|].
    rewrite length_app in Hfull. cbn [length] in Hfull.
    rewrite render_from_app. cbn [render_from].
    assert (Hp : page_full 792 (0 + length lines) = true).
    { rewrite page_full_letter. cbn [Nat.add].
      destruct Hfull as [Hn|[Hn Hm]].
      - replace (length lines) with 44%nat by lia. reflexivity.
      - replace (length lines =? 44)%nat with false
          by (symmetry; apply Nat.eqb_neq; lia).
        replace (45 <=? length lines)%nat with true
          by (symmetry; apply Nat.leb_le; lia).
        cbn [orb andb]. apply Z.eqb_eq.
        replace (Z.of_nat (length lines + 1) - 45)
          with (Z.of_nat (length lines) - 45 + 1) in Hm by lia.
        revert Hm. Z.div_mod_to_equations. lia. }
    rewrite Hp. cbn [app].
    exists (first_calls title ++ render_from 792 0 lines
              ++ [DrawString 50 (cursor_at 792 (0 + length lines)) l]).
    now rewrite <- !app_assoc.
Qed.

Lemma save_pdf_text (title summary_text filename : str) :
  exists c sub_lines,
    save_pdf gettempdir title summary_text filename
    = Ret (os_path_join gettempdir filename, c) /\
    cv_path c = os_path_join gettempdir filename /\
    drawn (cv_ops c) = title :: sub_lines /\
    ink (concat sub_lines) = ink summary_text /\
    Forall (Forall (fun c => control_whitespace c = false)) sub_lines.
Proof.
  destruct (rmap_wrap100 (PyStr.split nl summary_text)) as (wrapped & Hw & Hall).
  apply ink_wrapped in Hall as [Hink Hplain].
  eexists. exists (concat wrapped).
  split; [apply (save_pdf_spec _ _ _ _ _ Hw)|]. split; [reflexivity|].
  cbn [cv_ops]. rewrite !drawn_app, drawn_render_from.
  change (drawn (first_calls title)) with [title].
  change (drawn [Save]) with (@nil str). rewrite app_nil_r.
  split; [reflexivity|]. split; [|exact Hplain].
  rewrite Hink, <- ink_join_lines, split_join. reflexivity.
Qed.

(** X12: what [save_pdf] draws is the title, as it is, and then the
    report line by line: the sub-lines, put side by side, hold the
    characters of the whole report that are not whitespace, all of them and
    in order, and no sub-line holds a tab or a line break. *)
Theorem save_pdf_drawn_text (title summary_text filename : str) :
  exists c sub_lines,
    save_pdf gettempdir title summary_text filename
    = Ret (os_path_join gettempdir filename, c) /\
    cv_path c = os_path_join gettempdir filename /\
    drawn (cv_ops c) = title :: sub_lines /\
    ink (concat sub_lines) = ink summary_text /\
    Forall (Forall (fun c => c <> nl /\ c <> "009"%char /\ c <> "013"%char
                             /\ c <> "011"%char /\ c <> "012"%char))
           sub_lines.
Proof.
  destruct (save_pdf_text title summary_text filename)
    as (c & sub_lines & Hrun & Hpath & Hdrawn & Hink & Hplain).
  exists c, sub_lines. repeat split; try assumption.
  eapply Forall_impl; [exact Hplain|]. intros l Hl. cbv beta in Hl.
  eapply Forall_impl; [exact Hl|]. clear. intros c Hc. cbv beta in Hc.
  repeat split; intros ->; discriminate.
Qed.

End SavePdfMore.

(** ** The page *)

Section Page.
Import PyStr PyStrFacts Textwrap TextwrapFacts Spec AppSpec.

Variable model : list str -> str -> outcome str.
Variable YouTubeTranscriptApi_get_transcript :
  str -> outcome (list (gmap string str)).
Variable urlparse_query : str -> result str.
Variable unquote : str -> str.
Variable gettempdir : str.
Variable os_getenv : str -> option str.
Variable st_secrets_get : str -> outcome (option str).
Variable tempfile_mkdtemp : outcome str.
Variable YoutubeDL_extract_info :
  ydl_options -> str -> outcome (gmap string str).
Variable whisper_model_transcribe : str -> outcome (list str).
Variable requests_get : option str -> outcome str.
Variable Image_open : str -> outcome image.
Variable Canvas_save : canvas -> outcome unit.

Local Abbreviation fetch :=
  (get_transcript YouTubeTranscriptApi_get_transcript).
Local Abbreviation download :=
  (download_audio_and_metadata tempfile_mkdtemp YoutubeDL_extract_info).
Local Abbreviation transcribe := (transcribe_audio whisper_model_transcribe).
Local Abbreviation shown := (thumbnail_event requests_get Image_open).
Local Abbreviation source :=
  (video_source YouTubeTranscriptApi_get_transcript tempfile_mkdtemp
     YoutubeDL_extract_info whisper_model_transcribe).
Local Abbreviation report :=
  (video_report model gettempdir requests_get Image_open Canvas_save).
Local Abbreviation page :=
  (video_page model YouTubeTranscriptApi_get_transcript gettempdir
     tempfile_mkdtemp YoutubeDL_extract_info whisper_model_transcribe
     requests_get Image_open Canvas_save).
Local Abbreviation button_pressed :=
  (summarize_video model YouTubeTranscriptApi_get_transcript urlparse_query
     unquote gettempdir tempfile_mkdtemp YoutubeDL_extract_info
     whisper_model_transcribe requests_get Image_open Canvas_save).
Local Abbreviation pdf_name video_id := (video_id ++ lit "_summary.pdf").
Local Abbreviation fetching :=
  (St_spinner (lit "Fetching transcript or audio...")).
Local Abbreviation using_whisper :=
  (St_warning (lit "No transcript found. Using Whisper...")).

(** *** Steps of the page *)

Lemma app_bind_tell {B} (e : event) (k : unit -> App B) (s : session) :
  app_bind (tell e) k s = k tt (Session (outside s) (events s ++ [e])).
Proof. reflexivity. Qed.

Lemma app_bind_call {A B} (r : result A) (k : A -> App B) (s : session) :
  app_bind (call r) k s
  = match r with
    | Ret a => k a s
    | Raise e => (Raise e, s)
    | Diverge => (Diverge, s)
    end.
Proof. unfold app_bind, call. destruct r; reflexivity. Qed.

Lemma app_bind_in_world {A B} (m : M A) (k : A -> App B) (s : session)
    (a : A) (w : world) :
  m (outside s) = (Ret a, w) ->
  app_bind (in_world m) k s
  = k a (Session w (events s ++ notices (outside s) w)).
Proof. intros H. unfold app_bind, in_world. now rewrite H. Qed.

Lemma notices_none (w w' : world) :
  info_log w' = info_log w -> notices w w' = [].
Proof. intros H. unfold notices. rewrite H, drop_all. reflexivity. Qed.

Lemma notices_one (w w' : world) (msg : str) :
  info_log w' = info_log w ++ [msg] -> notices w w' = [St_info msg].
Proof. intros H. unfold notices. rewrite H, drop_app_length. reflexivity. Qed.

(** [get_transcript] always returns, and sends no prompt; it leaves the
    world as it is, or shows its one notice and returns [None]. *)
Lemma get_transcript_total (video_id : str) (w : world) :
  exists t w',
    fetch video_id w = (Ret t, w') /\ gen_log w' = gen_log w /\
    (w' = w \/
     t = None /\ w' = World (gen_log w) (info_log w ++ [whisper_notice])).
Proof.
  unfold get_transcript, try_except, bind, lift, ret, st_info.
  destruct (YouTubeTranscriptApi_get_transcript video_id) as [transcript|e];
    simpl.
  - destruct (rmap_entry_text transcript) as [[texts ->]| ->]; simpl; eauto 7.
  - destruct e as [[] msg]; simpl; eauto 7.
Qed.

(** A transcript that is not empty comes with no notice. *)
Lemma get_transcript_quiet (video_id : str) (w w' : world) (t : option str) :
  fetch video_id w = (Ret t, w') -> truthy t = true -> w' = w.
Proof.
  intros Hf Ht.
  destruct (get_transcript_total video_id w) as (t0 & w0 & H0 & _ & Hw).
  rewrite Hf in H0. inversion H0; subst t0 w0.
  destruct Hw as [Hw|[-> _]]; [exact Hw|discriminate].
Qed.

(** The metadata that [download_audio_and_metadata] returns always has an
    audio path. *)
Lemma download_has_audio_path (video_url : str) (m : metadata) :
  download video_url = Ret m -> exists p, audio_path m = Some p.
Proof.
  unfold download_audio_and_metadata.
  destruct tempfile_mkdtemp as [temp_dir|e]; cbn [of_outcome rbind];
    [|discriminate].
  destruct (YoutubeDL_extract_info (ydl_opts temp_dir) video_url) as [info|e];
    cbn [of_outcome rbind]; [|discriminate].
  destruct (info_item info "id") as [id| |]; cbn [rbind]; try discriminate.
  intros H. inversion H. cbn [audio_path]. eauto.
Qed.

(** The second half of the page raises only what [c.save()] raises, and
    then the page ends on the summary. *)
Lemma video_report_run (video_id : str) (m : metadata) (text : str)
    (s : session) :
  let run := summarize_text_default model text (outside s) in
  exists summary c sub_lines,
    run.1 = Ret summary /\
    reports (outside s) run /\
    save_pdf gettempdir (title m) summary (pdf_name video_id)
    = Ret (os_path_join gettempdir (pdf_name video_id), c) /\
    cv_path c = os_path_join gettempdir (pdf_name video_id) /\
    drawn (cv_ops c) = title m :: sub_lines /\
    ink (concat sub_lines) = ink summary /\
    report video_id m text s
    = match Canvas_save c with
      | Returns _ =>
          (Ret tt,
           Session run.2
             (events s
                ++ page_body video_id m (shown (thumbnail m)) summary c))
      | Fails e =>
          (Raise e,
           Session run.2
             (events s ++ page_summary m (shown (thumbnail m)) summary))
      end.
Proof.
  cbv zeta.
  pose proof (summarize_text_reports model text 2000 (outside s)
                ltac:(left; lia)) as Hrep.
  fold (summarize_text_default model text (outside s)) in Hrep.
  destruct (summarize_text_default model text (outside s))
    as [r w'] eqn:Erun.
  pose proof Hrep as (summary & prompts & Hr & _ & _ & Hw). cbn [fst] in Hr.
  cbn [snd] in Hw. subst r.
  destruct (save_pdf_text gettempdir (title m) summary (pdf_name video_id))
    as (c & sub_lines & Hsave & Hpath & Hdrawn & Hink & _).
  exists summary, c, sub_lines.
  split; [reflexivity|]. split; [exact Hrep|]. split; [exact Hsave|].
  split; [exact Hpath|]. split; [exact Hdrawn|]. split; [exact Hink|].
  unfold video_report. rewrite !app_bind_tell.
  unfold app_bind at 1. rewrite display_thumbnail_run.
  rewrite app_bind_tell.
  rewrite (app_bind_in_world _ _ _ summary w') by exact Erun.
  cbn [outside events].
  rewrite (notices_none (outside s) w') by (rewrite Hw; reflexivity).
  rewrite app_nil_r.
  rewrite !app_bind_tell, app_bind_call.
  unfold save_pdf_to_disk. rewrite Hsave. cbn [rbind snd].
  unfold page_body, page_summary, tell. cbn [outside events snd].
  destruct (Canvas_save c) as [[]|e]; cbn [of_outcome rbind];
    now rewrite <- !app_assoc.
Qed.

(** The first half of the page, when YouTube has a transcript that is not
    empty, and when it has not. *)
Lemma video_source_youtube (video_url video_id : str) (s : session)
    (t : option str) (w' : world) :
  fetch video_id (outside s) = (Ret t, w') -> truthy t = true ->
  source video_url video_id s
  = (Ret (youtube_metadata video_id, default [] t),
     Session w' (events s ++ [fetching])).
Proof.
  intros Hf Ht. unfold video_source. rewrite app_bind_tell.
  rewrite (app_bind_in_world _ _ _ t w') by exact Hf.
  rewrite Ht. cbn [outside events].
  rewrite (get_transcript_quiet _ _ _ _ Hf Ht).
  rewrite notices_none by reflexivity. now rewrite app_nil_r.
Qed.

Lemma video_source_whisper (video_url video_id : str) (s : session)
    (t : option str) (w' : world) :
  fetch video_id (outside s) = (Ret t, w') -> truthy t = false ->
  source video_url video_id s
  = (rbind (download video_url) (fun m =>
       rbind (metadata_audio_path m) (fun p =>
         rbind (transcribe p) (fun text => Ret (m, text)))),
     Session w'
       (events s ++ [fetching] ++ notices (outside s) w' ++ [using_whisper])).
Proof.
  intros Hf Ht. unfold video_source. rewrite app_bind_tell.
  rewrite (app_bind_in_world _ _ _ t w') by exact Hf.
  rewrite Ht, app_bind_tell. cbn [outside events].
  rewrite <- !app_assoc.
  rewrite app_bind_call. destruct (download video_url) as [m| |];
    cbn [rbind]; try reflexivity.
  rewrite app_bind_call. destruct (metadata_audio_path m) as [p| |];
    cbn [rbind]; try reflexivity.
  rewrite app_bind_call. destruct (transcribe p) as [text| |];
    cbn [rbind]; reflexivity.
Qed.

Lemma transcribe_never_diverges (p : str) : transcribe p <> Diverge.
Proof.
  unfold transcribe_audio.
  destruct (whisper_model_transcribe p); cbn; discriminate.
Qed.

Lemma download_never_diverges (video_url : str) : download video_url <> Diverge.
Proof.
  unfold download_audio_and_metadata.
  destruct tempfile_mkdtemp as [temp_dir|e]; cbn [of_outcome rbind];
    [|discriminate].
  destruct (YoutubeDL_extract_info (ydl_opts temp_dir) video_url) as [info|e];
    cbn [of_outcome rbind]; [|discriminate].
  unfold info_item. destruct (info !! "id"%string); cbn [rbind]; discriminate.
Qed.

(** The page as a whole, on each of the two paths. *)
Lemma video_page_youtube (video_url video_id : str) (s : session)
    (t : str) (w' : world) :
  fetch video_id (outside s) = (Ret (Some t), w') -> t <> [] ->
  page video_url video_id s
  = report video_id (youtube_metadata video_id) t
      (Session w' (events s ++ [fetching])).
Proof.
  intros Hf Ht.
  assert (Htruthy : truthy (Some t) = true) by (destruct t; [congruence|reflexivity]).
  unfold video_page, app_bind.
  rewrite (video_source_youtube _ _ _ _ _ Hf Htruthy). reflexivity.
Qed.

Lemma video_page_whisper (video_url video_id : str) (s : session)
    (t : option str) (w' : world) :
  fetch video_id (outside s) = (Ret t, w') -> truthy t = false ->
  let stopped :=
    Session w'
      (events s ++ [fetching] ++ notices (outside s) w' ++ [using_whisper]) in
  match download video_url with
  | Ret m =>
      exists p,
        audio_path m = Some p /\
        match transcribe p with
        | Ret text => page video_url video_id s = report video_id m text stopped
        | Raise e => page video_url video_id s = (Raise e, stopped)
        | Diverge => False
        end
  | Raise e => page video_url video_id s = (Raise e, stopped)
  | Diverge => False
  end.
Proof.
  intros Hf Ht. cbv zeta.
  pose proof (video_source_whisper video_url video_id s t w' Hf Ht) as Hsrc.
  pose proof (download_never_diverges video_url) as Hnd.
  destruct (download video_url) as [m|e|] eqn:Ed; [| |congruence].
  - destruct (download_has_audio_path _ _ Ed) as [p Hp].
    exists p. split; [exact Hp|].
    cbn [rbind] in Hsrc. unfold metadata_audio_path in Hsrc.
    rewrite Hp in Hsrc. cbn [rbind] in Hsrc.
    pose proof (transcribe_never_diverges p) as Hnt.
    destruct (transcribe p) as [text|e|] eqn:Et; [| |congruence];
      cbn [rbind] in Hsrc; unfold video_page, app_bind; now rewrite Hsrc.
  - cbn [rbind] in Hsrc. unfold video_page, app_bind. now rewrite Hsrc.
Qed.

Lemma os_path_join_directory (a b : str) :
  Forall (fun c => c <> "/"%char) b -> os_path_join a b = directory a ++ b.
Proof.
  intros Hb. unfold os_path_join, directory.
  assert (Hs : startswith (lit "/") b = false).
  { destruct Hb as [|c b Hc _]; [reflexivity|].
    change (startswith (lit "/") (c :: b)) with (Ascii.eqb "/" c && true).
    rewrite andb_true_r. apply Ascii.eqb_neq. congruence. }
  rewrite Hs. destruct (last a) as [c|]; [|reflexivity].
  destruct (Ascii.eqb c "/"); [reflexivity|]. now rewrite <- app_assoc.
Qed.

(** A run of the second half that completes ends with the summary and the
    download button, and the document behind the button is made of the
    summary above it. *)
Lemma video_report_document (video_id : str) (m : metadata) (text : str)
    (s : session) :
  (report video_id m text s).1 = Ret tt ->
  exists summary c sub_lines before,
    events (report video_id m text s).2
    = before ++ [St_subheader (lit "📝 AI Summary");
                 St_markdown summary;
                 St_download_button (lit "📄 Download PDF Notes") c
                   (title m ++ lit "_summary.pdf") (lit "application/pdf")] /\
    In (St_markdown (lit "**Title:** " ++ title m)) before /\
    cv_path c = os_path_join gettempdir (pdf_name video_id) /\
    drawn (cv_ops c) = title m :: sub_lines /\
    ink (concat sub_lines) = ink summary.
Proof.
  destruct (video_report_run video_id m text s)
    as (summary & c & sub_lines & _ & _ & _ & H4 & H5 & H6 & H7).
  rewrite H7. destruct (Canvas_save c) as [[]|e]; [|discriminate].
  intros _. exists summary, c, sub_lines.
  exists (events s ++ take 6 (page_body video_id m (shown (thumbnail m))
                                summary c)).
  cbn [snd events]. unfold page_body. cbn [take].
  rewrite <- app_assoc. split; [reflexivity|].
  split; [apply in_or_app; right; right; now left|]. auto.
Qed.

(** When the page completes, it ends with the summary and the download
    button, and the document behind the button is made of the summary
    above it. *)
Lemma video_page_document (video_url video_id : str) (s : session) :
  let run := page video_url video_id s in
  run.1 = Ret tt ->
  exists m summary c sub_lines before,
    events run.2
    = before ++ [St_subheader (lit "📝 AI Summary");
                 St_markdown summary;
                 St_download_button (lit "📄 Download PDF Notes") c
                   (title m ++ lit "_summary.pdf") (lit "application/pdf")] /\
    In (St_markdown (lit "**Title:** " ++ title m)) before /\
    cv_path c = os_path_join gettempdir (pdf_name video_id) /\
    drawn (cv_ops c) = title m :: sub_lines /\
    ink (concat sub_lines) = ink summary.
Proof.
  cbv zeta. intros Hrun.
  destruct (get_transcript_total video_id (outside s)) as (t & w' & Hf & _).
  destruct (truthy t) eqn:Et.
  - apply truthy_some in Et as (ch & k & ->).
    rewrite (video_page_youtube video_url video_id s (ch :: k) w' Hf
               ltac:(discriminate)) in Hrun |- *.
    destruct (video_report_document _ _ _ _ Hrun)
      as (summary & c & sub_lines & before & H).
    now exists (youtube_metadata video_id), summary, c, sub_lines, before.
  - pose proof (video_page_whisper video_url video_id s t w' Hf Et) as H.
    cbv zeta in H.
    destruct (download video_url) as [m|e|] eqn:Ed;
      [|rewrite H in Hrun; discriminate|contradiction].
    destruct H as (p & Hp & H).
    destruct (transcribe p) as [text|e|];
      [|rewrite H in Hrun; discriminate|contradiction].
    rewrite H in Hrun |- *.
    destruct (video_report_document _ _ _ _ Hrun)
      as (summary & c & sub_lines & before & H').
    now exists m, summary, c, sub_lines, before.
Qed.

(** *** What the page does *)

(** X13: when YouTube delivers captions, each with a text, whose
    joined text is not empty, the page works from them alone: it announces
    no Whisper run and the outcome does not depend on yt-dlp or on Whisper.
    It shows the title [YouTube Video] followed by the identifier, the
    channel [Unknown], an empty description and the thumbnail fetched from
    [img.youtube.com], and summarizes the captions joined with newlines
    with the default chunk size, whatever the model and the thumbnail
    download do. It then saves the document under the identifier followed
    by [_summary.pdf]: when [c.save()] can write the file the page ends
    normally with the download button, and when it cannot (an identifier
    like [a/b] names a directory that is not there) the exception leaves
    the page, which then ends on the summary, without a button. *)
Theorem video_page_with_transcript (video_url video_id : str) (s : session)
    (transcript : list (gmap string str)) (texts : list str) :
  YouTubeTranscriptApi_get_transcript video_id = Returns transcript ->
  Forall2 (fun entry text => entry !! "text"%string = Some text)
          transcript texts ->
  join [nl] texts <> [] ->
  let run := summarize_text_default model (join [nl] texts) (outside s) in
  let m := {| title := lit "YouTube Video " ++ video_id;
              channel := lit "Unknown";
              thumbnail := Some (lit "https://img.youtube.com/vi/"
                                   ++ video_id ++ lit "/hqdefault.jpg");
              description := lit "";
              audio_path := None |} in
  exists summary c,
    run.1 = Ret summary /\
    save_pdf gettempdir (lit "YouTube Video " ++ video_id) summary
      (video_id ++ lit "_summary.pdf")
    = Ret (os_path_join gettempdir (video_id ++ lit "_summary.pdf"), c) /\
    page video_url video_id s
    = match Canvas_save c with
      | Returns _ =>
          (Ret tt,
           Session run.2
             (events s ++ St_spinner (lit "Fetching transcript or audio...")
                :: page_body video_id m (shown (thumbnail m)) summary c))
      | Fails e =>
          (Raise e,
           Session run.2
             (events s ++ St_spinner (lit "Fetching transcript or audio...")
                :: page_summary m (shown (thumbnail m)) summary))
      end.
Proof.
  intros Hsvc Htexts Hne. cbv zeta.
  assert (Hf : fetch video_id (outside s)
               = (Ret (Some (join [nl] texts)), outside s)).
  { unfold get_transcript, try_except, bind, lift, ret.
    rewrite Hsvc. cbn [of_outcome].
    rewrite (rmap_entry_text_all _ _ Htexts). reflexivity. }
  rewrite (video_page_youtube video_url video_id s _ _ Hf Hne).
  destruct (video_report_run video_id (youtube_metadata video_id)
              (join [nl] texts) (Session (outside s) (events s ++ [fetching])))
    as (summary & c & sub_lines & H1 & _ & H3 & _ & _ & _ & H7).
  cbn [outside events] in *.
  exists summary, c. split; [exact H1|]. split; [exact H3|].
  rewrite H7. destruct (Canvas_save c); now rewrite <- app_assoc.
Qed.

(** X14: when [get_transcript] comes back with [None] or with the empty
    string, the page says so ([No transcript found. Using Whisper...]) and
    turns to yt-dlp and Whisper. In front of that warning stands the
    [st.info] box of [get_transcript], when it showed one: it does so when
    the provider failed with something else than [TranscriptsDisabled] and
    [NoTranscriptFound]. What [download_audio_and_metadata] or
    [transcribe_audio] raises ends the run, with nothing more on the page.
    When both return, the audio path is there, and the page goes on with
    the downloaded metadata and the transcription of that path. *)
Theorem video_page_whisper_fallback (video_url video_id : str) (s : session)
    (t : option str) (w' : world) :
  fetch video_id (outside s) = (Ret t, w') ->
  t = None \/ t = Some (lit "") ->
  let spinner := St_spinner (lit "Fetching transcript or audio...") in
  let warning := St_warning (lit "No transcript found. Using Whisper...") in
  let stopped :=
    Session w' (events s ++ [spinner] ++ notices (outside s) w' ++ [warning]) in
  (w' = outside s /\ events stopped = events s ++ [spinner; warning]
   \/ w' = World (gen_log (outside s))
             (info_log (outside s) ++ [whisper_notice]) /\
      events stopped
      = events s ++ [spinner; St_info whisper_notice; warning]) /\
  (forall e,
     YouTubeTranscriptApi_get_transcript video_id = Fails e ->
     events stopped
     = events s
         ++ match exn_cls e with
            | TranscriptsDisabled | NoTranscriptFound => [spinner; warning]
            | _ => [spinner; St_info whisper_notice; warning]
            end) /\
  (forall e, download video_url = Raise e ->
     page video_url video_id s = (Raise e, stopped)) /\
  (forall m, download video_url = Ret m ->
     exists p,
       audio_path m = Some p /\
       (forall e, transcribe p = Raise e ->
          page video_url video_id s = (Raise e, stopped)) /\
       (forall text, transcribe p = Ret text ->
          page video_url video_id s = report video_id m text stopped)) /\
  download video_url <> Diverge /\
  (forall p, transcribe p <> Diverge).
Proof.
  intros Hf Ht. cbv zeta.
  assert (Et : truthy t = false) by (destruct Ht as [->| ->]; reflexivity).
  pose proof (video_page_whisper video_url video_id s t w' Hf Et) as H.
  cbv zeta in H. cbn [events]. split; [|split; [|split; [|split; [|split]]]].
  - destruct (get_transcript_total video_id (outside s))
      as (t0 & w0 & H0 & _ & Hw).
    rewrite Hf in H0. inversion H0; subst t0 w0.
    destruct Hw as [->|[_ ->]].
    + left. split; [reflexivity|]. now rewrite notices_none.
    + right. split; [reflexivity|].
      now rewrite (notices_one _ _ whisper_notice).
  - intros e He. f_equal. revert Hf.
    unfold get_transcript, try_except, bind, lift, ret, st_info.
    rewrite He. cbn [of_outcome].
    destruct e as [[] msg]; cbn [exn_cls]; intros Hf; inversion Hf; subst;
      first [ now rewrite notices_none
            | now rewrite (notices_one _ _ whisper_notice) ].
  - intros e He. now rewrite He in H.
  - intros m Hm. rewrite Hm in H. destruct H as (p & Hp & H).
    exists p. split; [exact Hp|]. split.
    + intros e He. now rewrite He in H.
    + intros text Htext. now rewrite Htext in H.
  - apply download_never_diverges.
  - apply transcribe_never_diverges.
Qed.

(** X16: when the page completes, its last three entries are the
    heading of the summary, the summary as text, and the download button;
    the document behind the button is the one that was saved under the
    name of the identifier followed by [_summary.pdf], it is titled like
    the page, and what it draws beneath the title holds the characters of
    the summary on the page that are not whitespace, all of them and in
    order. When the identifier holds no slash the document lies directly in
    the temporary directory. *)
Theorem video_page_pdf_matches_summary (video_url video_id : str)
    (s : session) :
  let run := page video_url video_id s in
  run.1 = Ret tt ->
  exists m summary c sub_lines before,
    events run.2
    = before ++ [St_subheader (lit "📝 AI Summary");
                 St_markdown summary;
                 St_download_button (lit "📄 Download PDF Notes") c
                   (title m ++ lit "_summary.pdf") (lit "application/pdf")] /\
    In (St_markdown (lit "**Title:** " ++ title m)) before /\
    cv_path c = os_path_join gettempdir (video_id ++ lit "_summary.pdf") /\
    drawn (cv_ops c) = title m :: sub_lines /\
    ink (concat sub_lines) = ink summary /\
    (Forall (fun ch => ch <> "/"%char) video_id ->
     cv_path c = directory gettempdir ++ video_id ++ lit "_summary.pdf").
Proof.
  cbv zeta. intros Hrun.
  destruct (video_page_document video_url video_id s Hrun)
    as (m & summary & c & sub_lines & before & H1 & H2 & H3 & H4 & H5).
  exists m, summary, c, sub_lines, before.
  split; [exact H1|]. split; [exact H2|]. split; [exact H3|].
  split; [exact H4|]. split; [exact H5|].
  intros Hid. rewrite H3. apply os_path_join_directory.
  apply Forall_app. split; [exact Hid|]. repeat constructor; discriminate.
Qed.

(** *** The button and the script *)

Lemma contains_nonempty (sub url : str) :
  sub <> [] -> contains sub url = true -> url <> [].
Proof. intros Hs H ->. destruct sub; [congruence|discriminate]. Qed.

(** A short link that ends in a slash has the empty identifier. *)
Lemma extract_video_id_trailing_slash (prefix : str) :
  contains (lit "youtu.be") (prefix ++ lit "/") = true ->
  extract_video_id urlparse_query unquote (prefix ++ lit "/") = Ret (Some []).
Proof.
  intros H. unfold extract_video_id. rewrite H.
  destruct (split_last "/" (prefix ++ lit "/")) as (id & -> & Hno & Hsplit).
  do 2 f_equal. destruct Hsplit as [E|(p & E)].
  - rewrite <- E in Hno. apply Forall_app in Hno as [_ Hno].
    inversion Hno; congruence.
  - apply (last_field_unique "/" p prefix id []); [assumption|constructor|].
    rewrite app_nil_r. now rewrite <- E.
Qed.

Lemma button_pressed_run (url : str) (s : session) :
  url <> [] ->
  button_pressed url s
  = match extract_video_id urlparse_query unquote url with
    | Ret video_id =>
        if not_video_id video_id
        then (Ret tt,
              Session (outside s)
                (events s ++ [St_error (lit "Could not extract video ID.")]))
        else page url (default [] video_id) s
    | Raise e => (Raise e, s)
    | Diverge => (Diverge, s)
    end.
Proof.
  intros Hne. unfold summarize_video.
  destruct url as [|ch url]; [congruence|].
  rewrite app_bind_call.
  destruct (extract_video_id urlparse_query unquote (ch :: url))
    as [video_id| |]; try reflexivity.
  destruct (not_video_id video_id); reflexivity.
Qed.

(** X17: pressing the button does nothing but show an error when there
    is nothing to work on: [Please enter a valid YouTube video URL.] for an
    empty input, and [Could not extract video ID.] for a URL that names
    neither [youtu.be] nor [youtube.com], for a short link that ends in a
    slash, and for a watch link whose query has no [v] field with a value.
    In these cases no service is asked and no prompt goes out. What
    [urlparse] raises on a watch link is not caught. Every other input
    goes on to the page with an identifier that is not empty. *)
Theorem summarize_video_rejects (s : session) :
  let refused :=
    (Ret tt,
     Session (outside s)
       (events s ++ [St_error (lit "Could not extract video ID.")])) in
  button_pressed (lit "") s
  = (Ret tt,
     Session (outside s)
       (events s ++ [St_error (lit "Please enter a valid YouTube video URL.")]))
  /\
  (forall url,
     url <> [] ->
     contains (lit "youtu.be") url = false ->
     contains (lit "youtube.com") url = false ->
     button_pressed url s = refused) /\
  (forall prefix,
     contains (lit "youtu.be") (prefix ++ lit "/") = true ->
     button_pressed (prefix ++ lit "/") s = refused) /\
  (forall url query,
     contains (lit "youtu.be") url = false ->
     contains (lit "youtube.com") url = true ->
     urlparse_query url = Ret query ->
     values_of (lit "v") (parse_qsl unquote query) = [] ->
     button_pressed url s = refused) /\
  (forall url e,
     contains (lit "youtu.be") url = false ->
     contains (lit "youtube.com") url = true ->
     urlparse_query url = Raise e ->
     button_pressed url s = (Raise e, s)) /\
  (forall url video_id,
     url <> [] ->
     extract_video_id urlparse_query unquote url = Ret (Some video_id) ->
     video_id <> [] ->
     button_pressed url s = page url video_id s).
Proof.
  cbv zeta. split; [reflexivity|]. split; [|split; [|split; [|split]]].
  - intros url Hne H1 H2. rewrite button_pressed_run by exact Hne.
    unfold extract_video_id. now rewrite H1, H2.
  - intros prefix H. rewrite button_pressed_run.
    + now rewrite extract_video_id_trailing_slash.
    + intros E. apply app_eq_nil in E as [_ E]. discriminate.
  - intros url query H1 H2 Hq Hv.
    rewrite button_pressed_run
      by (apply (contains_nonempty (lit "youtube.com")); [discriminate|exact H2]).
    unfold extract_video_id. rewrite H1, H2, Hq. cbn [rbind].
    now rewrite parse_qs_lookup, Hv.
  - intros url e H1 H2 Hq.
    rewrite button_pressed_run
      by (apply (contains_nonempty (lit "youtube.com")); [discriminate|exact H2]).
    unfold extract_video_id. now rewrite H1, H2, Hq.
  - intros url video_id Hne He Hid. rewrite button_pressed_run by exact Hne.
    rewrite He. destruct video_id; [congruence|reflexivity].
Qed.

(** X18: for a short link the document always lies directly in the
    temporary directory. When pressing the button on a URL that contains
    [youtu.be] ends normally, either the identifier was empty and only the
    error is shown, or the run ends with the download button, and the
    document behind it was saved in the temporary directory under the
    identifier followed by [_summary.pdf], a name without a slash. *)
Theorem short_link_pdf_in_tempdir (url : str) (s : session) :
  contains (lit "youtu.be") url = true ->
  let run := button_pressed url s in
  run.1 = Ret tt ->
  run.2 = Session (outside s)
            (events s ++ [St_error (lit "Could not extract video ID.")])
  \/
  exists video_id c label file_name mime before,
    video_id <> [] /\
    (url = video_id \/ exists prefix, url = prefix ++ lit "/" ++ video_id) /\
    events run.2 = before ++ [St_download_button label c file_name mime] /\
    cv_path c = directory gettempdir ++ video_id ++ lit "_summary.pdf" /\
    Forall (fun ch => ch <> "/"%char) (video_id ++ lit "_summary.pdf").
Proof.
  intros Hshort. cbv zeta.
  rewrite button_pressed_run
    by (apply (contains_nonempty (lit "youtu.be")); [discriminate|exact Hshort]).
  unfold extract_video_id. rewrite Hshort.
  destruct (split_last "/" url) as (video_id & -> & Hno & Hsplit).
  destruct video_id as [|ch video_id]; [left; reflexivity|].
  cbn [not_video_id default]. unfold id. intros Hrun. right.
  destruct (video_page_document url (ch :: video_id) s Hrun)
    as (m & summary & c & sub_lines & before & Hev & _ & Hpath & _).
  assert (Hname : Forall (fun c => c <> "/"%char) (pdf_name (ch :: video_id))).
  { apply Forall_app. split; [exact Hno|]. repeat constructor; discriminate. }
  exists (ch :: video_id), c. do 3 eexists.
  exists (before ++ [St_subheader (lit "📝 AI Summary"); St_markdown summary]).
  split; [discriminate|]. split; [exact Hsplit|]. split.
  - rewrite Hev, <- app_assoc. reflexivity.
  - split; [|exact Hname]. rewrite Hpath.
    now apply os_path_join_directory.
Qed.

(** X19: without an API key the script shows the error and stops:
    nothing of the page is built and no service is asked, whatever the
    input. With a key, and as long as the button is not pressed, it
    configures the client, builds the four widgets of the page, and does
    nothing else. *)
Theorem script_gate (video_url : str) (pressed : bool) (s : session) :
  let run :=
    script model YouTubeTranscriptApi_get_transcript urlparse_query unquote
      gettempdir os_getenv st_secrets_get tempfile_mkdtemp
      YoutubeDL_extract_info whisper_model_transcribe requests_get Image_open
      Canvas_save video_url pressed s in
  let widgets :=
    [St_set_page_config (lit "YouTube Summarizer") (lit "wide");
     St_title (lit "📺 YouTube Video Summarizer (Whisper + Gemini AI)");
     St_text_input (lit "Paste a YouTube video URL:");
     St_button (lit "Summarize Video")] in
  (forall v,
     truthy (os_getenv (lit "GEMINI_API_KEY")) = false ->
     st_secrets_get (lit "GEMINI_API_KEY") = Returns v ->
     truthy v = false ->
     run = (Ret tt,
            Session (outside s) (events s ++ [St_error api_key_missing]))) /\
  (forall k,
     os_getenv (lit "GEMINI_API_KEY") = Some k -> k <> [] ->
     run = if pressed
           then button_pressed video_url
                  (Session (outside s)
                     (events s ++ Genai_configure k :: widgets))
           else (Ret tt,
                 Session (outside s)
                   (events s ++ Genai_configure k :: widgets))).
Proof.
  cbv zeta. unfold script, load_api_key.
  generalize api_key_missing. intros message. split.
  - intros v Henv Hsec Hv. rewrite Henv.
    unfold app_bind at 2. unfold call. rewrite Hsec. cbn [of_outcome].
    unfold app_bind at 1. rewrite Hv. reflexivity.
  - intros k Henv Hk. rewrite Henv.
    destruct k as [|ch k]; [congruence|]. cbn [truthy negb].
    unfold app_bind at 2. unfold app_ret at 1. cbn [truthy negb].
    unfold app_bind at 1. unfold app_bind at 1. unfold tell at 1.
    unfold app_ret at 1. cbn [default]. unfold id.
    rewrite !app_bind_tell. cbn [outside events].
    rewrite <- !app_assoc. cbn [app].
    destruct pressed; reflexivity.
Qed.

End Page.

(** *** The page on examples *)

Lemma video_page_with_transcript_witness :
  (exists c,
     video_page Sample.steady_model SampleApp.captions Sample.tmp
       SampleApp.temp_dir SampleApp.download_fails SampleApp.segments
       SampleApp.picture SampleApp.decode SampleApp.disk
       (lit "https://youtu.be/dQw4w9WgXcQ") (lit "dQw4w9WgXcQ") SampleApp.start
     = (Ret tt,
        Session
          (World [direct_prompt (lit "hello world
second caption")] [])
          [St_spinner (lit "Fetching transcript or audio...");
           St_subheader (lit "📌 Video Info");
           St_markdown (lit "**Title:** YouTube Video dQw4w9WgXcQ");
           St_markdown (lit "**Channel:** Unknown");
           St_markdown (lit "**Description:** ");
           St_image (lit "JFIF") (lit "Video Thumbnail") (lit "content");
           St_spinner (lit "Summarizing content...");
           St_subheader (lit "📝 AI Summary");
           St_markdown (lit "### Video Summary Report

- a point");
           St_download_button (lit "📄 Download PDF Notes") c
             (lit "YouTube Video dQw4w9WgXcQ_summary.pdf")
             (lit "application/pdf")]) /\
     cv_path c = lit "/tmp/dQw4w9WgXcQ_summary.pdf") /\
  video_page Sample.steady_model SampleApp.captions Sample.tmp
    SampleApp.temp_dir SampleApp.download_fails SampleApp.segments
    SampleApp.picture SampleApp.decode SampleApp.no_such_directory
    (lit "https://www.youtube.com/watch?v=a/b") (lit "a/b") SampleApp.start
  = (Raise (Exn FileNotFoundError
              (lit "[Errno 2] No such file or directory: '/tmp/a/b_summary.pdf'")),
     Session
       (World [direct_prompt (lit "hello world
second caption")] [])
       [St_spinner (lit "Fetching transcript or audio...");
        St_subheader (lit "📌 Video Info");
        St_markdown (lit "**Title:** YouTube Video a/b");
        St_markdown (lit "**Channel:** Unknown");
        St_markdown (lit "**Description:** ");
        St_image (lit "JFIF") (lit "Video Thumbnail") (lit "content");
        St_spinner (lit "Summarizing content...");
        St_subheader (lit "📝 AI Summary");
        St_markdown (lit "### Video Summary Report

- a point")]).
Proof.
  split.
  - destruct (video_page_with_transcript Sample.steady_model SampleApp.captions
                Sample.tmp SampleApp.temp_dir SampleApp.download_fails
                SampleApp.segments SampleApp.picture SampleApp.decode
                SampleApp.disk
                (lit "https://youtu.be/dQw4w9WgXcQ") (lit "dQw4w9WgXcQ")
                SampleApp.start
                [ {[ "text"%string := lit "hello world" ]};
                  {[ "text"%string := lit "second caption";
                     "start"%string := lit "1.5" ]} ]
                [lit "hello world"; lit "second caption"])
      as (summary & c & Hsum & Hsave & Hrun).
    + reflexivity.
    + repeat constructor.
    + discriminate.
    + exists c. vm_compute in Hsum. inversion Hsum; subst summary. split.
      * rewrite Hrun. reflexivity.
      * vm_compute in Hsave. now inversion Hsave.
  - destruct (video_page_with_transcript Sample.steady_model SampleApp.captions
                Sample.tmp SampleApp.temp_dir SampleApp.download_fails
                SampleApp.segments SampleApp.picture SampleApp.decode
                SampleApp.no_such_directory
                (lit "https://www.youtube.com/watch?v=a/b") (lit "a/b")
                SampleApp.start
                [ {[ "text"%string := lit "hello world" ]};
                  {[ "text"%string := lit "second caption";
                     "start"%string := lit "1.5" ]} ]
                [lit "hello world"; lit "second caption"])
      as (summary & c & Hsum & Hsave & Hrun).
    + reflexivity.
    + repeat constructor.
    + discriminate.
    + vm_compute in Hsum. inversion Hsum; subst summary.
      vm_compute in Hsave. inversion Hsave; subst c.
      rewrite Hrun. reflexivity.
Defined.

Lemma video_page_whisper_fallback_witness :
  video_page Sample.steady_model SampleApp.captions_unreachable Sample.tmp
    SampleApp.temp_dir SampleApp.download_fails SampleApp.segments
    SampleApp.picture SampleApp.decode SampleApp.disk
    (lit "https://youtu.be/dQw4w9WgXcQ") (lit "dQw4w9WgXcQ") SampleApp.start
  = (Raise (Exn OtherException (lit "ERROR: Video unavailable")),
     Session
       (World []
          [lit "Transcript not available from YouTube. Switching to Whisper..."])
       [St_spinner (lit "Fetching transcript or audio...");
        St_info
          (lit "Transcript not available from YouTube. Switching to Whisper...");
        St_warning (lit "No transcript found. Using Whisper...")]).
Proof.
  destruct (video_page_whisper_fallback Sample.steady_model
              SampleApp.captions_unreachable Sample.tmp SampleApp.temp_dir
              SampleApp.download_fails SampleApp.segments
              SampleApp.picture SampleApp.decode SampleApp.disk
              (lit "https://youtu.be/dQw4w9WgXcQ") (lit "dQw4w9WgXcQ")
              SampleApp.start None
              (World [] [whisper_notice])
              eq_refl (or_introl eq_refl))
    as (_ & _ & Hdownload & _).
  apply Hdownload. reflexivity.
Defined.

Lemma video_page_pdf_matches_summary_witness :
  let run :=
    video_page Sample.failing_model SampleApp.no_captions Sample.tmp
      SampleApp.temp_dir SampleApp.extract_info SampleApp.segments
      SampleApp.no_network SampleApp.decode SampleApp.disk
      (lit "https://youtu.be/dQw4w9WgXcQ") (lit "dQw4w9WgXcQ")
      SampleApp.start in
  run.1 = Ret tt /\
  gen_log (outside run.2)
  = [direct_prompt (lit " So today  we talk  about proofs.")] /\
  exists m summary c sub_lines before,
    events run.2
    = before ++ [St_subheader (lit "📝 AI Summary");
                 St_markdown summary;
                 St_download_button (lit "📄 Download PDF Notes") c
                   (title m ++ lit "_summary.pdf") (lit "application/pdf")] /\
    In (St_markdown (lit "**Title:** " ++ title m)) before /\
    cv_path c = os_path_join Sample.tmp (lit "dQw4w9WgXcQ" ++ lit "_summary.pdf") /\
    AppSpec.drawn (cv_ops c) = title m :: sub_lines /\
    Spec.ink (concat sub_lines) = Spec.ink summary /\
    (Forall (fun ch => ch <> "/"%char) (lit "dQw4w9WgXcQ") ->
     cv_path c
     = AppSpec.directory Sample.tmp ++ lit "dQw4w9WgXcQ" ++ lit "_summary.pdf").
Proof.
  cbv zeta.
  assert (Hrun : (video_page Sample.failing_model SampleApp.no_captions
                    Sample.tmp SampleApp.temp_dir SampleApp.extract_info
                    SampleApp.segments SampleApp.no_network SampleApp.decode SampleApp.disk
                    (lit "https://youtu.be/dQw4w9WgXcQ") (lit "dQw4w9WgXcQ")
                    SampleApp.start).1 = Ret tt)
    by (vm_compute; reflexivity).
  split; [exact Hrun|]. split; [vm_compute; reflexivity|].
  exact (video_page_pdf_matches_summary Sample.failing_model
           SampleApp.no_captions Sample.tmp SampleApp.temp_dir
           SampleApp.extract_info SampleApp.segments SampleApp.no_network
           SampleApp.decode SampleApp.disk (lit "https://youtu.be/dQw4w9WgXcQ")
           (lit "dQw4w9WgXcQ") SampleApp.start Hrun).
Defined.

Lemma short_link_pdf_in_tempdir_witness :
  let run :=
    summarize_video Sample.steady_model SampleApp.captions Sample.query_of
      Sample.unquote_plain Sample.tmp SampleApp.temp_dir
      SampleApp.extract_info SampleApp.segments SampleApp.picture
      SampleApp.decode SampleApp.disk (lit "https://youtu.be/dQw4w9WgXcQ?t=42")
      SampleApp.start in
  contains (lit "youtu.be") (lit "https://youtu.be/dQw4w9WgXcQ?t=42") = true /\
  run.1 = Ret tt /\
  (run.2 = Session (outside SampleApp.start)
             (events SampleApp.start
                ++ [St_error (lit "Could not extract video ID.")])
   \/
   exists video_id c label file_name mime before,
     video_id <> [] /\
     (lit "https://youtu.be/dQw4w9WgXcQ?t=42" = video_id
      \/ exists prefix,
           lit "https://youtu.be/dQw4w9WgXcQ?t=42"
           = prefix ++ lit "/" ++ video_id) /\
     events run.2 = before ++ [St_download_button label c file_name mime] /\
     cv_path c
     = AppSpec.directory Sample.tmp ++ video_id ++ lit "_summary.pdf" /\
     Forall (fun ch => ch <> "/"%char) (video_id ++ lit "_summary.pdf")).
Proof.
  cbv zeta.
  assert (Hshort : contains (lit "youtu.be")
                     (lit "https://youtu.be/dQw4w9WgXcQ?t=42") = true)
    by reflexivity.
  assert (Hrun : (summarize_video Sample.steady_model SampleApp.captions
                    Sample.query_of Sample.unquote_plain Sample.tmp
                    SampleApp.temp_dir SampleApp.extract_info
                    SampleApp.segments SampleApp.picture SampleApp.decode SampleApp.disk
                    (lit "https://youtu.be/dQw4w9WgXcQ?t=42")
                    SampleApp.start).1 = Ret tt)
    by (vm_compute; reflexivity).
  split; [exact Hshort|]. split; [exact Hrun|].
  exact (short_link_pdf_in_tempdir Sample.steady_model SampleApp.captions
           Sample.query_of Sample.unquote_plain Sample.tmp SampleApp.temp_dir
           SampleApp.extract_info SampleApp.segments SampleApp.picture
           SampleApp.decode SampleApp.disk (lit "https://youtu.be/dQw4w9WgXcQ?t=42")
           SampleApp.start Hshort Hrun).
Defined.

Lemma summarize_video_rejects_witness :
  summarize_video Sample.steady_model SampleApp.captions Sample.query_of
    Sample.unquote_plain Sample.tmp SampleApp.temp_dir SampleApp.extract_info
    SampleApp.segments SampleApp.picture SampleApp.decode SampleApp.disk
    (lit "https://youtu.be/") SampleApp.start
  = (Ret tt,
     Session Sample.fresh [St_error (lit "Could not extract video ID.")]) /\
  summarize_video Sample.steady_model SampleApp.captions Sample.query_of
    Sample.unquote_plain Sample.tmp SampleApp.temp_dir SampleApp.extract_info
    SampleApp.segments SampleApp.picture SampleApp.decode SampleApp.disk
    (lit "https://www.youtube.com/watch?list=PL1&v=") SampleApp.start
  = (Ret tt,
     Session Sample.fresh [St_error (lit "Could not extract video ID.")]).
Proof.
  pose proof (summarize_video_rejects Sample.steady_model SampleApp.captions
                Sample.query_of Sample.unquote_plain Sample.tmp
                SampleApp.temp_dir SampleApp.extract_info SampleApp.segments
                SampleApp.picture SampleApp.decode SampleApp.disk SampleApp.start)
    as (_ & _ & Hslash & Hwatch & _).
  split.
  - apply (Hslash (lit "https://youtu.be")). reflexivity.
  - apply (Hwatch (lit "https://www.youtube.com/watch?list=PL1&v=")
             (lit "list=PL1&v=")); reflexivity.
Defined.

Lemma script_gate_witness :
  script Sample.steady_model SampleApp.captions Sample.query_of
    Sample.unquote_plain Sample.tmp SampleApp.empty_env SampleApp.no_secret
    SampleApp.temp_dir SampleApp.extract_info SampleApp.segments
    SampleApp.picture SampleApp.decode SampleApp.disk (lit "https://youtu.be/dQw4w9WgXcQ")
    true SampleApp.start
  = (Ret tt, Session Sample.fresh [St_error api_key_missing]) /\
  script Sample.steady_model SampleApp.captions Sample.query_of
    Sample.unquote_plain Sample.tmp SampleApp.env_key SampleApp.no_secrets_file
    SampleApp.temp_dir SampleApp.extract_info SampleApp.segments
    SampleApp.picture SampleApp.decode SampleApp.disk (lit "https://youtu.be/dQw4w9WgXcQ")
    false SampleApp.start
  = (Ret tt,
     Session Sample.fresh
       [Genai_configure (lit "env-key");
        St_set_page_config (lit "YouTube Summarizer") (lit "wide");
        St_title (lit "📺 YouTube Video Summarizer (Whisper + Gemini AI)");
        St_text_input (lit "Paste a YouTube video URL:");
        St_button (lit "Summarize Video")]).
Proof.
  split.
  - apply (proj1 (script_gate Sample.steady_model SampleApp.captions
                    Sample.query_of Sample.unquote_plain Sample.tmp
                    SampleApp.empty_env SampleApp.no_secret SampleApp.temp_dir
                    SampleApp.extract_info SampleApp.segments SampleApp.picture
                    SampleApp.decode SampleApp.disk (lit "https://youtu.be/dQw4w9WgXcQ") true
                    SampleApp.start) None);
      reflexivity.
  - apply (proj2 (script_gate Sample.steady_model SampleApp.captions
                    Sample.query_of Sample.unquote_plain Sample.tmp
                    SampleApp.env_key SampleApp.no_secrets_file
                    SampleApp.temp_dir SampleApp.extract_info
                    SampleApp.segments SampleApp.picture SampleApp.decode SampleApp.disk
                    (lit "https://youtu.be/dQw4w9WgXcQ") false SampleApp.start)
             (lit "env-key")); [reflexivity|discriminate].
Defined.

Lemma save_pdf_within_margins_witness :
  save_pdf_to_disk Sample.tmp SampleApp.no_such_directory (lit "Talk") (lit "one")
    (lit "nodir/x.pdf")
  = Raise (Exn FileNotFoundError
             (lit "[Errno 2] No such file or directory: '/tmp/nodir/x.pdf'")) /\
  exists c,
    save_pdf_to_disk Sample.tmp SampleApp.disk (lit "Talk") (lit "one")
      (lit "nodir/x.pdf")
    = Ret (lit "/tmp/nodir/x.pdf", c) /\
    cv_ops c = [SetFont (lit "Helvetica-Bold") 14;
                DrawString 50 742 (lit "Talk");
                SetFont (lit "Helvetica") 10;
                DrawString 50 722 (lit "one");
                Save].
Proof.
  split.
  - destruct (save_pdf_within_margins Sample.tmp SampleApp.no_such_directory
                (lit "Talk") (lit "one") (lit "nodir/x.pdf"))
      as (c & Hpath & _ & _ & _ & Hrun).
    rewrite Hrun. cbn [SampleApp.no_such_directory]. rewrite Hpath.
    reflexivity.
  - destruct (save_pdf_within_margins Sample.tmp SampleApp.disk
                (lit "Talk") (lit "one") (lit "nodir/x.pdf"))
      as (c & _ & _ & _ & _ & Hrun).
    exists c. split; [exact Hrun|].
    vm_compute in Hrun. now inversion Hrun.
Defined.

Lemma save_pdf_pages_closed_witness :
  exists c,
    save_pdf Sample.tmp (lit "Talk") SampleApp.full_page_report (lit "x.pdf")
    = Ret (lit "/tmp/x.pdf", c) /\
    length (AppSpec.drawn (cv_ops c)) = 46%nat /\
    AppSpec.pages_closed (cv_ops c) = 1%nat /\
    exists ops, cv_ops c = ops ++ [ShowPage; Save].
Proof.
  destruct (save_pdf_pages_closed Sample.tmp (lit "Talk")
              SampleApp.full_page_report (lit "x.pdf"))
    as (c & Hrun & Hpages & Hlast).
  exists c. split; [exact Hrun|].
  assert (Hn : length (AppSpec.drawn (cv_ops c)) = 46%nat)
    by (vm_compute in Hrun; inversion Hrun; reflexivity).
  rewrite Hn in Hpages, Hlast. split; [exact Hn|]. split.
  - apply Nat2Z.inj. rewrite Hpages. reflexivity.
  - apply Hlast. left. reflexivity.
Defined.
